(** * Column storage: a shallow embedding of [ColumnData]

    The column-data coordinator of the storage layer, the [ColumnData]
    methods of src/planner/operator/logical_get.cpp (its second part, from
    the [ColumnData] constructor on): one column's rows kept as an ordered
    chain of segments, an optional update overlay and, for root columns, a
    zone map.  Operations are pure functions over an explicit [ColumnData]
    value; a pointer to a segment of the tree is the position of that
    segment in the tree, so that writes through a cursor reach the tree
    itself.  The segment tree, the segments' own methods and the update
    overlay are declared in other sources and are modelled from their
    contracts. *)

From stdpp Require Import base numbers option list gmap strings pretty.

Local Open Scope N_scope.

Ltac Zify.zify_post_hook ::= Z.to_euclidean_division_equations.

(** ** Machine integers *)

(** [idx_t] is [uint64_t]: a natural number below [2^64], every arithmetic
    result reduced modulo [2^64]. *)
Definition idx_t := N.
Definition IDX_MODULUS : N := Eval cbv in 2 ^ 64.
Definition wrap (x : N) : idx_t := x mod IDX_MODULUS.
Definition idx_add (a b : idx_t) : idx_t := wrap (a + b).
Definition idx_sub (a b : idx_t) : idx_t := wrap (a + IDX_MODULUS - wrap b).
Definition idx_mul (a b : idx_t) : idx_t := wrap (a * b).

(** [row_t] is [int64_t]; [idx_t(row)] and [UnsafeNumericCast<idx_t>(row)]
    reinterpret the two's-complement bits. *)
Definition row_t := Z.
Definition idx_of_row (r : row_t) : idx_t := Z.to_N (r mod Z.of_N IDX_MODULUS).

Definition STANDARD_VECTOR_SIZE : idx_t := 1024.

(** ** Outcomes *)

Inductive Exception := InternalException | TransactionException.

(** What a call does: return, throw, dereference a null pointer (left
    undefined by the language), or exhaust the fuel of a loop that has no
    bound of its own. *)
Inductive outcome (A : Type) :=
  | Ok (a : A)
  | Throw (e : Exception)
  | Undefined
  | OutOfFuel.
Arguments Ok {A} a.
Arguments Throw {A} e.
Arguments Undefined {A}.
Arguments OutOfFuel {A}.

#[global] Instance outcome_ret : MRet outcome := fun _ a => Ok a.
#[global] Instance outcome_bind : MBind outcome := fun _ _ f m =>
  match m with
  | Ok a => f a
  | Throw e => Throw e
  | Undefined => Undefined
  | OutOfFuel => OutOfFuel
  end.

(** [D_ASSERT(cond)]: throws an internal exception in assertion-enabled
    (debug) builds, compiles to nothing otherwise. *)
Definition D_ASSERT (debug cond : bool) : outcome unit :=
  if debug && negb cond then Throw InternalException else Ok ().

(** A pointer that may be null. *)
Definition deref {A} (p : option A) : outcome A :=
  match p with Some a => Ok a | None => Undefined end.

(** ** Values, vectors, statistics *)

Inductive LogicalType := INTEGER | BIGINT | VARCHAR | VALIDITY | STRUCT | LIST | ARRAY.

#[global] Instance LogicalType_eq_dec : EqDecision LogicalType.
Proof. solve_decision. Defined.

Inductive Value := Null | Int (z : Z).

(** A [Vector] by its logical content; [Flatten] changes the physical
    layout only. *)
Abbreviation Vector := (list Value).
Definition Flatten (v : Vector) (n : idx_t) : Vector := v.

(** Writing [vals] into a vector from position [off] on, as the segment
    decoders do with their [result_offset]. *)
(** [n] values of [l] from position [off] on, NULL where [l] has none. *)
Definition slice (l : list Value) (off n : nat) : list Value :=
  take n (drop off l ++ replicate n Null).

Definition vector_write (v : Vector) (off : nat) (vals : list Value) : Vector :=
  take off (v ++ replicate (off - length v)%nat Null) ++ vals
    ++ drop (off + length vals)%nat v.

(** Modelled from the spec: the statistics classes are not among the sources;
    the zone map is the per-column aggregate of section 3 (minimum,
    maximum and whether a NULL was seen), and [Merge] widens it. *)
Record BaseStatistics := mkStats {
  has_null : bool;
  min_max : option (Z * Z)
}.

Definition CreateEmpty (t : LogicalType) : BaseStatistics := mkStats false None.

Definition Merge (a b : BaseStatistics) : BaseStatistics :=
  mkStats (has_null a || has_null b)
    match min_max a, min_max b with
    | None, x => x
    | x, None => x
    | Some (l1, h1), Some (l2, h2) => Some (Z.min l1 l2, Z.max h1 h2)
    end.

Definition stats_of_value (v : Value) : BaseStatistics :=
  match v with
  | Null => mkStats true None
  | Int z => mkStats false (Some (z, z))
  end.

Definition stats_update (s : BaseStatistics) (vals : list Value) : BaseStatistics :=
  foldl (fun acc v => Merge acc (stats_of_value v)) s vals.

Definition covers (s : BaseStatistics) (v : Value) : Prop :=
  match v with
  | Null => has_null s = true
  | Int z => ∃ lo hi, min_max s = Some (lo, hi) ∧ (lo ≤ z ≤ hi)%Z
  end.

(** ** Segments *)

Inductive ColumnSegmentType := TRANSIENT | PERSISTENT.

#[global] Instance ColumnSegmentType_eq_dec : EqDecision ColumnSegmentType.
Proof. solve_decision. Defined.

(** The encoding of a segment, by the entry points the column code asks
    for. *)
Record CompressionFunction := mkFunction {
  compression_type : N;
  init_append : bool;
  append : bool
}.

Module ColumnSegment.
Record t := mk {
  start : idx_t;
  count : idx_t;
  segment_type : ColumnSegmentType;
  type : LogicalType;
  segment_size : idx_t;
  function : CompressionFunction;
  stats : BaseStatistics;
  rows : list Value;             (* the decoded content *)
  block_id : N;
  offset : idx_t;
  segment_state : option N
}.

Definition set_start (s : t) (v : idx_t) : t :=
  mk v (count s) (segment_type s) (type s) (segment_size s) (function s)
    (stats s) (rows s) (block_id s) (offset s) (segment_state s).

Definition set_content (s : t) (c : idx_t) (st : BaseStatistics) (r : list Value) : t :=
  mk (start s) c (segment_type s) (type s) (segment_size s) (function s)
    st r (block_id s) (offset s) (segment_state s).
End ColumnSegment.

Abbreviation ColumnSegment := ColumnSegment.t.

(** ** The segment tree *)

(** Modelled from the spec: the [SegmentTree] class is not among the sources.
    Section 3 has it as the ordered sequence of segments indexed by row id;
    a segment reference is its position in that sequence, and the row index
    is read off the segments' own [start] and [count]. *)
Abbreviation SegmentTree := (list ColumnSegment).

Definition GetRootSegment (t : SegmentTree) : option nat :=
  match t with [] => None | _ => Some 0%nat end.

Definition GetLastSegment (t : SegmentTree) : option nat :=
  match t with [] => None | _ => Some (length t - 1)%nat end.

(** Modelled from the spec: [GetNextSegment] is the successor lookup of
    section 4.1, none at the tail. *)
Definition GetNextSegment (t : SegmentTree) (i : nat) : option nat :=
  if decide (S i < length t)%nat then Some (S i) else None.

Definition in_segment (row : idx_t) (s : ColumnSegment) : bool :=
  bool_decide (ColumnSegment.start s ≤ row
               ∧ row < ColumnSegment.start s + ColumnSegment.count s).

Fixpoint find_segment (t : SegmentTree) (row : idx_t) (i : nat) : option nat :=
  match t with
  | [] => None
  | s :: t' => if in_segment row s then Some i else find_segment t' row (S i)
  end.

(** Modelled from the spec: [GetSegmentIndex] / [GetSegment] locate the
    segment whose range contains the row and fail with an
    internal-consistency error when no segment does (section 4.1). *)
Definition GetSegmentIndex (t : SegmentTree) (row : idx_t) : outcome nat :=
  match find_segment t row 0 with
  | Some i => Ok i
  | None => Throw InternalException
  end.

Definition GetSegment := GetSegmentIndex.

(** Modelled from the spec: [AppendSegment] adds at the tail. *)
Definition AppendSegment (t : SegmentTree) (s : ColumnSegment) : SegmentTree := t ++ [s].

(** Modelled from the spec: [EraseSegments] as [RevertAppend] uses it,
    removing the segments after the given one (sections 4.1 and 4.3; the
    call site says: remove any segments AFTER this segment). *)
Definition EraseSegments (t : SegmentTree) (segment_index : nat) : SegmentTree :=
  take (S segment_index) t.

(** Modelled from the spec: [MoveSegments] detaches the whole list and
    leaves the tree empty; [Replace] swaps a built list in. *)
Definition MoveSegments (t : SegmentTree) : SegmentTree * list ColumnSegment := ([], t).
Definition Replace (t new_tree : SegmentTree) : SegmentTree := new_tree.

(** Modelled from the spec: [Reinitialize] rebuilds the row index from the
    segments; the sequence itself is left as it is. *)
Definition Reinitialize (t : SegmentTree) : SegmentTree := t.

Definition sum_counts (t : SegmentTree) : N :=
  foldr (fun s acc => ColumnSegment.count s + acc) 0 t.

Definition all_rows (t : SegmentTree) : list Value :=
  mjoin (ColumnSegment.rows <$> t).

(** The segments are contiguous from [first]: each starts where its
    predecessor ends. *)
Fixpoint contiguous (first : N) (t : SegmentTree) : Prop :=
  match t with
  | [] => True
  | s :: t' => ColumnSegment.start s = first
               ∧ contiguous (first + ColumnSegment.count s) t'
  end.

(** ** The update overlay *)

Record TransactionData := mkTransaction {
  transaction_id : N;
  start_time : N
}.

Record UpdateInfo := mkUpdate {
  upd_transaction : N;          (* the writer *)
  upd_commit : option N;        (* its commit id, none while uncommitted *)
  upd_old : Value;
  upd_new : Value
}.

(** Modelled from the spec: the [UpdateSegment] class is not among the sources.
    Section 3 has it keyed by vector-block index, each block mapping a row
    offset to a chain of entries (newest first here).  A reader sees the
    latest entry committed at or before its snapshot or written by itself;
    a committed-only read sees the latest entry that has a commit id. *)
Record UpdateSegment := mkUpdates {
  upd_column_start : idx_t;
  upd_blocks : gmap N (gmap N (list UpdateInfo))
}.

Definition is_committed (u : UpdateInfo) : bool :=
  match upd_commit u with Some _ => true | None => false end.

Definition visible_to (tx : TransactionData) (u : UpdateInfo) : bool :=
  match upd_commit u with
  | Some c => bool_decide (c ≤ start_time tx)
  | None => false
  end || bool_decide (upd_transaction u = transaction_id tx).

Definition latest (p : UpdateInfo → bool) (chain : list UpdateInfo) : option Value :=
  upd_new <$> head (filter (fun u => p u = true) chain).

Definition block_of (u : UpdateSegment) (vector_index : idx_t) : gmap N (list UpdateInfo) :=
  default ∅ (upd_blocks u !! vector_index).

Definition HasUncommittedUpdates (u : UpdateSegment) (vector_index : idx_t) : bool :=
  bool_decide (map_Exists (fun _ chain => Exists (fun e => is_committed e = false) chain)
                 (block_of u vector_index)).

(** Overlaying one block: every row offset that has a selected entry takes
    that entry's value, the others keep theirs. *)
Definition overlay (p : UpdateInfo → bool) (block : gmap N (list UpdateInfo))
    (result : Vector) : Vector :=
  imap (fun i v => default v (block !! N.of_nat i ≫= latest p)) result.

Definition FetchCommitted (u : UpdateSegment) (vector_index : idx_t) (result : Vector) : Vector :=
  overlay is_committed (block_of u vector_index) result.

Definition UpdateSegment_FetchUpdates (u : UpdateSegment) (tx : TransactionData)
    (vector_index : idx_t) (result : Vector) : Vector :=
  overlay (visible_to tx) (block_of u vector_index) result.

Definition UpdateSegment_FetchRow (u : UpdateSegment) (tx : TransactionData)
    (row_id : idx_t) (result : Vector) (result_idx : nat) : Vector :=
  let rel := idx_sub row_id (upd_column_start u) in
  let chain := default [] (block_of u (rel / STANDARD_VECTOR_SIZE)
                             !! (rel mod STANDARD_VECTOR_SIZE)) in
  match latest (visible_to tx) chain with
  | Some v => <[result_idx := v]> result
  | None => result
  end.

(** ** Column data *)

(** Modelled from the spec: the block store behind persistent segments,
    by block id, offset and row count. *)
Definition BlockManager := N → idx_t → idx_t → list Value.

Record ColumnData := mkColumn {
  start : idx_t;
  count : idx_t;
  block_manager : BlockManager;
  column_index : idx_t;
  type : LogicalType;
  parent : option N;            (* non-owning handle of the parent column *)
  data : SegmentTree;
  updates : option UpdateSegment;
  stats : option BaseStatistics;
  allocation_size : idx_t
}.

Definition set_start (c : ColumnData) (v : idx_t) : ColumnData :=
  mkColumn v (count c) (block_manager c) (column_index c) (type c) (parent c)
    (data c) (updates c) (stats c) (allocation_size c).
Definition set_count (c : ColumnData) (v : idx_t) : ColumnData :=
  mkColumn (start c) v (block_manager c) (column_index c) (type c) (parent c)
    (data c) (updates c) (stats c) (allocation_size c).
Definition set_data (c : ColumnData) (v : SegmentTree) : ColumnData :=
  mkColumn (start c) (count c) (block_manager c) (column_index c) (type c) (parent c)
    v (updates c) (stats c) (allocation_size c).
Definition set_updates (c : ColumnData) (v : option UpdateSegment) : ColumnData :=
  mkColumn (start c) (count c) (block_manager c) (column_index c) (type c) (parent c)
    (data c) v (stats c) (allocation_size c).
Definition set_stats (c : ColumnData) (v : option BaseStatistics) : ColumnData :=
  mkColumn (start c) (count c) (block_manager c) (column_index c) (type c) (parent c)
    (data c) (updates c) v (allocation_size c).
Definition set_allocation_size (c : ColumnData) (v : idx_t) : ColumnData :=
  mkColumn (start c) (count c) (block_manager c) (column_index c) (type c) (parent c)
    (data c) (updates c) (stats c) v.

(** The constructor: only a column without a parent gets a statistics
    object. *)
Definition ColumnData_new (bm : BlockManager) (column_index start_row : idx_t)
    (type_p : LogicalType) (parent : option N) : ColumnData :=
  mkColumn start_row 0 bm column_index type_p parent [] None
    (match parent with Some _ => None | None => Some (CreateEmpty type_p) end) 0.

(** [SetStart]: the loop carries [offset] through the segments. *)
Fixpoint SetStart_loop (start offset : idx_t) (t : SegmentTree) : SegmentTree :=
  match t with
  | [] => []
  | segment :: t' =>
      ColumnSegment.set_start segment (idx_add start offset)
        :: SetStart_loop start (idx_add offset (ColumnSegment.count segment)) t'
  end.

Definition SetStart (c : ColumnData) (new_start : idx_t) : ColumnData :=
  let c := set_start c new_start in
  set_data c (Reinitialize (SetStart_loop (start c) 0 (data c))).

Definition HasUpdates (c : ColumnData) : bool :=
  match updates c with Some _ => true | None => false end.

Definition ClearUpdates (c : ColumnData) : ColumnData := set_updates c None.

Definition GetMaxEntry (c : ColumnData) : idx_t := count c.

(** ** Cursors *)

Module ColumnScanState.
Record t := mk {
  current : option nat;                  (* the segment being read *)
  row_index : idx_t;
  internal_index : idx_t;
  initialized : bool;
  scan_state : option nat;               (* decode sub-state, by its segment *)
  previous_states : list (option nat);
  segment_checked : bool;
  last_offset : idx_t;
  force_fetch_row : bool                 (* scan_options && scan_options->force_fetch_row *)
}.

Definition fresh : t := mk None 0 0 false None [] false 0 false.

Definition set_current (s : t) (v : option nat) : t :=
  mk v (row_index s) (internal_index s) (initialized s) (scan_state s)
    (previous_states s) (segment_checked s) (last_offset s) (force_fetch_row s).
Definition set_row_index (s : t) (v : idx_t) : t :=
  mk (current s) v (internal_index s) (initialized s) (scan_state s)
    (previous_states s) (segment_checked s) (last_offset s) (force_fetch_row s).
Definition set_internal_index (s : t) (v : idx_t) : t :=
  mk (current s) (row_index s) v (initialized s) (scan_state s)
    (previous_states s) (segment_checked s) (last_offset s) (force_fetch_row s).
Definition set_initialized (s : t) (v : bool) : t :=
  mk (current s) (row_index s) (internal_index s) v (scan_state s)
    (previous_states s) (segment_checked s) (last_offset s) (force_fetch_row s).
Definition set_scan_state (s : t) (v : option nat) : t :=
  mk (current s) (row_index s) (internal_index s) (initialized s) v
    (previous_states s) (segment_checked s) (last_offset s) (force_fetch_row s).
Definition set_previous_states (s : t) (v : list (option nat)) : t :=
  mk (current s) (row_index s) (internal_index s) (initialized s) (scan_state s)
    v (segment_checked s) (last_offset s) (force_fetch_row s).
Definition set_segment_checked (s : t) (v : bool) : t :=
  mk (current s) (row_index s) (internal_index s) (initialized s) (scan_state s)
    (previous_states s) v (last_offset s) (force_fetch_row s).
Definition set_last_offset (s : t) (v : idx_t) : t :=
  mk (current s) (row_index s) (internal_index s) (initialized s) (scan_state s)
    (previous_states s) (segment_checked s) v (force_fetch_row s).
End ColumnScanState.

Abbreviation ColumnScanState := ColumnScanState.t.

Module ColumnAppendState.
Record t := mk {
  current : option nat;                  (* the segment being written *)
  append_state : option nat              (* append sub-state, by its segment *)
}.
End ColumnAppendState.

Abbreviation ColumnAppendState := ColumnAppendState.t.

(** ** What a segment does *)

(** Modelled from the spec: the segment's own methods are not among the sources.
    By section 6 a decode yields exactly the requested number of rows; the
    position inside the segment is the cursor's row minus the segment's
    start. *)
Definition ColumnSegment_InitializeScan (i : nat) (state : ColumnScanState) : ColumnScanState :=
  ColumnScanState.set_scan_state state (Some i).

Definition ColumnSegment_Skip (state : ColumnScanState) : ColumnScanState :=
  ColumnScanState.set_internal_index state (ColumnScanState.row_index state).

Definition ColumnSegment_Scan (seg : ColumnSegment) (state : ColumnScanState)
    (scan_count : idx_t) (result : Vector) (result_offset : idx_t)
    (entire_vector : bool) : Vector :=
  vector_write result (N.to_nat result_offset)
    (slice (ColumnSegment.rows seg)
       (N.to_nat (idx_sub (ColumnScanState.row_index state) (ColumnSegment.start seg)))
       (N.to_nat scan_count)).

Definition ColumnSegment_FetchRow (seg : ColumnSegment) (row_id : idx_t)
    (result : Vector) (result_idx : idx_t) : Vector :=
  vector_write result (N.to_nat result_idx)
    (slice (ColumnSegment.rows seg)
       (N.to_nat (idx_sub row_id (ColumnSegment.start seg))) 1).

(** ** Scanning *)

Definition InitializeScan (c : ColumnData) (state : ColumnScanState) : ColumnScanState :=
  let state := ColumnScanState.set_current state (GetRootSegment (data c)) in
  let state := ColumnScanState.set_row_index state
    (match ColumnScanState.current state ≫= (data c !!.) with
     | Some seg => ColumnSegment.start seg
     | None => 0
     end) in
  let state := ColumnScanState.set_internal_index state (ColumnScanState.row_index state) in
  let state := ColumnScanState.set_initialized state false in
  let state := ColumnScanState.set_scan_state state None in
  ColumnScanState.set_last_offset state 0.

Definition InitializeScanWithOffset (c : ColumnData) (state : ColumnScanState)
    (row_idx : idx_t) : outcome ColumnScanState :=
  i ← GetSegment (data c) row_idx;
  seg ← deref (data c !! i);
  let state := ColumnScanState.set_current state (Some i) in
  let state := ColumnScanState.set_row_index state row_idx in
  let state := ColumnScanState.set_internal_index state (ColumnSegment.start seg) in
  let state := ColumnScanState.set_initialized state false in
  let state := ColumnScanState.set_scan_state state None in
  mret (ColumnScanState.set_last_offset state 0).

Definition within_segment (row : idx_t) (seg : ColumnSegment) : bool :=
  bool_decide (ColumnSegment.start seg ≤ row)
  && bool_decide (row ≤ idx_add (ColumnSegment.start seg) (ColumnSegment.count seg)).

(** The [force_fetch_row] branch: the rows one at a time. *)
Definition fetch_rows (seg : ColumnSegment) (row_index scan_count : idx_t)
    (result : Vector) (result_offset : idx_t) : Vector :=
  foldl (fun result i =>
           ColumnSegment_FetchRow seg (idx_add row_index (N.of_nat i)) result
             (idx_add result_offset (N.of_nat i)))
    result (seq 0 (N.to_nat scan_count)).

(** The body of [ScanVector]'s [while (remaining > 0)].  Every turn that
    does not leave the loop moves to the next segment, so the fuel handed
    over by [ScanVector] (one more than the number of segments) is never
    used up. *)
Fixpoint ScanVector_loop (fuel : nat) (debug : bool) (tree : SegmentTree)
    (has_updates : bool) (initial_remaining : idx_t)
    (state : ColumnScanState) (result : Vector) (remaining : idx_t)
    : outcome (ColumnScanState * Vector * idx_t) :=
  match fuel with
  | O => OutOfFuel
  | S fuel =>
    if negb (0 <? remaining) then mret (state, result, remaining) else
    i ← deref (ColumnScanState.current state);
    seg ← deref (tree !! i);
    _ ← D_ASSERT debug (within_segment (ColumnScanState.row_index state) seg);
    let scan_count := N.min remaining
      (idx_sub (idx_add (ColumnSegment.start seg) (ColumnSegment.count seg))
         (ColumnScanState.row_index state)) in
    let result_offset := idx_sub initial_remaining remaining in
    let '(state, result, remaining) :=
      if 0 <? scan_count then
        let result :=
          if ColumnScanState.force_fetch_row state
          then fetch_rows seg (ColumnScanState.row_index state) scan_count result result_offset
          else
            let entire_vector := negb has_updates && (scan_count =? initial_remaining) in
            ColumnSegment_Scan seg state scan_count result result_offset entire_vector in
        (ColumnScanState.set_row_index state
           (idx_add (ColumnScanState.row_index state) scan_count),
         result, idx_sub remaining scan_count)
      else (state, result, remaining) in
    if 0 <? remaining then
      match GetNextSegment tree i with
      | None => mret (state, result, remaining)
      | Some next =>
        let state := ColumnScanState.set_previous_states state
          (ColumnScanState.previous_states state ++ [ColumnScanState.scan_state state]) in
        let state := ColumnScanState.set_scan_state state None in
        let state := ColumnScanState.set_current state (Some next) in
        nseg ← deref (tree !! next);
        let state := ColumnSegment_InitializeScan next state in
        let state := ColumnScanState.set_segment_checked state false in
        _ ← D_ASSERT debug (within_segment (ColumnScanState.row_index state) nseg);
        ScanVector_loop fuel debug tree has_updates initial_remaining state result remaining
      end
    else
      ScanVector_loop fuel debug tree has_updates initial_remaining state result remaining
  end.

Definition ScanVector (debug : bool) (c : ColumnData) (state : ColumnScanState)
    (result : Vector) (remaining : idx_t) (has_updates : bool)
    : outcome (ColumnScanState * Vector * idx_t) :=
  let state := ColumnScanState.set_previous_states state [] in
  state ←
    (if negb (ColumnScanState.initialized state) then
       _ ← D_ASSERT debug (bool_decide (is_Some (ColumnScanState.current state)));
       i ← deref (ColumnScanState.current state);
       seg ← deref (data c !! i);
       let state := ColumnSegment_InitializeScan i state in
       let state := ColumnScanState.set_internal_index state (ColumnSegment.start seg) in
       mret (ColumnScanState.set_initialized state true)
     else mret state);
  _ ← D_ASSERT debug
        (bool_decide (is_Some (ColumnScanState.current state ≫= (data c !!.))));
  _ ← D_ASSERT debug
        (bool_decide (ColumnScanState.internal_index state ≤ ColumnScanState.row_index state));
  state ←
    (if ColumnScanState.internal_index state <? ColumnScanState.row_index state then
       i ← deref (ColumnScanState.current state);
       _ ← deref (data c !! i);
       mret (ColumnSegment_Skip state)
     else mret state);
  _ ← (if debug then
         (* the assertion reads through the pointer only where it is compiled in *)
         i ← deref (ColumnScanState.current state);
         seg ← deref (data c !! i);
         D_ASSERT debug (bool_decide (ColumnSegment.type seg = type c))
       else mret ());
  let initial_remaining := remaining in
  '(state, result, remaining) ←
    ScanVector_loop (S (length (data c))) debug (data c) has_updates initial_remaining
      state result remaining;
  let state := ColumnScanState.set_internal_index state (ColumnScanState.row_index state) in
  mret (state, result, idx_sub initial_remaining remaining).

(** ** Reading the overlay *)

Definition FetchUpdates (c : ColumnData) (transaction : TransactionData)
    (vector_index : idx_t) (result : Vector) (scan_count : idx_t)
    (allow_updates scan_committed : bool) : outcome Vector :=
  match updates c with
  | None => mret result
  | Some u =>
    if negb allow_updates && HasUncommittedUpdates u vector_index
    then Throw TransactionException
    else
      let result := Flatten result scan_count in
      mret (if scan_committed
            then FetchCommitted u vector_index result
            else UpdateSegment_FetchUpdates u transaction vector_index result)
  end.

(** [NumericCast<idx_t>]: the checked cast, an internal error on a negative
    row. *)
Definition NumericCast_idx (r : row_t) : outcome idx_t :=
  if (r <? 0)%Z then Throw InternalException else mret (Z.to_N r).

Definition FetchUpdateRow (c : ColumnData) (transaction : TransactionData)
    (row_id : row_t) (result : Vector) (result_idx : idx_t) : outcome Vector :=
  match updates c with
  | None => mret result
  | Some u =>
    row ← NumericCast_idx row_id;
    mret (UpdateSegment_FetchRow u transaction row result (N.to_nat result_idx))
  end.

(** The template [ScanVector<SCAN_COMMITTED, ALLOW_UPDATES>]. *)
Definition ScanVector_updates (SCAN_COMMITTED ALLOW_UPDATES debug : bool)
    (c : ColumnData) (transaction : TransactionData) (vector_index : idx_t)
    (state : ColumnScanState) (result : Vector)
    : outcome (ColumnScanState * Vector * idx_t) :=
  let current_row := idx_mul vector_index STANDARD_VECTOR_SIZE in
  let vector_count := N.min STANDARD_VECTOR_SIZE (idx_sub (count c) current_row) in
  '(state, result, scan_count) ←
    ScanVector debug c state result vector_count (HasUpdates c);
  result ← FetchUpdates c transaction vector_index result scan_count
             ALLOW_UPDATES SCAN_COMMITTED;
  mret (state, result, scan_count).

Definition Scan (debug : bool) (c : ColumnData) (transaction : TransactionData)
    (vector_index : idx_t) (state : ColumnScanState) (result : Vector) :=
  ScanVector_updates false true debug c transaction vector_index state result.

Definition ScanCommitted (debug : bool) (c : ColumnData) (vector_index : idx_t)
    (state : ColumnScanState) (result : Vector) (allow_updates : bool) :=
  if allow_updates
  then ScanVector_updates true true debug c (mkTransaction 0 0) vector_index state result
  else ScanVector_updates true false debug c (mkTransaction 0 0) vector_index state result.

(** ** Fetch by row id *)

Definition Fetch (debug : bool) (c : ColumnData) (state : ColumnScanState)
    (row_id : row_t) (result : Vector)
    : outcome (ColumnScanState * Vector * idx_t) :=
  _ ← D_ASSERT debug (bool_decide (0 ≤ row_id)%Z);
  _ ← D_ASSERT debug (bool_decide (start c ≤ idx_of_row row_id));
  let state := ColumnScanState.set_row_index state
    (idx_add (start c)
       (idx_mul (idx_sub (idx_of_row row_id) (start c) / STANDARD_VECTOR_SIZE)
          STANDARD_VECTOR_SIZE)) in
  i ← GetSegment (data c) (ColumnScanState.row_index state);
  seg ← deref (data c !! i);
  let state := ColumnScanState.set_current state (Some i) in
  let state := ColumnScanState.set_internal_index state (ColumnSegment.start seg) in
  ScanVector debug c state result STANDARD_VECTOR_SIZE false.

(** ** Statistics of a root column *)

Inductive FilterPropagateResult :=
  | NO_PRUNING_POSSIBLE
  | FILTER_ALWAYS_TRUE
  | FILTER_ALWAYS_FALSE
  | FILTER_TRUE_OR_NULL
  | FILTER_FALSE_OR_NULL.

(** A [TableFilter] by what its [CheckStatistics] answers. *)
Definition TableFilter := BaseStatistics → FilterPropagateResult.

Definition CheckZonemap (c : ColumnData) (filter : TableFilter) : outcome bool :=
  match stats c with
  | None => Throw InternalException
  | Some statistics =>
    match filter statistics with
    | FILTER_ALWAYS_FALSE | FILTER_FALSE_OR_NULL => mret false
    | _ => mret true
    end
  end.

Definition GetStatistics (c : ColumnData) : outcome BaseStatistics :=
  match stats c with
  | None => Throw InternalException
  | Some statistics => mret statistics
  end.

Definition MergeStatistics (c : ColumnData) (other : BaseStatistics) : outcome ColumnData :=
  match stats c with
  | None => Throw InternalException
  | Some statistics => mret (set_stats c (Some (Merge statistics other)))
  end.

(** [MergeIntoStatistics] widens the caller's [other]. *)
Definition MergeIntoStatistics (c : ColumnData) (other : BaseStatistics) : outcome BaseStatistics :=
  match stats c with
  | None => Throw InternalException
  | Some statistics => mret (Merge other statistics)
  end.

(** ** Deserialization *)

Record DataPointer := mkPointer {
  dp_block_id : N;
  dp_offset : idx_t;
  row_start : idx_t;
  tuple_count : idx_t;
  dp_compression_type : CompressionFunction;
  statistics : BaseStatistics;
  dp_segment_state : option N
}.

(** Constants declared in other sources: the storage block size, the
    row-id sentinel of in-memory tables and the byte width of a type. *)
Class StorageConstants := {
  BLOCK_SIZE : idx_t;
  MAX_ROW_ID : idx_t;
  GetTypeIdSize : LogicalType → idx_t
}.

Record ColumnCheckpointState := mkCheckpoint {
  global_stats : BaseStatistics;
  new_tree : SegmentTree
}.

(** The checkpointer, an external collaborator: it rebuilds a moved-out
    segment list into the new tree and the merged statistics. *)
Class Checkpointer := {
  ColumnDataCheckpointer_Checkpoint :
    ColumnData → list ColumnSegment → ColumnCheckpointState → outcome ColumnCheckpointState
}.

Section Storage.
Context {constants : StorageConstants} {checkpointer : Checkpointer}.

Definition UNCOMPRESSED : CompressionFunction := mkFunction 1 true true.

(** Modelled from the spec: a transient segment is an empty, appendable
    buffer of [segment_size] bytes; a persistent one is the rows a block
    holds at the recorded place, already sealed. *)
Definition CreateTransientSegment (t : LogicalType) (start_row segment_size : idx_t)
    : ColumnSegment :=
  ColumnSegment.mk start_row 0 TRANSIENT t segment_size UNCOMPRESSED
    (CreateEmpty t) [] 0 0 None.

Definition CreatePersistentSegment (bm : BlockManager) (t : LogicalType)
    (p : DataPointer) : ColumnSegment :=
  ColumnSegment.mk (row_start p) (tuple_count p) PERSISTENT t BLOCK_SIZE
    (dp_compression_type p) (statistics p)
    (bm (dp_block_id p) (dp_offset p) (tuple_count p))
    (dp_block_id p) (dp_offset p) (dp_segment_state p).

(** Modelled from the spec: a segment's append copies as many of the
    [append_count] rows as its buffer still has room for, at
    [GetTypeIdSize] bytes a row, extends its own statistics by them and
    reports the number copied (section 6). *)
Definition ColumnSegment_Append (seg : ColumnSegment) (vdata : Vector)
    (offset append_count : idx_t) : ColumnSegment * idx_t :=
  let max_tuple_count := ColumnSegment.segment_size seg / GetTypeIdSize (ColumnSegment.type seg) in
  let copy_count := N.min append_count (max_tuple_count - ColumnSegment.count seg) in
  let vals := slice vdata (N.to_nat offset) (N.to_nat copy_count) in
  (ColumnSegment.set_content seg (idx_add (ColumnSegment.count seg) copy_count)
     (stats_update (ColumnSegment.stats seg) vals)
     (ColumnSegment.rows seg ++ vals),
   copy_count).

Definition ColumnSegment_InitializeAppend (i : nat) (state : ColumnAppendState)
    : ColumnAppendState :=
  ColumnAppendState.mk (ColumnAppendState.current state) (Some i).

(** Modelled from the spec: a segment's revert discards its rows at and
    after [start_row] in place (section 4.3). *)
Definition ColumnSegment_RevertAppend (seg : ColumnSegment) (start_row : idx_t) : ColumnSegment :=
  let keep := idx_sub start_row (ColumnSegment.start seg) in
  ColumnSegment.set_content seg keep (ColumnSegment.stats seg)
    (take (N.to_nat keep) (ColumnSegment.rows seg)).

(** ** Append *)

Definition AppendTransientSegment (c : ColumnData) (start_row : idx_t) : ColumnData :=
  let vector_segment_size :=
    if start_row =? MAX_ROW_ID
    then idx_mul STANDARD_VECTOR_SIZE (GetTypeIdSize (type c))
    else BLOCK_SIZE in
  let segment_size :=
    if BLOCK_SIZE <? vector_segment_size then BLOCK_SIZE else vector_segment_size in
  let c := set_allocation_size c (idx_add (allocation_size c) segment_size) in
  let new_segment := CreateTransientSegment (type c) start_row segment_size in
  set_data c (AppendSegment (data c) new_segment).

Definition InitializeAppend (debug : bool) (c : ColumnData) (state : ColumnAppendState)
    : outcome (ColumnData * ColumnAppendState) :=
  let c := match data c with
           | [] => AppendTransientSegment c (start c)
           | _ => c
           end in
  i ← deref (GetLastSegment (data c));
  segment ← deref (data c !! i);
  let '(c, current) :=
    if bool_decide (ColumnSegment.segment_type segment = PERSISTENT)
       || negb (init_append (ColumnSegment.function segment))
    then
      let total_rows := idx_add (ColumnSegment.start segment) (ColumnSegment.count segment) in
      let c := AppendTransientSegment c total_rows in
      (c, GetLastSegment (data c))
    else (c, Some i) in
  let state := ColumnAppendState.mk current (ColumnAppendState.append_state state) in
  j ← deref current;
  cur ← deref (data c !! j);
  _ ← D_ASSERT debug (bool_decide (ColumnSegment.segment_type cur = TRANSIENT));
  let state := ColumnSegment_InitializeAppend j state in
  _ ← D_ASSERT debug (append (ColumnSegment.function cur));
  mret (c, state).

(** The body of [AppendData]'s [while (true)]: it has no bound of its own,
    hence the fuel. *)
Fixpoint AppendData_loop (fuel : nat) (c : ColumnData) (append_stats : BaseStatistics)
    (state : ColumnAppendState) (vdata : Vector) (offset append_count : idx_t)
    : outcome (ColumnData * BaseStatistics * ColumnAppendState) :=
  match fuel with
  | O => OutOfFuel
  | S fuel =>
    i ← deref (ColumnAppendState.current state);
    seg ← deref (data c !! i);
    let '(seg, copied_elements) := ColumnSegment_Append seg vdata offset append_count in
    let c := set_data c (<[i := seg]> (data c)) in
    let append_stats := Merge append_stats (ColumnSegment.stats seg) in
    if copied_elements =? append_count then mret (c, append_stats, state)
    else
      let c := AppendTransientSegment c
                 (idx_add (ColumnSegment.start seg) (ColumnSegment.count seg)) in
      let state := ColumnAppendState.mk (GetLastSegment (data c))
                     (ColumnAppendState.append_state state) in
      j ← deref (ColumnAppendState.current state);
      let state := ColumnSegment_InitializeAppend j state in
      AppendData_loop fuel c append_stats state vdata
        (idx_add offset copied_elements) (idx_sub append_count copied_elements)
  end.

Definition AppendData (fuel : nat) (c : ColumnData) (append_stats : BaseStatistics)
    (state : ColumnAppendState) (vdata : Vector) (append_count : idx_t)
    : outcome (ColumnData * BaseStatistics * ColumnAppendState) :=
  let offset := 0 in
  let c := set_count c (idx_add (count c) append_count) in
  AppendData_loop fuel c append_stats state vdata offset append_count.

(** [Append] with the caller's statistics: the vector in unified format is
    its content. *)
Definition Append_stats (fuel : nat) (c : ColumnData) (append_stats : BaseStatistics)
    (state : ColumnAppendState) (vector : Vector) (append_count : idx_t) :=
  AppendData fuel c append_stats state vector append_count.

(** [Append] on the column's own statistics. *)
Definition Append (fuel : nat) (c : ColumnData) (state : ColumnAppendState)
    (vector : Vector) (append_count : idx_t)
    : outcome (ColumnData * ColumnAppendState) :=
  match parent c, stats c with
  | None, Some statistics =>
    '(c, statistics, state) ← Append_stats fuel c statistics state vector append_count;
    mret (set_stats c (Some statistics), state)
  | _, _ => Throw InternalException
  end.

(** ** Revert *)

Definition RevertAppend (debug : bool) (c : ColumnData) (start_row : row_t)
    : outcome ColumnData :=
  l ← deref (GetLastSegment (data c));
  last_segment ← deref (data c !! l);
  let boundary := idx_add (ColumnSegment.start last_segment) (ColumnSegment.count last_segment) in
  if boundary <=? idx_of_row start_row then
    _ ← D_ASSERT debug (idx_of_row start_row =? boundary);
    mret c
  else
    segment_index ← GetSegmentIndex (data c) (idx_of_row start_row);
    segment ← deref (data c !! segment_index);
    _ ← D_ASSERT debug (bool_decide (ColumnSegment.segment_type segment = TRANSIENT));
    let c := set_data c (EraseSegments (data c) segment_index) in
    let c := set_count c (idx_sub (idx_of_row start_row) (start c)) in
    mret (set_data c
            (<[segment_index := ColumnSegment_RevertAppend segment (idx_of_row start_row)]>
               (data c))).

(** ** Checkpoint *)

Definition Checkpoint (c : ColumnData) : outcome (ColumnData * ColumnCheckpointState) :=
  let checkpoint_state := mkCheckpoint (CreateEmpty (type c)) [] in
  let '(tree, nodes) := MoveSegments (data c) in
  let c := set_data c tree in
  match nodes with
  | [] => mret (c, checkpoint_state)
  | _ =>
    checkpoint_state ← ColumnDataCheckpointer_Checkpoint c nodes checkpoint_state;
    let c := set_data c (Replace (data c) (new_tree checkpoint_state)) in
    let c := ClearUpdates c in
    mret (c, checkpoint_state)
  end.

(** ** Reading the persisted layout *)

Definition DeserializeColumn_step (acc : ColumnData * BaseStatistics) (data_pointer : DataPointer)
    : ColumnData * BaseStatistics :=
  let '(c, target_stats) := acc in
  let c := set_count c (idx_add (count c) (tuple_count data_pointer)) in
  let target_stats := Merge target_stats (statistics data_pointer) in
  let segment := CreatePersistentSegment (block_manager c) (type c) data_pointer in
  (set_data c (AppendSegment (data c) segment), target_stats).

Definition DeserializeColumn (c : ColumnData) (data_pointers : list DataPointer)
    (target_stats : BaseStatistics) : ColumnData * BaseStatistics :=
  let c := set_count c 0 in
  foldl DeserializeColumn_step (c, target_stats) data_pointers.

(** ** The life of a column *)

(** The columns a constructed column can become under the operations
    above. *)
Inductive lifecycle (c0 : ColumnData) : ColumnData → Prop :=
  | life_constructed : lifecycle c0 c0
  | life_SetStart c new_start :
      lifecycle c0 c → lifecycle c0 (SetStart c new_start)
  | life_ClearUpdates c :
      lifecycle c0 c → lifecycle c0 (ClearUpdates c)
  | life_MergeStatistics c other c' :
      lifecycle c0 c → MergeStatistics c other = Ok c' → lifecycle c0 c'
  | life_InitializeAppend c debug state c' state' :
      lifecycle c0 c → InitializeAppend debug c state = Ok (c', state') → lifecycle c0 c'
  | life_Append_stats c fuel append_stats state vector n c' stats' state' :
      lifecycle c0 c →
      Append_stats fuel c append_stats state vector n = Ok (c', stats', state') →
      lifecycle c0 c'
  | life_Append c fuel state vector n c' state' :
      lifecycle c0 c → Append fuel c state vector n = Ok (c', state') → lifecycle c0 c'
  | life_RevertAppend c debug start_row c' :
      lifecycle c0 c → RevertAppend debug c start_row = Ok c' → lifecycle c0 c'
  | life_Checkpoint c c' checkpoint_state :
      lifecycle c0 c → Checkpoint c = Ok (c', checkpoint_state) → lifecycle c0 c'
  | life_DeserializeColumn c data_pointers target_stats :
      lifecycle c0 c →
      lifecycle c0 (DeserializeColumn c data_pointers target_stats).1.

End Storage.

(** ** Vocabulary of the properties *)

(** What the statistics operations look at: the parent handle and whether
    a statistics object is there. *)
Definition same_shape (c c' : ColumnData) : Prop :=
  parent c' = parent c ∧ (stats c' = None ↔ stats c = None).

Definition sum_tuple_counts (ps : list DataPointer) : N :=
  foldr (fun p acc => tuple_count p + acc) 0 ps.

(** Every segment holds as many rows as its count says. *)
Definition rows_ok (t : SegmentTree) : Prop :=
  Forall (fun s => length (ColumnSegment.rows s) = N.to_nat (ColumnSegment.count s)) t.

(** The cursor stands in segment [i] of a tree that is contiguous from
    there on. *)
Definition cursor_at (t : SegmentTree) (i : nat) (seg : ColumnSegment)
    (state : ColumnScanState) : Prop :=
  ColumnScanState.current state = Some i
  ∧ t !! i = Some seg
  ∧ contiguous (ColumnSegment.start seg) (drop i t)
  ∧ rows_ok (drop i t)
  ∧ ColumnSegment.start seg + sum_counts (drop i t) < IDX_MODULUS
  ∧ ColumnSegment.start seg ≤ ColumnScanState.row_index state
      ≤ ColumnSegment.start seg + ColumnSegment.count seg.

(** The rows left from the cursor to the end of the chain. *)
Definition rows_ahead (t : SegmentTree) (i : nat) (seg : ColumnSegment)
    (state : ColumnScanState) : list Value :=
  drop (N.to_nat (ColumnScanState.row_index state - ColumnSegment.start seg))
    (all_rows (drop i t)).

(** The tree invariant of section 3 together with what the debug checks
    expect: segments contiguous from the column start, counts adding up to
    the column count, every segment of the column's type and holding as many
    rows as it counts. *)
Definition column_ok (c : ColumnData) : Prop :=
  contiguous (start c) (data c)
  ∧ rows_ok (data c)
  ∧ sum_counts (data c) = count c
  ∧ start c + count c < IDX_MODULUS
  ∧ Forall (fun s => ColumnSegment.type s = type c) (data c).

(** The fields of a segment are [idx_t] values. *)
Definition segment_fits (seg : ColumnSegment) : Prop :=
  ColumnSegment.count seg < IDX_MODULUS ∧ ColumnSegment.segment_size seg < IDX_MODULUS.

(** An encoding that can start an append can also append (what the last
    assertion of [InitializeAppend] expects of the tail). *)
Definition appendable_ok (s : ColumnSegment) : Prop :=
  init_append (ColumnSegment.function s) = true → append (ColumnSegment.function s) = true.

Section Sizes.
Context {constants : StorageConstants}.

(** The rows a segment can still take. *)
Definition room (seg : ColumnSegment) : N :=
  ColumnSegment.segment_size seg / GetTypeIdSize (ColumnSegment.type seg)
  - ColumnSegment.count seg.

(** What [AppendTransientSegment] allocates for a start row. *)
Definition transient_size (ty : LogicalType) (start_row : idx_t) : idx_t :=
  let vector_segment_size :=
    if start_row =? MAX_ROW_ID then idx_mul STANDARD_VECTOR_SIZE (GetTypeIdSize ty)
    else BLOCK_SIZE in
  if BLOCK_SIZE <? vector_segment_size then BLOCK_SIZE else vector_segment_size.

(** The byte width of the column's type is sane: positive, within a block,
    and a vector of it within [idx_t]. *)
Definition type_size_ok (ty : LogicalType) : Prop :=
  0 < GetTypeIdSize ty ∧ GetTypeIdSize ty ≤ BLOCK_SIZE ∧ BLOCK_SIZE < IDX_MODULUS
  ∧ STANDARD_VECTOR_SIZE * GetTypeIdSize ty < IDX_MODULUS.

End Sizes.

(** * The rest of [ColumnData] *)

(** Modelled from the spec: [operator[]] of the [vector] the column code is
    written against is not among the sources and the specification does not
    give it.  That vector is DuckDB's own, which checks the index in every
    build and throws an internal exception when it is out of range. *)
Definition vector_at {A} (v : list A) (i : nat) : outcome A :=
  match v !! i with
  | Some x => Ok x
  | None => Throw InternalException
  end.

(** ** Further scans *)

(** Modelled from the spec: the overlay's [Update] and
    [FetchCommittedRange] are not among the sources; section 6 lists them
    in the overlay's contract, so they are taken as given: per-row version
    chaining with its conflict handling, and the committed read of a range
    of rows. *)
Class UpdateCollaborator := {
  UpdateSegment_Update :
    UpdateSegment → TransactionData → idx_t → Vector → list row_t → idx_t → Vector →
    outcome UpdateSegment;
  UpdateSegment_FetchCommittedRange : UpdateSegment → idx_t → idx_t → Vector → Vector
}.

Section Scanning.
Context {collaborator : UpdateCollaborator}.

Definition ScanCommittedRange (debug : bool) (c : ColumnData)
    (row_group_start offset_in_row_group s_count : idx_t) (result : Vector)
    : outcome Vector :=
  let child_state := ColumnScanState.fresh in
  child_state ← InitializeScanWithOffset c child_state
                  (idx_add row_group_start offset_in_row_group);
  let has_updates := HasUpdates c in
  '(child_state, result, scan_count) ←
    ScanVector debug c child_state result s_count has_updates;
  if has_updates then
    let result := Flatten result scan_count in
    u ← deref (updates c);
    mret (UpdateSegment_FetchCommittedRange u offset_in_row_group s_count result)
  else mret result.

(** [CheckpointScan]: the rows of one segment from the cursor's row on,
    then the committed updates of the range.  The assertion on the vector
    being flat looks at the layout of the vector, which a vector given by
    its content does not have. *)
Definition CheckpointScan (c : ColumnData) (segment : ColumnSegment)
    (state : ColumnScanState) (row_group_start count : idx_t) (scan_vector : Vector)
    : Vector :=
  let scan_vector :=
    if ColumnScanState.force_fetch_row state
    then fetch_rows segment (ColumnScanState.row_index state) count scan_vector 0
    else ColumnSegment_Scan segment state count scan_vector 0 (negb (HasUpdates c)) in
  match updates c with
  | Some u =>
    UpdateSegment_FetchCommittedRange u
      (idx_sub (ColumnScanState.row_index state) row_group_start) count scan_vector
  | None => scan_vector
  end.

End Scanning.

Definition ScanCount (debug : bool) (c : ColumnData) (state : ColumnScanState)
    (result : Vector) (scan_count : idx_t)
    : outcome (ColumnScanState * Vector * idx_t) :=
  if scan_count =? 0 then mret (state, result, 0)
  else
    (* ScanCount can only be used if there are no updates *)
    _ ← D_ASSERT debug (negb (HasUpdates c));
    ScanVector debug c state result scan_count false.

(** ** Fetching one row *)

Definition FetchRow (c : ColumnData) (transaction : TransactionData) (row_id : row_t)
    (result : Vector) (result_idx : idx_t) : outcome Vector :=
  i ← GetSegment (data c) (idx_of_row row_id);
  segment ← deref (data c !! i);
  (* now perform the fetch within the segment *)
  let result := ColumnSegment_FetchRow segment (idx_of_row row_id) result result_idx in
  (* merge any updates made to this row *)
  FetchUpdateRow c transaction row_id result result_idx.

(** ** Update *)

Section Updating.
Context {collaborator : UpdateCollaborator}.

(** [make_uniq<UpdateSegment>] on the column: an overlay without
    entries. *)
Definition UpdateSegment_new (c : ColumnData) : UpdateSegment := mkUpdates (start c) ∅.

Definition UpdateInternal (c : ColumnData) (transaction : TransactionData)
    (column_index : idx_t) (update_vector : Vector) (row_ids : list row_t)
    (update_count : idx_t) (base_vector : Vector) : outcome ColumnData :=
  let u := match updates c with
           | Some u => u
           | None => UpdateSegment_new c
           end in
  u ← UpdateSegment_Update u transaction column_index update_vector row_ids update_count
        base_vector;
  mret (set_updates c (Some u)).

Definition Update (debug : bool) (c : ColumnData) (transaction : TransactionData)
    (column_index : idx_t) (update_vector : Vector) (row_ids : list row_t)
    (update_count : idx_t) : outcome ColumnData :=
  let base_vector : Vector := [] in
  let state := ColumnScanState.fresh in
  row ← deref (row_ids !! 0%nat);
  '(state, base_vector, fetch_count) ← Fetch debug c state row base_vector;
  let base_vector := Flatten base_vector fetch_count in
  UpdateInternal c transaction column_index update_vector row_ids update_count base_vector.

Definition UpdateColumn (debug : bool) (c : ColumnData) (transaction : TransactionData)
    (column_path : list idx_t) (update_vector : Vector) (row_ids : list row_t)
    (update_count depth : idx_t) : outcome ColumnData :=
  (* this method should only be called at the end of the path in the base column case *)
  _ ← D_ASSERT debug (bool_decide (N.of_nat (length column_path) ≤ depth));
  column_index ← vector_at column_path 0;
  Update debug c transaction column_index update_vector row_ids update_count.

End Updating.

(** ** Debug verification *)

Definition is_struct_or_array (t : LogicalType) : bool :=
  match t with STRUCT | ARRAY => true | _ => false end.

(** The loop of [Verify] over the segments, carrying [current_start] and
    [total_count]; a segment's index is its position, which the loop
    counts too. *)
Fixpoint Verify_loop (debug : bool) (t : SegmentTree) (current_start total_count : idx_t)
    : outcome idx_t :=
  match t with
  | [] => mret total_count
  | segment :: t' =>
    _ ← D_ASSERT debug (ColumnSegment.start segment =? current_start);
    Verify_loop debug t' (idx_add current_start (ColumnSegment.count segment))
      (idx_add total_count (ColumnSegment.count segment))
  end.

(** [Verify]: the whole body is compiled in debug builds only.  The tree's
    own [Verify] is not among the sources and is left out; what it checks
    by section 7, the contiguity of the segments, the loop checks again. *)
Definition Verify (debug : bool) (c : ColumnData) (parent_start : idx_t) : outcome unit :=
  if negb debug then mret () else
  _ ← D_ASSERT debug (start c =? parent_start);
  if is_struct_or_array (type c) then
    (* structs and fixed size lists don't have segments *)
    D_ASSERT debug (negb (bool_decide (is_Some (GetRootSegment (data c)))))
  else
    total_count ← Verify_loop debug (data c) (start c) 0;
    D_ASSERT debug (count c =? total_count).

(** ** Vocabulary of the further properties *)

(** The cursor of [ScanVector] with the row-at-a-time flag set as asked. *)
Definition with_force_fetch_row (s : ColumnScanState) (v : bool) : ColumnScanState :=
  ColumnScanState.mk (ColumnScanState.current s) (ColumnScanState.row_index s)
    (ColumnScanState.internal_index s) (ColumnScanState.initialized s)
    (ColumnScanState.scan_state s) (ColumnScanState.previous_states s)
    (ColumnScanState.segment_checked s) (ColumnScanState.last_offset s) v.

(** The cursor stands at a row of the column, inside segment [i]. *)
Definition cursor_in_column (c : ColumnData) (state : ColumnScanState) : Prop :=
  ∃ i seg,
    ColumnScanState.current state = Some i ∧ data c !! i = Some seg
    ∧ ColumnSegment.start seg ≤ ColumnScanState.row_index state
        ≤ ColumnSegment.start seg + ColumnSegment.count seg
    ∧ (ColumnScanState.initialized state = true →
       ColumnScanState.internal_index state ≤ ColumnScanState.row_index state).

(** The cursor is where [Scan] of vector block [vector_index] expects it. *)
Definition scan_ready (c : ColumnData) (vector_index : idx_t) (state : ColumnScanState)
    : Prop :=
  cursor_in_column c state
  ∧ ColumnScanState.row_index state = start c + vector_index * STANDARD_VECTOR_SIZE.

(** The rows of the column from a row on. *)
Definition rows_from (c : ColumnData) (row : idx_t) : list Value :=
  drop (N.to_nat (row - start c)) (all_rows (data c)).

(** What a reader at [transaction] sees for a row whose stored value is
    [stored]: the latest update of the row visible to it, the stored value
    when there is none. *)
Definition visible_value (c : ColumnData) (transaction : TransactionData) (row : idx_t)
    (stored : Value) : Value :=
  match updates c with
  | None => stored
  | Some u =>
    let rel := idx_sub row (upd_column_start u) in
    default stored
      (latest (visible_to transaction)
         (default [] (block_of u (rel / STANDARD_VECTOR_SIZE)
                        !! (rel mod STANDARD_VECTOR_SIZE))))
  end.

(** A segment as the appends leave it: as many rows as it counts, of the
    column's type, its fields within [idx_t], and able to append when it
    can start one. *)
Definition segment_ok (ty : LogicalType) (s : ColumnSegment) : Prop :=
  length (ColumnSegment.rows s) = N.to_nat (ColumnSegment.count s)
  ∧ ColumnSegment.type s = ty
  ∧ segment_fits s
  ∧ appendable_ok s.

Section Appending.
Context {constants : StorageConstants}.

(** A well-formed column that can be appended to. *)
Definition appendable_column (c : ColumnData) : Prop :=
  contiguous (start c) (data c)
  ∧ sum_counts (data c) = count c
  ∧ start c + count c < IDX_MODULUS
  ∧ Forall (segment_ok (type c)) (data c)
  ∧ type_size_ok (type c).

End Appending.

(** The tail segment can take an append as it is: transient, with an
    encoding that can start one. *)
Definition tail_writable (t : SegmentTree) : bool :=
  match last t with
  | Some seg => bool_decide (ColumnSegment.segment_type seg = TRANSIENT)
                && init_append (ColumnSegment.function seg)
  | None => false
  end.

(** The data pointers tile the rows from [first] on. *)
Fixpoint pointers_contiguous (first : N) (ps : list DataPointer) : Prop :=
  match ps with
  | [] => True
  | p :: ps' => row_start p = first ∧ pointers_contiguous (first + tuple_count p) ps'
  end.

(** What [Verify] looks for. *)
Definition verified (c : ColumnData) (parent_start : idx_t) : Prop :=
  start c = parent_start
  ∧ if is_struct_or_array (type c) then data c = []
    else contiguous (start c) (data c) ∧ sum_counts (data c) = count c.

(** ** Segment information *)

(** One row of the storage information of a column.  The block place is
    set for a persistent segment only and has no value otherwise; the
    segment information stays empty when the segment has no state. *)
Record ColumnSegmentInfo := mkSegmentInfo {
  info_row_group_index : idx_t;
  info_column_id : idx_t;
  info_column_path : string;
  info_segment_idx : idx_t;
  info_segment_type : string;
  info_segment_start : idx_t;
  info_segment_count : idx_t;
  info_compression_type : string;
  info_segment_stats : string;
  info_has_updates : bool;
  info_persistent : bool;
  info_block_id : option N;
  info_block_offset : option idx_t;
  info_segment_info : string
}.

(** Modelled from the spec: the printers of the type, of the compression
    type, of the statistics and of a segment's state are not among the
    sources and appear in no contract of the specification; they are taken
    as given. *)
Class Printers := {
  LogicalType_ToString : LogicalType → string;
  CompressionTypeToString : N → string;
  BaseStatistics_ToString : BaseStatistics → string;
  GetSegmentInfo : N → string
}.

(** The loop that converts the column path to a string, [i] counting the
    entries done. *)
Fixpoint col_path_loop (col_path : list idx_t) (i : nat) (col_path_str : string) : string :=
  match col_path with
  | [] => col_path_str
  | x :: rest =>
    let col_path_str :=
      if (0 <? i)%nat then col_path_str +:+ ", " else col_path_str in
    col_path_loop rest (S i) (col_path_str +:+ pretty x)
  end.

Section SegmentInfo.
Context {printers : Printers}.

(** The entry the loop builds for one segment. *)
Definition column_info_of (c : ColumnData) (row_group_index column_id : idx_t)
    (col_path_str : string) (segment_idx : idx_t) (segment : ColumnSegment)
    : ColumnSegmentInfo :=
  let persistent := bool_decide (ColumnSegment.segment_type segment = PERSISTENT) in
  mkSegmentInfo row_group_index column_id col_path_str segment_idx
    (LogicalType_ToString (type c))
    (ColumnSegment.start segment) (ColumnSegment.count segment)
    (CompressionTypeToString (compression_type (ColumnSegment.function segment)))
    (BaseStatistics_ToString (ColumnSegment.stats segment))
    (HasUpdates c)
    persistent
    (if persistent then Some (ColumnSegment.block_id segment) else None)
    (if persistent then Some (ColumnSegment.offset segment) else None)
    (match ColumnSegment.segment_state segment with
     | Some segment_state => GetSegmentInfo segment_state
     | None => EmptyString
     end).

(** The body of the loop over the segments, from the root segment along
    [GetNextSegment]; the fuel handed over by [GetColumnSegmentInfo] is one
    more than the number of segments. *)
Fixpoint GetColumnSegmentInfo_loop (fuel : nat) (c : ColumnData) (row_group_index : idx_t)
    (col_path : list idx_t) (col_path_str : string) (segment : option nat)
    (segment_idx : idx_t) (result : list ColumnSegmentInfo)
    : outcome (list ColumnSegmentInfo) :=
  match fuel with
  | O => OutOfFuel
  | S fuel =>
    match segment with
    | None => mret result
    | Some i =>
      seg ← deref (data c !! i);
      column_id ← vector_at col_path 0;
      let column_info :=
        column_info_of c row_group_index column_id col_path_str segment_idx seg in
      GetColumnSegmentInfo_loop fuel c row_group_index col_path col_path_str
        (GetNextSegment (data c) i) (idx_add segment_idx 1) (result ++ [column_info])
    end
  end.

Definition GetColumnSegmentInfo (debug : bool) (c : ColumnData) (row_group_index : idx_t)
    (col_path : list idx_t) (result : list ColumnSegmentInfo)
    : outcome (list ColumnSegmentInfo) :=
  _ ← D_ASSERT debug (negb (bool_decide (col_path = [])));
  let col_path_str := col_path_loop col_path 0 "[" +:+ "]" in
  GetColumnSegmentInfo_loop (S (length (data c))) c row_group_index col_path col_path_str
    (GetRootSegment (data c)) 0 result.

End SegmentInfo.

(** The column path as the loop prints it: the entries in decimal,
    separated by a comma and a space. *)
Fixpoint join_rest (col_path : list idx_t) : string :=
  match col_path with
  | [] => EmptyString
  | x :: rest => ", " +:+ pretty x +:+ join_rest rest
  end.

Definition join_path (col_path : list idx_t) : string :=
  match col_path with
  | [] => EmptyString
  | x :: rest => pretty x +:+ join_rest rest
  end.

(** * The scan operator of the planner: [LogicalGet]

    The first part of src/planner/operator/logical_get.cpp. *)

Abbreviation column_t := idx_t.

Record ColumnBinding := mkBinding {
  binding_table_index : idx_t;
  binding_column_index : idx_t
}.

(** Modelled from the spec: [COLUMN_IDENTIFIER_ROW_ID] and
    [LogicalType::ROW_TYPE] are declared in other sources and the
    specification does not give them; they are taken as given. *)
Class PlannerConstants := {
  COLUMN_IDENTIFIER_ROW_ID : column_t;
  ROW_TYPE : LogicalType
}.

(** The fields of the operator that the bindings and the types are computed
    from; [types] is the operator's list of resolved types. *)
Module LogicalGet.
Record t := mk {
  table_index : idx_t;
  returned_types : list LogicalType;
  names : list string;
  column_ids : list column_t;
  types : list LogicalType
}.

Definition set_column_ids (g : t) (v : list column_t) : t :=
  mk (table_index g) (returned_types g) (names g) v (types g).
Definition set_types (g : t) (v : list LogicalType) : t :=
  mk (table_index g) (returned_types g) (names g) (column_ids g) v.
End LogicalGet.

Abbreviation LogicalGet := LogicalGet.t.

Definition GetColumnBindings (g : LogicalGet) : list ColumnBinding :=
  if bool_decide (LogicalGet.column_ids g = []) then
    [mkBinding (LogicalGet.table_index g) 0]
  else
    (fun i => mkBinding (LogicalGet.table_index g) (N.of_nat i))
      <$> seq 0 (length (LogicalGet.column_ids g)).

Section Planner.
Context {planner : PlannerConstants}.

(** The loop of [ResolveTypes] over the column ids; [returned_types[index]]
    past the end of the vector is left undefined by the language, as the
    read through a null pointer is. *)
Fixpoint ResolveTypes_loop (returned_types : list LogicalType) (column_ids : list column_t)
    (types : list LogicalType) : outcome (list LogicalType) :=
  match column_ids with
  | [] => mret types
  | index :: column_ids =>
    if index =? COLUMN_IDENTIFIER_ROW_ID then
      ResolveTypes_loop returned_types column_ids (types ++ [ROW_TYPE])
    else
      type ← deref (returned_types !! N.to_nat index);
      ResolveTypes_loop returned_types column_ids (types ++ [type])
  end.

Definition ResolveTypes (g : LogicalGet) : outcome LogicalGet :=
  let g :=
    if bool_decide (LogicalGet.column_ids g = [])
    then LogicalGet.set_column_ids g [COLUMN_IDENTIFIER_ROW_ID]
    else g in
  types ← ResolveTypes_loop (LogicalGet.returned_types g) (LogicalGet.column_ids g)
            (LogicalGet.types g);
  mret (LogicalGet.set_types g types).

(** The type [ResolveTypes] gives a column id. *)
Definition resolved_type (g : LogicalGet) (index : column_t) : option LogicalType :=
  if index =? COLUMN_IDENTIFIER_ROW_ID then Some ROW_TYPE
  else LogicalGet.returned_types g !! N.to_nat index.

End Planner.

(** * List vector buffers

    The [VectorListBuffer] of src/common/types/vector_buffer.cpp: a child
    vector with the number of entries in use and the number it has room
    for. *)

(** Modelled from the spec: [Vector::Resize], [Vector::SetValue] and the two
    forms of [VectorOperations::Copy] are declared in other sources and the
    specification does not give them; they are taken as given, on a child
    vector of any representation. *)
Class VectorOperations (ChildVector : Type) := {
  Vector_Resize : ChildVector → idx_t → idx_t → ChildVector;
  Vector_SetValue : ChildVector → idx_t → Value → ChildVector;
  VectorOperations_Copy : Vector → ChildVector → idx_t → idx_t → idx_t → ChildVector;
  VectorOperations_Copy_sel :
    Vector → ChildVector → list idx_t → idx_t → idx_t → idx_t → ChildVector
}.

Module VectorListBuffer.
Section Buffer.
Context {ChildVector : Type}.

Record t := mk {
  capacity : idx_t;
  size : idx_t;
  child : ChildVector
}.

End Buffer.
Arguments t : clear implicits.
End VectorListBuffer.

Abbreviation VectorListBuffer := VectorListBuffer.t.

Section ListBuffer.
Context {ChildVector : Type} {operations : VectorOperations ChildVector}.

Definition Reserve (debug : bool) (b : VectorListBuffer ChildVector) (to_reserve : idx_t)
    : outcome (VectorListBuffer ChildVector) :=
  if VectorListBuffer.capacity b <? to_reserve then
    let new_capacity :=
      idx_mul (idx_sub (idx_add to_reserve STANDARD_VECTOR_SIZE) 1 / STANDARD_VECTOR_SIZE)
        STANDARD_VECTOR_SIZE in
    _ ← D_ASSERT debug (to_reserve <=? new_capacity);
    _ ← D_ASSERT debug (new_capacity mod STANDARD_VECTOR_SIZE =? 0);
    mret (VectorListBuffer.mk new_capacity (VectorListBuffer.size b)
            (Vector_Resize (VectorListBuffer.child b) (VectorListBuffer.capacity b)
               new_capacity))
  else mret b.

Definition VectorListBuffer_Append (debug : bool) (b : VectorListBuffer ChildVector)
    (to_append : Vector) (to_append_size source_offset : idx_t)
    : outcome (VectorListBuffer ChildVector) :=
  b ← Reserve debug b
        (idx_sub (idx_add (VectorListBuffer.size b) to_append_size) source_offset);
  let child :=
    VectorOperations_Copy to_append (VectorListBuffer.child b) to_append_size source_offset
      (VectorListBuffer.size b) in
  mret (VectorListBuffer.mk (VectorListBuffer.capacity b)
          (idx_add (VectorListBuffer.size b) (idx_sub to_append_size source_offset))
          child).

Definition VectorListBuffer_Append_sel (debug : bool) (b : VectorListBuffer ChildVector)
    (to_append : Vector) (sel : list idx_t) (to_append_size source_offset : idx_t)
    : outcome (VectorListBuffer ChildVector) :=
  b ← Reserve debug b
        (idx_sub (idx_add (VectorListBuffer.size b) to_append_size) source_offset);
  let child :=
    VectorOperations_Copy_sel to_append (VectorListBuffer.child b) sel to_append_size
      source_offset (VectorListBuffer.size b) in
  mret (VectorListBuffer.mk (VectorListBuffer.capacity b)
          (idx_add (VectorListBuffer.size b) (idx_sub to_append_size source_offset))
          child).

Definition PushBack (b : VectorListBuffer ChildVector) (insert : Value)
    : VectorListBuffer ChildVector :=
  let b :=
    if VectorListBuffer.capacity b <? idx_add (VectorListBuffer.size b) 1 then
      VectorListBuffer.mk (idx_mul (VectorListBuffer.capacity b) 2)
        (VectorListBuffer.size b)
        (Vector_Resize (VectorListBuffer.child b) (VectorListBuffer.capacity b)
           (idx_mul (VectorListBuffer.capacity b) 2))
    else b in
  VectorListBuffer.mk (VectorListBuffer.capacity b)
    (idx_add (VectorListBuffer.size b) 1)
    (Vector_SetValue (VectorListBuffer.child b) (VectorListBuffer.size b) insert).

(** The entries in use fit the room of the buffer. *)
Definition buffer_ok (b : VectorListBuffer ChildVector) : Prop :=
  VectorListBuffer.size b ≤ VectorListBuffer.capacity b
  ∧ VectorListBuffer.capacity b < IDX_MODULUS.

End ListBuffer.

(** ** Worked examples *)

(** Small constants: blocks of 16 bytes and values of 4, so that a
    transient segment takes 4 rows. *)
Definition example_constants : StorageConstants :=
  {| BLOCK_SIZE := 16; MAX_ROW_ID := 36028797018960000; GetTypeIdSize := fun _ => 4 |}.

Definition example_block_manager : BlockManager :=
  fun block_id offset n => replicate (N.to_nat n) (Int (Z.of_N block_id)).

(** The rows [first], [first + 1], ... *)
Definition int_rows (first : Z) (n : nat) : list Value :=
  (fun i => Int (first + Z.of_nat i)) <$> seq 0 n.

Definition example_segment (kind : ColumnSegmentType) (start_row : idx_t)
    (first : Z) (n : nat) : ColumnSegment :=
  ColumnSegment.mk start_row (N.of_nat n) kind INTEGER 16 (mkFunction 1 true true)
    (stats_update (CreateEmpty INTEGER) (int_rows first n)) (int_rows first n) 0 0 None.

Definition example_column (t : SegmentTree) (u : option UpdateSegment) : ColumnData :=
  mkColumn 0 (sum_counts t) example_block_manager 0 INTEGER None t u
    (Some (foldl Merge (CreateEmpty INTEGER) (ColumnSegment.stats <$> t))) 0.

(** One transient segment of three rows. *)
Definition three_rows : ColumnData :=
  example_column [example_segment TRANSIENT 0 10 3] None.

(** Two segments, of three and of two rows. *)
Definition five_rows : ColumnData :=
  example_column [example_segment TRANSIENT 0 10 3; example_segment TRANSIENT 3 13 2] None.

(** Two vector blocks; the second one straddles the two segments. *)
Definition two_blocks : ColumnData :=
  example_column
    [example_segment PERSISTENT 0 0 1500; example_segment TRANSIENT 1500 1500 548] None.

(** Row 1 overridden, by an entry still uncommitted and by a committed
    one. *)
Definition pending_updates : UpdateSegment :=
  mkUpdates 0 {[ 0 := {[ 1 := [mkUpdate 7 None (Int 11) (Int 99)] ]} ]}.

Definition committed_updates : UpdateSegment :=
  mkUpdates 0 {[ 0 := {[ 1 := [mkUpdate 7 (Some 3) (Int 11) (Int 99)] ]} ]}.

Definition three_rows_pending : ColumnData :=
  example_column [example_segment TRANSIENT 0 10 3] (Some pending_updates).

Definition three_rows_committed : ColumnData :=
  example_column [example_segment TRANSIENT 0 10 3] (Some committed_updates).

(** A checkpointer that writes all the rows into one persistent segment. *)
Definition example_checkpointer : Checkpointer :=
  {| ColumnDataCheckpointer_Checkpoint c nodes checkpoint_state :=
       Ok (mkCheckpoint
             (foldl Merge (global_stats checkpoint_state) (ColumnSegment.stats <$> nodes))
             [ColumnSegment.mk (start c) (sum_counts nodes) PERSISTENT (type c) 16
                (mkFunction 1 true true)
                (foldl Merge (CreateEmpty (type c)) (ColumnSegment.stats <$> nodes))
                (all_rows nodes) 0 0 None]) |}.

Definition example_pointers : list DataPointer :=
  [mkPointer 5 0 0 3 (mkFunction 1 true true) (mkStats false (Some (1, 9)%Z)) None;
   mkPointer 6 0 3 2 (mkFunction 2 false false) (mkStats true (Some (4, 12)%Z)) None].

Definition example_transaction : TransactionData := mkTransaction 9 9.

(** A cursor at row 1 of [five_rows], and one at the second block of
    [two_blocks]. *)
Definition cursor_row_1 : ColumnScanState :=
  ColumnScanState.mk (Some 0%nat) 1 0 false None [] false 0 false.

Definition cursor_block_1 : ColumnScanState :=
  ColumnScanState.mk (Some 0%nat) 1024 0 false None [] false 0 false.

Definition empty_column : ColumnData :=
  ColumnData_new example_block_manager 0 0 INTEGER None.

Definition child_column : ColumnData :=
  ColumnData_new example_block_manager 1 0 INTEGER (Some 0).

Definition no_append_state : ColumnAppendState := ColumnAppendState.mk None None.

(** ** Further worked examples *)

(** Three rows in a persistent segment: a column as it is after loading. *)
Definition three_rows_sealed : ColumnData :=
  example_column [example_segment PERSISTENT 0 10 3] None.

(** An overlay that records one uncommitted entry per updated row, and
    reads a range by laying the latest committed entry of each row over
    it. *)
Definition example_add_update (transaction : TransactionData) (u : UpdateSegment)
    (update : row_t * Value) : UpdateSegment :=
  let rel := idx_sub (idx_of_row update.1) (upd_column_start u) in
  let block := block_of u (rel / STANDARD_VECTOR_SIZE) in
  let chain := default [] (block !! (rel mod STANDARD_VECTOR_SIZE)) in
  mkUpdates (upd_column_start u)
    (<[rel / STANDARD_VECTOR_SIZE :=
         <[rel mod STANDARD_VECTOR_SIZE :=
             mkUpdate (transaction_id transaction) None Null update.2 :: chain]> block]>
       (upd_blocks u)).

Definition example_collaborator : UpdateCollaborator :=
  {| UpdateSegment_Update u transaction column_index update_vector row_ids update_count
       base_vector :=
       Ok (foldl (example_add_update transaction) u
             (zip (take (N.to_nat update_count) row_ids) update_vector));
     UpdateSegment_FetchCommittedRange u offset count result :=
       imap (fun i v =>
               if N.of_nat i <? count then
                 let row := offset + N.of_nat i in
                 default v (block_of u (row / STANDARD_VECTOR_SIZE)
                              !! (row mod STANDARD_VECTOR_SIZE) ≫= latest is_committed)
               else v)
         result |}.

Definition example_printers : Printers :=
  {| LogicalType_ToString := fun _ => "INTEGER";
     CompressionTypeToString := pretty;
     BaseStatistics_ToString := fun s => if has_null s then "[has null]" else "[no null]";
     GetSegmentInfo := pretty |}.

Definition example_planner : PlannerConstants :=
  {| COLUMN_IDENTIFIER_ROW_ID := 18446744073709551615; ROW_TYPE := BIGINT |}.

(** A table of two columns scanned for its second column and the row id. *)
Definition example_get : LogicalGet :=
  LogicalGet.mk 7 [INTEGER; VARCHAR] ["a"; "b"] [1; 18446744073709551615] [].

(** Child vectors by their content. *)
Definition example_operations : VectorOperations (list Value) :=
  {| Vector_Resize v old_size new_size :=
       take (N.to_nat new_size) (v ++ replicate (N.to_nat (new_size - N.of_nat (length v))) Null);
     Vector_SetValue v i x := <[N.to_nat i := x]> v;
     VectorOperations_Copy source target source_count source_offset target_offset :=
       vector_write target (N.to_nat target_offset)
         (take (N.to_nat (source_count - source_offset))
            (drop (N.to_nat source_offset) source));
     VectorOperations_Copy_sel source target sel source_count source_offset target_offset :=
       vector_write target (N.to_nat target_offset)
         ((fun i => default Null (source !! N.to_nat i))
            <$> take (N.to_nat (source_count - source_offset))
                  (drop (N.to_nat source_offset) sel)) |}.

Definition full_buffer : VectorListBuffer (list Value) :=
  VectorListBuffer.mk 1024 1024 (replicate 1024 Null).

Definition fresh_buffer : VectorListBuffer (list Value) :=
  VectorListBuffer.mk 1024 0 (replicate 1024 Null).

(** * Properties *)

(** ** Arithmetic of [idx_t] *)

Lemma wrap_small x : x < IDX_MODULUS → wrap x = x.
Proof. intros. unfold wrap. apply N.mod_small. done. Qed.

Lemma wrap_lt x : wrap x < IDX_MODULUS.
Proof. unfold wrap. apply N.mod_lt. done. Qed.

Lemma idx_add_small a b : a + b < IDX_MODULUS → idx_add a b = a + b.
Proof. apply wrap_small. Qed.

Lemma idx_sub_small a b : b ≤ a → a < IDX_MODULUS → idx_sub a b = a - b.
Proof.
  intros Hb Ha. unfold idx_sub, wrap, IDX_MODULUS in *. lia.
Qed.

Lemma sum_counts_app t1 t2 : sum_counts (t1 ++ t2) = sum_counts t1 + sum_counts t2.
Proof. induction t1 as [|s t1 IH]; simpl; [done|]. rewrite IH. lia. Qed.

Lemma sum_counts_take_le i t : sum_counts (take i t) ≤ sum_counts t.
Proof.
  rewrite <- (take_drop i t) at 2. rewrite sum_counts_app. lia.
Qed.

(** ** [SetStart] *)

Lemma SetStart_loop_counts st off t :
  ColumnSegment.count <$> SetStart_loop st off t = ColumnSegment.count <$> t.
Proof.
  revert off. induction t as [|s t IH]; intros off; simpl; [done|].
  by rewrite IH.
Qed.

Lemma SetStart_loop_start st off t i s :
  SetStart_loop st off t !! i = Some s →
  ColumnSegment.start s = wrap (st + off + sum_counts (take i t)).
Proof.
  revert off i. induction t as [|x t IH]; intros off i; simpl; [done|].
  destruct i as [|i]; simpl.
  - intros [= <-]. simpl. unfold idx_add. f_equal. lia.
  - intros H. apply IH in H. rewrite H.
    unfold idx_add, wrap, IDX_MODULUS. lia.
Qed.

Lemma SetStart_loop_contiguous st off t :
  st + off + sum_counts t < IDX_MODULUS →
  contiguous (st + off) (SetStart_loop st off t).
Proof.
  revert off. induction t as [|x t IH]; intros off Hlt; simpl in *; [done|].
  split.
  - apply idx_add_small. lia.
  - rewrite (idx_add_small off) by lia.
    replace (st + off + ColumnSegment.count x)
      with (st + (off + ColumnSegment.count x)) by lia.
    apply IH. lia.
Qed.

(** C9. After [SetStart] the column starts at [new_start], every segment
    keeps its count, and the segments are contiguous from [new_start]: the
    i-th segment starts at [new_start] plus the counts of the segments
    before it (the sums staying within [idx_t]). *)
Theorem SetStart_rebases (c : ColumnData) (new_start : idx_t) :
  new_start + sum_counts (data c) < IDX_MODULUS →
  start (SetStart c new_start) = new_start
  ∧ ColumnSegment.count <$> data (SetStart c new_start) = ColumnSegment.count <$> data c
  ∧ (∀ i s, data (SetStart c new_start) !! i = Some s →
       ColumnSegment.start s = new_start + sum_counts (take i (data c)))
  ∧ contiguous new_start (data (SetStart c new_start)).
Proof.
  intros Hlt. unfold SetStart, Reinitialize. simpl.
  split; [done|]. split; [apply SetStart_loop_counts|]. split.
  - intros i s H. apply SetStart_loop_start in H. rewrite H.
    pose proof (sum_counts_take_le i (data c)).
    rewrite N.add_0_r. apply wrap_small. lia.
  - replace new_start with (new_start + 0) at 1 by lia.
    apply SetStart_loop_contiguous. lia.
Qed.

(** ** Outcomes *)

Lemma bind_Ok {A B} (m : outcome A) (f : A → outcome B) (b : B) :
  m ≫= f = Ok b ↔ ∃ a, m = Ok a ∧ f a = Ok b.
Proof.
  destruct m as [a| | |]; simpl; split; try done.
  - intros H. by exists a.
  - by intros (a' & [= ->] & H).
  - by intros (a' & [=] & _).
  - by intros (a' & [=] & _).
  - by intros (a' & [=] & _).
Qed.

Lemma bind_Throw {A B} (m : outcome A) (f : A → outcome B) (e : Exception) :
  m ≫= f = Throw e ↔ m = Throw e ∨ ∃ a, m = Ok a ∧ f a = Throw e.
Proof.
  destruct m as [a| | |]; simpl; split.
  - intros H. right. by exists a.
  - by intros [[=]|(a' & [= ->] & H)].
  - intros [= ->]. by left.
  - by intros [[= ->]|(a' & [=] & _)].
  - done.
  - by intros [[=]|(a' & [=] & _)].
  - done.
  - by intros [[=]|(a' & [=] & _)].
Qed.

Lemma deref_Ok {A} (p : option A) (a : A) : deref p = Ok a ↔ p = Some a.
Proof. destruct p; simpl; split; by intros [= ->]. Qed.

Lemma deref_no_Throw {A} (p : option A) (e : Exception) : deref p ≠ Throw e.
Proof. by destruct p. Qed.

Lemma D_ASSERT_release cond : D_ASSERT false cond = Ok ().
Proof. done. Qed.

Lemma D_ASSERT_holds debug : D_ASSERT debug true = Ok ().
Proof. unfold D_ASSERT. by rewrite andb_false_r. Qed.

(** Peeling the binds of a successful run, one call at a time. *)
Lemma Ok_bind {A B} (a : A) (f : A → outcome B) : Ok a ≫= f = f a.
Proof. done. Qed.

Lemma mret_Ok {A} (a b : A) : mret a = Ok b → a = b.
Proof. by intros [= ->]. Qed.

Ltac peel H :=
  repeat match type of H with
  | (_ ≫= _) = Ok _ => apply bind_Ok in H as (? & ? & H)
  | mret _ = Ok _ => apply mret_Ok in H
  | (if ?b then _ else _) = _ => destruct b eqn:?
  | match ?x with _ => _ end = _ => destruct x eqn:?
  end.

Section Properties.
Context {constants : StorageConstants} {checkpointer : Checkpointer}.

(** ** Parent and statistics along the life of a column *)

#[local] Instance same_shape_refl : Reflexive same_shape.
Proof. by intros c. Qed.

#[local] Instance same_shape_trans : Transitive same_shape.
Proof. intros a b c [H1 H2] [H3 H4]. split; [congruence|]. by rewrite H4. Qed.

Lemma AppendTransientSegment_shape c start_row :
  same_shape c (AppendTransientSegment c start_row).
Proof. done. Qed.

Lemma AppendData_loop_shape fuel c append_stats state vdata offset n c' stats' state' :
  AppendData_loop fuel c append_stats state vdata offset n = Ok (c', stats', state') →
  same_shape c c'.
Proof.
  revert c append_stats state offset n.
  induction fuel as [|fuel IH]; intros c append_stats state offset n H; [done|].
  cbn [AppendData_loop] in H. peel H; simplify_eq.
  - done.
  - apply IH in H. etrans; [|exact H]. done.
Qed.

Lemma AppendData_loop_no_Throw fuel c append_stats state vdata offset n e :
  AppendData_loop fuel c append_stats state vdata offset n ≠ Throw e.
Proof.
  revert c append_stats state offset n.
  induction fuel as [|fuel IH]; intros c append_stats state offset n H; [done|].
  cbn [AppendData_loop] in H.
  apply bind_Throw in H as [H|(i & _ & H)]; [by apply deref_no_Throw in H|].
  apply bind_Throw in H as [H|(seg & _ & H)]; [by apply deref_no_Throw in H|].
  destruct (ColumnSegment_Append seg vdata offset n) as [seg' copied].
  destruct (copied =? n); [done|].
  apply bind_Throw in H as [H|(j & _ & H)]; [by apply deref_no_Throw in H|].
  by apply IH in H.
Qed.

Lemma Append_shape fuel c state vector n c' state' :
  Append fuel c state vector n = Ok (c', state') → same_shape c c'.
Proof.
  unfold Append, Append_stats, AppendData. intros H.
  destruct (parent c) eqn:Hp; [done|]. destruct (stats c) eqn:Hs; [|done].
  apply bind_Ok in H as ([[c1 s1] st1] & Hloop & H).
  apply mret_Ok in H. simplify_eq.
  apply AppendData_loop_shape in Hloop. destruct Hloop as [Hp1 Hs1]. simpl in *.
  split; simpl; [congruence|]. rewrite Hs. done.
Qed.

Lemma InitializeAppend_shape debug c state c' state' :
  InitializeAppend debug c state = Ok (c', state') → same_shape c c'.
Proof.
  unfold InitializeAppend. intros H.
  set (c1 := match data c with [] => _ | _ => _ end) in H.
  assert (same_shape c c1) as Hc1 by (subst c1; by destruct (data c)).
  clearbody c1. peel H; repeat case_match; simplify_eq;
    (etrans; [exact Hc1|done]).
Qed.

Lemma RevertAppend_shape debug c start_row c' :
  RevertAppend debug c start_row = Ok c' → same_shape c c'.
Proof.
  unfold RevertAppend. intros H. peel H; simplify_eq; done.
Qed.

Lemma Checkpoint_shape c c' checkpoint_state :
  Checkpoint c = Ok (c', checkpoint_state) → same_shape c c'.
Proof.
  unfold Checkpoint. intros H. simpl in H. peel H; simplify_eq; done.
Qed.

Lemma DeserializeColumn_shape c data_pointers target_stats :
  same_shape c (DeserializeColumn c data_pointers target_stats).1.
Proof.
  unfold DeserializeColumn.
  assert (same_shape c (set_count c 0)) as Hc by done.
  revert Hc. generalize (set_count c 0). revert target_stats.
  induction data_pointers as [|p ps IH]; intros ts c1 Hc; simpl; [done|].
  apply IH. etrans; [exact Hc|]. done.
Qed.

Lemma lifecycle_shape c0 c : lifecycle c0 c → same_shape c0 c.
Proof.
  induction 1 as [ | c n _ IH | c _ IH | c o c' _ IH Hop | c d s c' s' _ IH Hop
                 | c f a s v n c' a' s' _ IH Hop | c f s v n c' s' _ IH Hop
                 | c d r c' _ IH Hop | c c' cs _ IH Hop | c ps ts _ IH ].
  - done.
  - etrans; [exact IH|]. done.
  - etrans; [exact IH|]. done.
  - etrans; [exact IH|]. unfold MergeStatistics in Hop.
    destruct (stats c) eqn:Hs; [|done]. apply mret_Ok in Hop. simplify_eq.
    split; simpl; [done|]. rewrite Hs. done.
  - etrans; [exact IH|]. by eapply InitializeAppend_shape.
  - etrans; [exact IH|]. unfold Append_stats, AppendData in Hop.
    apply AppendData_loop_shape in Hop. etrans; [|exact Hop]. done.
  - etrans; [exact IH|]. by eapply Append_shape.
  - etrans; [exact IH|]. by eapply RevertAppend_shape.
  - etrans; [exact IH|]. by eapply Checkpoint_shape.
  - etrans; [exact IH|]. apply DeserializeColumn_shape.
Qed.

(** C8. A column constructed with a parent never has a statistics object,
    and on it [Append] (on the column's own statistics), [CheckZonemap],
    [GetStatistics], [MergeStatistics] and [MergeIntoStatistics] all throw
    the internal exception; on a column constructed without a parent none
    of them throws it. *)
Theorem statistics_operations_need_a_root
    (bm : BlockManager) (column_index start_row : idx_t) (type_p : LogicalType)
    (parent_p : option N) (c : ColumnData) :
  lifecycle (ColumnData_new bm column_index start_row type_p parent_p) c →
  match parent_p with
  | Some _ =>
      (∀ fuel state vector n, Append fuel c state vector n = Throw InternalException)
      ∧ (∀ filter, CheckZonemap c filter = Throw InternalException)
      ∧ GetStatistics c = Throw InternalException
      ∧ (∀ other, MergeStatistics c other = Throw InternalException)
      ∧ (∀ other, MergeIntoStatistics c other = Throw InternalException)
  | None =>
      (∀ fuel state vector n, Append fuel c state vector n ≠ Throw InternalException)
      ∧ (∀ filter, CheckZonemap c filter ≠ Throw InternalException)
      ∧ GetStatistics c ≠ Throw InternalException
      ∧ (∀ other, MergeStatistics c other ≠ Throw InternalException)
      ∧ (∀ other, MergeIntoStatistics c other ≠ Throw InternalException)
  end.
Proof.
  intros Hlife. apply lifecycle_shape in Hlife as [Hp Hs]. simpl in *.
  destruct parent_p as [p|].
  - assert (stats c = None) as Hnone by (by apply Hs).
    unfold Append, CheckZonemap, GetStatistics, MergeStatistics, MergeIntoStatistics.
    rewrite Hp, Hnone. done.
  - destruct (stats c) as [s|] eqn:Hsome; [|by destruct Hs as [Hs _]; specialize (Hs eq_refl)].
    unfold Append, Append_stats, AppendData, CheckZonemap, GetStatistics,
      MergeStatistics, MergeIntoStatistics.
    rewrite Hp, Hsome. repeat split; try done.
    + intros fuel state vector n H.
      apply bind_Throw in H as [H|([[c1 s1] st1] & _ & H)]; [|done].
      by apply AppendData_loop_no_Throw in H.
    + intros filter. by destruct (filter s).
Qed.

(** ** [Checkpoint] *)

Lemma set_data_same c : set_data c (data c) = c.
Proof. by destruct c. Qed.

(** C3. On a column whose segment list is empty [Checkpoint] changes
    nothing and returns the empty checkpoint state; on any other column,
    when the checkpointer succeeds, the rebuilt list becomes the tree and
    the update overlay is gone, everything else being kept. *)
Theorem Checkpoint_replaces_tree_and_clears_updates (c : ColumnData) :
  (data c = [] →
     Checkpoint c = Ok (c, mkCheckpoint (CreateEmpty (type c)) []))
  ∧ (data c ≠ [] →
     ∀ checkpoint_state,
       ColumnDataCheckpointer_Checkpoint (set_data c []) (data c)
         (mkCheckpoint (CreateEmpty (type c)) []) = Ok checkpoint_state →
       ∃ c', Checkpoint c = Ok (c', checkpoint_state)
             ∧ data c' = new_tree checkpoint_state
             ∧ updates c' = None
             ∧ HasUpdates c' = false
             ∧ c' = set_updates (set_data c (new_tree checkpoint_state)) None).
Proof.
  split.
  - intros Hempty. unfold Checkpoint, MoveSegments. rewrite Hempty.
    rewrite <- Hempty, set_data_same. done.
  - intros Hne checkpoint_state Hcp. unfold Checkpoint, MoveSegments.
    destruct (data c) as [|s t] eqn:Hdata; [done|].
    rewrite Hcp. eexists. split; [done|]. by destruct c.
Qed.

(** ** [DeserializeColumn] *)

Lemma DeserializeColumn_fold c ts ps :
  foldl DeserializeColumn_step (c, ts) ps =
  (set_data
     (set_count c (foldl (fun n p => idx_add n (tuple_count p)) (count c) ps))
     (data c ++ (CreatePersistentSegment (block_manager c) (type c) <$> ps)),
   foldl Merge ts (statistics <$> ps)).
Proof.
  revert c ts. induction ps as [|p ps IH]; intros c ts.
  - simpl. rewrite app_nil_r. by destruct c.
  - cbn [foldl]. unfold DeserializeColumn_step at 2. rewrite IH.
    destruct c. simpl. unfold AppendSegment. by rewrite <- app_assoc.
Qed.

Lemma idx_add_fold_sum n ps :
  foldl (fun n p => idx_add n (tuple_count p)) (wrap n) ps
  = wrap (n + sum_tuple_counts ps).
Proof.
  revert n. induction ps as [|p ps IH]; intros n; simpl.
  - by rewrite N.add_0_r.
  - replace (idx_add (wrap n) (tuple_count p)) with (wrap (n + tuple_count p)).
    + rewrite IH. f_equal. lia.
    + unfold idx_add, wrap, IDX_MODULUS. lia.
Qed.

(** C7. [DeserializeColumn] appends to the tree one persistent segment per
    data pointer, in the order of the pointers, each with the pointer's
    row start, tuple count, statistics and block place; the count, reset to
    zero first, ends as the sum of the tuple counts (the sum staying within
    [idx_t]); the target statistics end as the pointers' statistics merged
    into them from first to last. *)
Theorem DeserializeColumn_one_segment_per_pointer
    (c : ColumnData) (data_pointers : list DataPointer) (target_stats : BaseStatistics) :
  sum_tuple_counts data_pointers < IDX_MODULUS →
  let c' := (DeserializeColumn c data_pointers target_stats).1 in
  let target_stats' := (DeserializeColumn c data_pointers target_stats).2 in
  data c' = data c ++ (CreatePersistentSegment (block_manager c) (type c) <$> data_pointers)
  ∧ Forall2 (fun seg p =>
       ColumnSegment.segment_type seg = PERSISTENT
       ∧ ColumnSegment.start seg = row_start p
       ∧ ColumnSegment.count seg = tuple_count p
       ∧ ColumnSegment.stats seg = statistics p
       ∧ ColumnSegment.block_id seg = dp_block_id p
       ∧ ColumnSegment.offset seg = dp_offset p)
      (drop (length (data c)) (data c')) data_pointers
  ∧ count c' = sum_tuple_counts data_pointers
  ∧ target_stats' = foldl Merge target_stats (statistics <$> data_pointers).
Proof.
  intros Hsum. unfold DeserializeColumn. rewrite DeserializeColumn_fold. simpl.
  split; [done|]. split; [|split; [|done]].
  - rewrite drop_app_length. apply Forall2_fmap_l, Forall_Forall2_diag, Forall_forall.
    done.
  - change 0 with (wrap 0) at 1. rewrite idx_add_fold_sum. by apply wrap_small.
Qed.

(** ** The overlay on the read path *)

Lemma HasUncommittedUpdates_true u vector_index :
  HasUncommittedUpdates u vector_index = true ↔
  ∃ off chain e, block_of u vector_index !! off = Some chain
                 ∧ e ∈ chain ∧ upd_commit e = None.
Proof.
  unfold HasUncommittedUpdates. rewrite bool_decide_eq_true. split.
  - intros (off & chain & Hoff & Hex). apply Exists_exists in Hex as (e & He & Hc).
    exists off, chain, e. repeat split; [done..|].
    unfold is_committed in Hc. by destruct (upd_commit e).
  - intros (off & chain & e & Hoff & He & Hc). exists off, chain. split; [done|].
    apply Exists_exists. exists e. split; [done|]. unfold is_committed. by rewrite Hc.
Qed.

Lemma overlay_lookup p block result i :
  overlay p block result !! i
  = (fun v => default v (block !! N.of_nat i ≫= latest p)) <$> result !! i.
Proof. unfold overlay. apply list_lookup_imap. Qed.

Lemma overlay_length p block result : length (overlay p block result) = length result.
Proof. unfold overlay. apply length_imap. Qed.

Lemma FetchUpdateRow_no_conflict c tx row_id result result_idx :
  FetchUpdateRow c tx row_id result result_idx ≠ Throw TransactionException.
Proof.
  unfold FetchUpdateRow, NumericCast_idx. destruct (updates c); [|done].
  by destruct (row_id <? 0)%Z.
Qed.

(** C5 (amended). [FetchUpdates] throws the transaction exception exactly
    when the column has an overlay, the caller passed [allow_updates =
    false] and the vector block holds an uncommitted update.
    [FetchUpdateRow] has no such flag and never throws it.  A committed-only
    scan with [allow_updates = false], once the rows are decoded, throws it
    when the block holds an uncommitted update and otherwise returns the
    decoded rows with, at every row offset that has a committed entry, the
    new value of the latest one. *)
Theorem transaction_conflict_only_from_FetchUpdates
    (c : ColumnData) (transaction : TransactionData) (vector_index : idx_t)
    (result : Vector) (scan_count : idx_t) (allow_updates scan_committed : bool) :
  (FetchUpdates c transaction vector_index result scan_count allow_updates scan_committed
     = Throw TransactionException
   ↔ ∃ u, updates c = Some u ∧ allow_updates = false
          ∧ HasUncommittedUpdates u vector_index = true)
  ∧ (∀ row_id result_idx,
       FetchUpdateRow c transaction row_id result result_idx ≠ Throw TransactionException)
  ∧ (∀ debug state state' decoded u,
       ScanVector debug c state result
         (N.min STANDARD_VECTOR_SIZE
            (idx_sub (count c) (idx_mul vector_index STANDARD_VECTOR_SIZE)))
         (HasUpdates c) = Ok (state', decoded, scan_count) →
       updates c = Some u →
       if HasUncommittedUpdates u vector_index
       then ScanCommitted debug c vector_index state result false
            = Throw TransactionException
       else ScanCommitted debug c vector_index state result false
            = Ok (state', FetchCommitted u vector_index decoded, scan_count)
            ∧ ∀ i old, decoded !! i = Some old →
                FetchCommitted u vector_index decoded !! i
                = Some (default old
                          (block_of u vector_index !! N.of_nat i ≫= latest is_committed))).
Proof.
  split; [|split].
  - unfold FetchUpdates. destruct (updates c) as [u|]; [|split; [done|by intros (? & ? & _)]].
    destruct allow_updates; simpl.
    + split; [done|]. by intros (? & _ & ? & _).
    + destruct (HasUncommittedUpdates u vector_index) eqn:Hun.
      * split; [|done]. intros _. by exists u.
      * split; [done|]. intros (u' & [= <-] & _ & Hu). congruence.
  - intros. apply FetchUpdateRow_no_conflict.
  - intros debug state state' decoded u Hscan Hu.
    unfold ScanCommitted, ScanVector_updates. rewrite Hscan. simpl.
    unfold FetchUpdates. rewrite Hu. simpl.
    destruct (HasUncommittedUpdates u vector_index); [done|]. split; [done|].
    intros i old Hi. unfold FetchCommitted. by rewrite overlay_lookup, Hi.
Qed.

(** ** Locating a row in a contiguous tree *)

Lemma in_segment_true row s :
  in_segment row s = true
  ↔ ColumnSegment.start s ≤ row < ColumnSegment.start s + ColumnSegment.count s.
Proof. unfold in_segment. by rewrite bool_decide_eq_true. Qed.

Lemma find_segment_None_below first t row k :
  contiguous first t → row < first → find_segment t row k = None.
Proof.
  revert first k. induction t as [|s t IH]; intros first k Hc Hlt; simpl; [done|].
  destruct Hc as [Hs Hc].
  destruct (in_segment row s) eqn:Hin.
  - apply in_segment_true in Hin. lia.
  - eapply IH; [exact Hc|lia].
Qed.

Lemma find_segment_contiguous first t row k :
  contiguous first t → first ≤ row < first + sum_counts t →
  ∃ i seg, find_segment t row k = Some (k + i)%nat ∧ t !! i = Some seg
           ∧ ColumnSegment.start seg ≤ row < ColumnSegment.start seg + ColumnSegment.count seg.
Proof.
  revert first k. induction t as [|s t IH]; intros first k Hc Hrow; simpl in *; [lia|].
  destruct Hc as [Hs Hc].
  destruct (in_segment row s) eqn:Hin.
  - apply in_segment_true in Hin. exists 0%nat, s. by rewrite Nat.add_0_r.
  - assert (¬ (ColumnSegment.start s ≤ row
               < ColumnSegment.start s + ColumnSegment.count s)) as Hout.
    { rewrite <- in_segment_true. by rewrite Hin. }
    destruct (IH (first + ColumnSegment.count s) (S k) Hc) as (i & seg & Hf & Hi & Hr);
      [lia|].
    exists (S i), seg. rewrite Hf. split; [f_equal; lia|done].
Qed.

Lemma contiguous_last first t i last :
  contiguous first t → t !! i = Some last → length t = S i →
  ColumnSegment.start last + ColumnSegment.count last = first + sum_counts t.
Proof.
  revert first i. induction t as [|s t IH]; intros first i Hc Hi Hlen; [done|].
  destruct Hc as [Hs Hc]. destruct i as [|i]; simpl in *.
  - destruct t; [|done]. simplify_eq. simpl. lia.
  - rewrite (IH _ _ Hc Hi) by lia. lia.
Qed.

Lemma contiguous_lookup first t i seg :
  contiguous first t → t !! i = Some seg →
  ColumnSegment.start seg = first + sum_counts (take i t).
Proof.
  revert first i. induction t as [|s t IH]; intros first i Hc Hi; [done|].
  destruct Hc as [Hs Hc]. destruct i as [|i]; simpl in *.
  - simplify_eq. lia.
  - rewrite (IH _ _ Hc Hi). lia.
Qed.

Lemma GetLastSegment_lookup (t : SegmentTree) :
  t ≠ [] → ∃ last, GetLastSegment t = Some (length t - 1)%nat
                   ∧ t !! (length t - 1)%nat = Some last.
Proof.
  intros Hne. destruct t as [|s t]; [done|].
  destruct (lookup_lt_is_Some_2 (s :: t) (length (s :: t) - 1)) as [last Hl];
    [simpl; lia|].
  by exists last.
Qed.

Lemma insert_take_S {A} (l : list A) i x y :
  l !! i = Some y → <[i := x]> (take (S i) l) = take i l ++ [x].
Proof.
  intros Hi. rewrite (take_S_r l i y) by done.
  pose proof (lookup_lt_Some _ _ _ Hi) as Hlt.
  replace i with (length (take i l) + 0)%nat at 1 by (rewrite length_take; lia).
  by rewrite insert_app_r.
Qed.

(** ** [RevertAppend] *)

(** [RevertAppend] by the position of the row, on a non-empty tree
    contiguous from the column start: it leaves the column as it is when
    the row is at the tail boundary; beyond the boundary the only check is
    the assertion, so that a build with assertions fails there and one
    without them returns; before the first segment it throws the internal
    exception; inside the tree it finds the owning segment, keeps the
    segments up to it, sets the count to the row minus the column start and
    cuts the owning segment back to the rows before the row (a build with
    assertions insisting that this segment is transient). *)
Theorem RevertAppend_by_position (debug : bool) (c : ColumnData) (start_row : row_t) :
  data c ≠ [] →
  contiguous (start c) (data c) →
  start c + sum_counts (data c) < IDX_MODULUS →
  let r := idx_of_row start_row in
  let boundary := start c + sum_counts (data c) in
  (r = boundary → RevertAppend debug c start_row = Ok c)
  ∧ (boundary < r →
       RevertAppend debug c start_row = if debug then Throw InternalException else Ok c)
  ∧ (r < start c → RevertAppend debug c start_row = Throw InternalException)
  ∧ (start c ≤ r < boundary →
       ∃ i seg,
         data c !! i = Some seg
         ∧ ColumnSegment.start seg ≤ r < ColumnSegment.start seg + ColumnSegment.count seg
         ∧ RevertAppend debug c start_row =
             if debug && negb (bool_decide (ColumnSegment.segment_type seg = TRANSIENT))
             then Throw InternalException
             else Ok (set_data (set_count c (r - start c))
                        (take i (data c) ++
                         [ColumnSegment.set_content seg (r - ColumnSegment.start seg)
                            (ColumnSegment.stats seg)
                            (take (N.to_nat (r - ColumnSegment.start seg))
                               (ColumnSegment.rows seg))]))).
Proof.
  intros Hne Hc Hend r boundary.
  destruct (GetLastSegment_lookup _ Hne) as (last & Hlast & Hl).
  assert (ColumnSegment.start last + ColumnSegment.count last = boundary) as Hb.
  { eapply contiguous_last; [done..|]. destruct (data c); [done|simpl; lia]. }
  assert (idx_add (ColumnSegment.start last) (ColumnSegment.count last) = boundary) as Hb'.
  { rewrite idx_add_small; [done|]. rewrite Hb. done. }
  unfold RevertAppend. rewrite Hlast. simpl. rewrite Hl. simpl. rewrite Hb'.
  fold r. repeat split.
  - intros ->. rewrite N.leb_refl, N.eqb_refl. by rewrite D_ASSERT_holds.
  - intros Hlt. destruct (N.leb_spec boundary r); [|lia].
    destruct (N.eqb_spec r boundary); [lia|]. by destruct debug.
  - intros Hlt. destruct (N.leb_spec boundary r); [lia|].
    unfold GetSegmentIndex. by rewrite (find_segment_None_below (start c)).
  - intros [Hlo Hhi]. destruct (N.leb_spec boundary r); [lia|].
    destruct (find_segment_contiguous (start c) (data c) r 0 Hc) as (i & seg & Hf & Hi & Hr);
      [done|].
    exists i, seg. split; [done|]. split; [done|].
    unfold GetSegmentIndex. rewrite Hf. simpl. rewrite Hi. simpl.
    unfold D_ASSERT.
    destruct (debug && negb (bool_decide (ColumnSegment.segment_type seg = TRANSIENT)));
      [done|].
    simpl. unfold EraseSegments. rewrite (insert_take_S _ _ _ seg) by done.
    unfold ColumnSegment_RevertAppend.
    pose proof (wrap_lt r) as Hr64.
    assert (r < IDX_MODULUS) as Hrlt by (unfold boundary in *; lia).
    rewrite !idx_sub_small by lia. done.
Qed.

(** ** Vectors and slices *)

Lemma slice_length l off n : length (slice l off n) = n.
Proof.
  unfold slice. rewrite length_take, length_app, length_replicate. lia.
Qed.

Lemma slice_exact l off n :
  (off + n ≤ length l)%nat → slice l off n = take n (drop off l).
Proof.
  intros Hle. unfold slice. apply take_app_le. rewrite length_drop. lia.
Qed.

Lemma vector_write_in_range v off vals :
  (off ≤ length v)%nat →
  vector_write v off vals = take off v ++ vals ++ drop (off + length vals) v.
Proof.
  intros Hle. unfold vector_write.
  replace (off - length v)%nat with 0%nat by lia. simpl. by rewrite app_nil_r.
Qed.

Lemma vector_write_length v off vals :
  (off ≤ length v)%nat → (off + length vals ≤ length (vector_write v off vals))%nat.
Proof.
  intros Hle. rewrite vector_write_in_range by done.
  rewrite !length_app, length_take. lia.
Qed.

Lemma vector_write_take v off vals :
  (off ≤ length v)%nat →
  take (off + length vals) (vector_write v off vals) = take off v ++ vals.
Proof.
  intros Hle. rewrite vector_write_in_range by done.
  rewrite app_assoc. apply take_app_length'.
  rewrite length_app, length_take. lia.
Qed.

Lemma vector_write_snoc v off vals x :
  (off ≤ length v)%nat →
  vector_write (vector_write v off vals) (off + length vals) [x]
  = vector_write v off (vals ++ [x]).
Proof.
  intros Hle.
  rewrite (vector_write_in_range (vector_write v off vals))
    by (by apply vector_write_length).
  rewrite vector_write_take by done.
  rewrite (vector_write_in_range v off vals) by done.
  rewrite (vector_write_in_range v off (vals ++ [x])) by done.
  rewrite <- !app_assoc. f_equal. f_equal. simpl. f_equal.
  rewrite !app_assoc. rewrite drop_app_ge; rewrite !length_app, length_take.
  - rewrite drop_drop. simpl. f_equal. lia.
  - simpl. lia.
Qed.

Lemma fetch_rows_as_scan seg row_index scan_count result result_offset :
  ColumnSegment.start seg ≤ row_index →
  row_index + scan_count ≤ ColumnSegment.start seg + ColumnSegment.count seg →
  ColumnSegment.start seg + ColumnSegment.count seg < IDX_MODULUS →
  length (ColumnSegment.rows seg) = N.to_nat (ColumnSegment.count seg) →
  result_offset + scan_count < IDX_MODULUS →
  (N.to_nat result_offset ≤ length result)%nat →
  fetch_rows seg row_index scan_count result result_offset
  = vector_write result (N.to_nat result_offset)
      (take (N.to_nat scan_count)
         (drop (N.to_nat (row_index - ColumnSegment.start seg)) (ColumnSegment.rows seg))).
Proof.
  intros Hlo Hhi Hend Hrows Hoff Hlen. unfold fetch_rows.
  assert (N.to_nat scan_count ≤ N.to_nat scan_count)%nat as Hn by lia.
  revert Hn. generalize (N.to_nat scan_count) at 1 3 4. intros n. induction n as [|n IH].
  - intros _. simpl. rewrite vector_write_in_range by done. simpl.
    rewrite Nat.add_0_r. by rewrite take_drop.
  - intros Hn. rewrite seq_S, foldl_snoc. simpl. rewrite IH by lia.
    set (rel := N.to_nat (row_index - ColumnSegment.start seg)).
    assert (is_Some (ColumnSegment.rows seg !! (rel + n)%nat)) as [x Hx].
    { apply lookup_lt_is_Some. rewrite Hrows. unfold rel. lia. }
    rewrite (take_S_r _ _ x) by (by rewrite lookup_drop).
    unfold ColumnSegment_FetchRow.
    rewrite !idx_add_small by lia. rewrite idx_sub_small by lia.
    replace (N.to_nat (row_index + N.of_nat n - ColumnSegment.start seg))
      with (rel + n)%nat by (unfold rel; lia).
    rewrite slice_exact by (apply lookup_lt_Some in Hx; lia).
    rewrite (take_S_r _ _ x) by (rewrite lookup_drop; rewrite Nat.add_0_r; done).
    rewrite take_0. simpl.
    replace (N.to_nat (result_offset + N.of_nat n))
      with (N.to_nat result_offset + length (take n (drop rel (ColumnSegment.rows seg))))%nat.
    + by apply vector_write_snoc.
    + rewrite length_take, length_drop. apply lookup_lt_Some in Hx. lia.
Qed.

(** ** [ScanVector] *)

Lemma all_rows_cons s t : all_rows (s :: t) = ColumnSegment.rows s ++ all_rows t.
Proof. done. Qed.

Lemma all_rows_length t : rows_ok t → length (all_rows t) = N.to_nat (sum_counts t).
Proof.
  induction 1 as [|s t Hs _ IH]; [done|].
  rewrite all_rows_cons, length_app, IH, Hs. simpl. lia.
Qed.

Lemma rows_ahead_length t i seg state :
  cursor_at t i seg state →
  length (rows_ahead t i seg state)
  = N.to_nat (ColumnSegment.start seg + sum_counts (drop i t)
              - ColumnScanState.row_index state).
Proof.
  intros (_ & _ & _ & Hrows & _ & Hrow). unfold rows_ahead.
  rewrite length_drop, all_rows_length by done. lia.
Qed.

Lemma ScanVector_loop_done fuel debug tree hu init state result :
  ScanVector_loop (S fuel) debug tree hu init state result 0 = Ok (state, result, 0).
Proof. done. Qed.

Lemma set_row_index_same state :
  ColumnScanState.set_row_index state (ColumnScanState.row_index state) = state.
Proof. by destruct state. Qed.

Lemma vector_write_nil v off : (off ≤ length v)%nat → vector_write v off [] = v.
Proof.
  intros Hle. rewrite vector_write_in_range by done. simpl.
  by rewrite Nat.add_0_r, take_drop.
Qed.

(** One turn of the loop inside the current segment, whichever branch
    decodes. *)
Lemma scan_in_segment seg state result remaining init hu sc :
  ColumnSegment.start seg ≤ ColumnScanState.row_index state →
  ColumnScanState.row_index state + sc ≤ ColumnSegment.start seg + ColumnSegment.count seg →
  ColumnSegment.start seg + ColumnSegment.count seg < IDX_MODULUS →
  length (ColumnSegment.rows seg) = N.to_nat (ColumnSegment.count seg) →
  sc ≤ remaining → remaining ≤ init → init < IDX_MODULUS →
  (N.to_nat (init - remaining) ≤ length result)%nat →
  (if 0 <? sc then
     (ColumnScanState.set_row_index state (idx_add (ColumnScanState.row_index state) sc),
      (if ColumnScanState.force_fetch_row state
       then fetch_rows seg (ColumnScanState.row_index state) sc result
              (idx_sub init remaining)
       else ColumnSegment_Scan seg state sc result (idx_sub init remaining)
              (negb hu && (sc =? init))),
      idx_sub remaining sc)
   else (state, result, remaining))
  = (ColumnScanState.set_row_index state (ColumnScanState.row_index state + sc),
     vector_write result (N.to_nat (init - remaining))
       (take (N.to_nat sc)
          (drop (N.to_nat (ColumnScanState.row_index state - ColumnSegment.start seg))
             (ColumnSegment.rows seg))),
     remaining - sc).
Proof.
  intros Hlo Hhi Hend Hrows Hsc Hrem Hinit Hlen.
  destruct (N.ltb_spec 0 sc) as [Hpos|Hzero].
  - rewrite idx_add_small by lia. rewrite !idx_sub_small by lia. f_equal. f_equal.
    destruct (ColumnScanState.force_fetch_row state).
    + by apply fetch_rows_as_scan; try lia.
    + unfold ColumnSegment_Scan. rewrite idx_sub_small by lia.
      rewrite slice_exact; [done|]. rewrite Hrows. lia.
  - assert (sc = 0) as -> by lia. rewrite N.add_0_r, N.sub_0_r, set_row_index_same.
    simpl. by rewrite vector_write_nil.
Qed.

Lemma within_segment_true row seg :
  ColumnSegment.start seg ≤ row ≤ ColumnSegment.start seg + ColumnSegment.count seg →
  ColumnSegment.start seg + ColumnSegment.count seg < IDX_MODULUS →
  within_segment row seg = true.
Proof.
  intros Hrow Hend. unfold within_segment. rewrite idx_add_small by done.
  apply andb_true_intro. split; apply bool_decide_eq_true; lia.
Qed.

Lemma cursor_at_unfold t i seg state :
  cursor_at t i seg state →
  drop i t = seg :: drop (S i) t
  ∧ contiguous (ColumnSegment.start seg + ColumnSegment.count seg) (drop (S i) t)
  ∧ rows_ok (drop (S i) t)
  ∧ length (ColumnSegment.rows seg) = N.to_nat (ColumnSegment.count seg)
  ∧ sum_counts (drop i t) = ColumnSegment.count seg + sum_counts (drop (S i) t).
Proof.
  intros (_ & Hi & Hc & Hrows & _ & _).
  assert (drop i t = seg :: drop (S i) t) as Hd by (by apply drop_S).
  rewrite Hd in Hc, Hrows. destruct Hc as [_ Hc].
  apply Forall_cons in Hrows as [Hr Hrows]. rewrite Hd. done.
Qed.

(** The loop of [ScanVector] decodes the requested rows, or all the rows the
    chain still has when these are fewer. *)
Lemma ScanVector_loop_correct debug tree hu init :
  init < IDX_MODULUS →
  ∀ fuel i seg state result remaining,
    cursor_at tree i seg state →
    (length tree - i < fuel)%nat →
    remaining ≤ init →
    (N.to_nat (init - remaining) ≤ length result)%nat →
    let taken := N.min remaining
      (ColumnSegment.start seg + sum_counts (drop i tree)
       - ColumnScanState.row_index state) in
    ∃ state' result' j seg',
      ScanVector_loop fuel debug tree hu init state result remaining
        = Ok (state', result', remaining - taken)
      ∧ cursor_at tree j seg' state'
      ∧ (i ≤ j)%nat
      ∧ (taken < remaining → S j = length tree)
      ∧ ColumnScanState.row_index state' = ColumnScanState.row_index state + taken
      ∧ take (N.to_nat (init - remaining + taken)) result'
        = take (N.to_nat (init - remaining)) result
            ++ take (N.to_nat taken) (rows_ahead tree i seg state)
      ∧ (N.to_nat (init - remaining + taken) ≤ length result')%nat
      ∧ ColumnScanState.initialized state' = ColumnScanState.initialized state
      ∧ ColumnScanState.internal_index state' = ColumnScanState.internal_index state
      ∧ ColumnScanState.force_fetch_row state' = ColumnScanState.force_fetch_row state.
Proof.
  intros Hinit fuel. induction fuel as [|fuel IH];
    intros i seg state result remaining Hcur Hfuel Hrem Hlen taken; [lia|].
  destruct (cursor_at_unfold _ _ _ _ Hcur) as (Hdrop & Hcont' & Hrows' & Hrows & Hsum).
  pose proof Hcur as (Hcurrent & Hi & Hcont & Hrowsok & Hend & Hrow).
  destruct (decide (remaining = 0)) as [->|Hpos].
  { exists state, result, i, seg. rewrite ScanVector_loop_done.
    subst taken. rewrite N.min_0_l, take_0, app_nil_r.
    repeat split; try done; try lia. f_equal. lia. }
  cbn [ScanVector_loop].
  destruct (N.ltb_spec 0 remaining) as [_|]; [|lia]. cbn [negb].
  rewrite Hcurrent. cbn [deref]. rewrite Ok_bind, Hi. cbn [deref]. rewrite Ok_bind.
  rewrite within_segment_true by lia. rewrite D_ASSERT_holds, Ok_bind.
  rewrite (idx_add_small (ColumnSegment.start seg)) by lia.
  rewrite (idx_sub_small (ColumnSegment.start seg + ColumnSegment.count seg)) by lia.
  set (segleft := ColumnSegment.start seg + ColumnSegment.count seg
                  - ColumnScanState.row_index state).
  set (sc := N.min remaining segleft).
  set (rel := N.to_nat (ColumnScanState.row_index state - ColumnSegment.start seg)) in *.
  set (rest := sum_counts (drop (S i) tree)) in *.
  (* the arithmetic of this turn, once and for all *)
  assert (ColumnScanState.row_index state + segleft
          = ColumnSegment.start seg + ColumnSegment.count seg) as Hsegleft
    by (unfold segleft; lia).
  assert (sc ≤ remaining ∧ sc ≤ segleft ∧ (sc < remaining → sc = segleft)) as (Hsc1 & Hsc2 & Hsc3)
    by (unfold sc; lia).
  assert (N.of_nat rel + ColumnSegment.start seg = ColumnScanState.row_index state) as Hrel
    by (unfold rel; lia).
  assert (taken = N.min remaining (segleft + rest)) as Htaken.
  { unfold taken. rewrite Hsum. f_equal. lia. }
  rewrite scan_in_segment by (try done; lia).
  fold rel. clearbody sc segleft rel taken.
  set (state1 := ColumnScanState.set_row_index state _).
  set (result1 := vector_write result _ _).
  assert (length (take (N.to_nat sc) (drop rel (ColumnSegment.rows seg))) = N.to_nat sc)
    as Hdec.
  { rewrite length_take, length_drop, Hrows. lia. }
  assert (take (N.to_nat (init - remaining + sc)) result1
          = take (N.to_nat (init - remaining)) result
              ++ take (N.to_nat sc) (drop rel (ColumnSegment.rows seg))) as Hres1.
  { unfold result1. rewrite <- vector_write_take by done. f_equal. rewrite Hdec. lia. }
  assert (N.to_nat (init - remaining + sc) ≤ length result1)%nat as Hlen1.
  { unfold result1. etrans; [|by apply vector_write_length]. rewrite Hdec. lia. }
  assert (rows_ahead tree i seg state
          = drop rel (ColumnSegment.rows seg) ++ all_rows (drop (S i) tree)) as Hahead.
  { unfold rows_ahead. replace (N.to_nat _) with rel by lia.
    rewrite Hdrop, all_rows_cons. apply drop_app_le. rewrite Hrows. lia. }
  assert (cursor_at tree i seg state1) as Hcur1.
  { repeat split; try done; simpl; lia. }
  clearbody result1.
  destruct (N.ltb_spec 0 (remaining - sc)) as [Hmore|Hdone].
  - (* the segment is exhausted and rows are still wanted *)
    assert (sc = segleft) as -> by lia.
    assert (take (N.to_nat segleft) (drop rel (ColumnSegment.rows seg))
            = drop rel (ColumnSegment.rows seg)) as Hall.
    { apply take_ge. rewrite length_drop, Hrows. lia. }
    rewrite Hall in Hres1.
    assert (length (drop rel (ColumnSegment.rows seg)) = N.to_nat segleft) as Hlenall
      by (by rewrite <- Hall).
    unfold GetNextSegment. destruct (decide (S i < length tree)%nat) as [Hnext|Hlast].
    + destruct (lookup_lt_is_Some_2 tree (S i) Hnext) as [nseg Hn].
      rewrite Hn. cbn [deref]. rewrite Ok_bind.
      set (state2 := ColumnScanState.set_segment_checked _ _).
      assert (drop (S i) tree = nseg :: drop (S (S i)) tree) as Hdrop' by (by apply drop_S).
      assert (ColumnSegment.start nseg = ColumnSegment.start seg + ColumnSegment.count seg)
        as Hnstart.
      { rewrite Hdrop' in Hcont'. by destruct Hcont' as [-> _]. }
      assert (ColumnSegment.count nseg ≤ rest) as Hncount.
      { unfold rest. rewrite Hdrop'. simpl. lia. }
      assert (ColumnScanState.row_index state2 = ColumnSegment.start nseg) as Hri2
        by (simpl; lia).
      assert (cursor_at tree (S i) nseg state2) as Hcur2.
      { split; [done|]. split; [done|]. split; [by rewrite Hnstart|]. split; [done|].
        fold rest. split; lia. }
      rewrite within_segment_true by lia.
      rewrite D_ASSERT_holds, Ok_bind.
      destruct (IH (S i) nseg state2 result1 (remaining - segleft) Hcur2)
        as (state' & result' & j & seg' & Hrun & Hcur' & Hij & Hex & Hri & Hres & Hlen' & Hkeep);
        [lia|lia|lia|].
      fold rest in Hrun, Hex, Hri, Hres, Hlen'. rewrite Hri2 in Hrun, Hex, Hri, Hres, Hlen'.
      set (taken' := N.min (remaining - segleft)
                       (ColumnSegment.start nseg + rest - ColumnSegment.start nseg)) in *.
      assert (taken = segleft + taken') as ->.
      { rewrite Htaken. unfold taken'. lia. }
      assert (taken' ≤ remaining - segleft) as Htk' by (unfold taken'; lia).
      clearbody taken'.
      exists state', result', j, seg'. rewrite Hrun.
      split; [f_equal; f_equal; lia|]. split; [done|]. split; [lia|].
      split; [intros; apply Hex; lia|]. split; [lia|].
      split; [|split; [lia|done]].
      replace (N.to_nat (init - remaining + (segleft + taken')))
        with (N.to_nat (init - (remaining - segleft) + taken')) by lia.
      rewrite Hres.
      replace (N.to_nat (init - (remaining - segleft)))
        with (N.to_nat (init - remaining + segleft)) by lia.
      rewrite Hres1, Hahead, <- app_assoc. f_equal.
      replace (N.to_nat (segleft + taken'))
        with (length (drop rel (ColumnSegment.rows seg)) + N.to_nat taken')%nat by lia.
      rewrite take_app_add. f_equal. unfold rows_ahead.
      by rewrite Hri2, N.sub_diag.
    + (* no successor: the chain ends here *)
      assert (drop (S i) tree = []) as Hnil by (apply drop_ge; lia).
      assert (rest = 0) as Hrest by (unfold rest; by rewrite Hnil).
      assert (taken = segleft) as -> by lia.
      exists state1, result1, i, seg.
      split; [done|]. split; [done|].
      split; [done|]. split; [intros _; apply lookup_lt_Some in Hi; lia|].
      split; [done|]. split; [|done].
      rewrite Hres1, Hahead, Hnil. unfold all_rows. simpl.
      by rewrite app_nil_r, Hall.
  - (* the request is satisfied inside this segment *)
    assert (remaining - sc = 0) as Hzero by lia. rewrite Hzero.
    destruct fuel as [|fuel]; [apply lookup_lt_Some in Hi; lia|].
    rewrite ScanVector_loop_done.
    assert (taken = sc) as -> by lia.
    exists state1, result1, i, seg. rewrite Hzero.
    split; [done|]. split; [done|].
    split; [done|]. split; [intros; lia|]. split; [done|]. split; [|done].
    rewrite Hres1, Hahead. f_equal. symmetry. apply take_app_le.
    rewrite length_drop, Hrows. lia.
Qed.

#[local] Arguments ScanVector_loop : simpl never.
#[local] Arguments D_ASSERT : simpl never.

(** Running through the assertions and dereferences that hold. *)
Ltac run_asserts Hi :=
  repeat first
    [ rewrite D_ASSERT_holds
    | rewrite D_ASSERT_release
    | rewrite Ok_bind
    | rewrite Hi
    | rewrite bool_decide_true by (done || lia)
    | progress simpl ].

Lemma cursor_at_moved t i seg state state' :
  ColumnScanState.current state' = ColumnScanState.current state →
  ColumnScanState.row_index state' = ColumnScanState.row_index state →
  cursor_at t i seg state → cursor_at t i seg state'.
Proof. unfold cursor_at. intros -> ->. done. Qed.

(** [ScanVector] from a cursor standing in the tree: what it returns, where
    it leaves the cursor and what it wrote. *)
Lemma ScanVector_correct debug c state result remaining hu i seg :
  cursor_at (data c) i seg state →
  ColumnSegment.type seg = type c →
  (ColumnScanState.initialized state = true →
   ColumnScanState.internal_index state ≤ ColumnScanState.row_index state) →
  remaining < IDX_MODULUS →
  let taken := N.min remaining
    (ColumnSegment.start seg + sum_counts (drop i (data c))
     - ColumnScanState.row_index state) in
  ∃ state' result' j seg',
    ScanVector debug c state result remaining hu = Ok (state', result', taken)
    ∧ cursor_at (data c) j seg' state'
    ∧ (taken < remaining → S j = length (data c))
    ∧ ColumnScanState.row_index state' = ColumnScanState.row_index state + taken
    ∧ ColumnScanState.internal_index state' = ColumnScanState.row_index state'
    ∧ ColumnScanState.initialized state' = true
    ∧ take (N.to_nat taken) result' = take (N.to_nat taken) (rows_ahead (data c) i seg state)
    ∧ (N.to_nat taken ≤ length result')%nat.
Proof.
  intros Hcur Htype Hinternal Hrem taken.
  pose proof Hcur as (Hcurrent & Hi & _ & _ & Hend & Hrow).
  assert (∀ s0,
    ColumnScanState.current s0 = ColumnScanState.current state →
    ColumnScanState.row_index s0 = ColumnScanState.row_index state →
    ColumnScanState.initialized s0 = true →
    ∃ state' result' j seg',
      (ScanVector_loop (S (length (data c))) debug (data c) hu remaining s0 result remaining
         ≫= λ '(state, result, remaining'),
              mret (ColumnScanState.set_internal_index state (ColumnScanState.row_index state),
                    result, idx_sub remaining remaining'))
      = Ok (state', result', taken)
      ∧ cursor_at (data c) j seg' state'
      ∧ (taken < remaining → S j = length (data c))
      ∧ ColumnScanState.row_index state' = ColumnScanState.row_index state + taken
      ∧ ColumnScanState.internal_index state' = ColumnScanState.row_index state'
      ∧ ColumnScanState.initialized state' = true
      ∧ take (N.to_nat taken) result' = take (N.to_nat taken) (rows_ahead (data c) i seg state)
      ∧ (N.to_nat taken ≤ length result')%nat) as Hloop.
  { intros s0 Hc0 Hr0 Hi0.
    assert (cursor_at (data c) i seg s0) as Hcur0 by (by eapply cursor_at_moved).
    destruct (ScanVector_loop_correct debug (data c) hu remaining Hrem
                (S (length (data c))) i seg s0 result remaining Hcur0)
      as (state' & result' & j & seg' & Hrun & Hcur' & _ & Hex & Hri & Hres & Hlen & Hin & _);
      [lia|lia|lia|].
    rewrite Hr0 in Hrun, Hex, Hri, Hres, Hlen. fold taken in Hrun, Hex, Hri, Hres, Hlen.
    rewrite N.sub_diag, N.add_0_l in Hres, Hlen. simpl in Hres.
    exists (ColumnScanState.set_internal_index state' (ColumnScanState.row_index state')),
      result', j, seg'.
    rewrite Hrun, Ok_bind. split.
    { unfold mret, outcome_ret. f_equal. f_equal.
      rewrite idx_sub_small by lia. subst taken. lia. }
    split; [by eapply cursor_at_moved|]. split; [done|]. split; [done|].
    split; [done|]. split; [by rewrite <- Hi0|]. split; [|done].
    rewrite Hres. unfold rows_ahead. by rewrite Hr0. }
  unfold ScanVector.
  destruct state as [cur ri ii ini ss ps sck lo ffr]. simpl in *. subst cur.
  destruct ini; simpl.
  - (* already initialized *)
    specialize (Hinternal eq_refl).
    run_asserts Hi.
    destruct (N.ltb_spec ii ri), debug; run_asserts Hi; by apply Hloop.
  - (* first use of the cursor *)
    run_asserts Hi.
    destruct (N.ltb_spec (ColumnSegment.start seg) ri), debug; run_asserts Hi;
      by apply Hloop.
Qed.

(** C10. From a cursor standing in the tree, [ScanVector] returns the
    number of rows it decoded: the first that many entries of the result
    are the rows ahead of the cursor and the cursor has advanced by as many.
    The number is the requested one whenever the chain still has that many
    rows, and it is smaller only when the chain has fewer, the cursor then
    resting at the end of the last segment; no error arises either way. *)
Theorem ScanVector_returns_rows_decoded
    (debug : bool) (c : ColumnData) (state : ColumnScanState) (result : Vector)
    (remaining : idx_t) (has_updates : bool) (i : nat) (seg : ColumnSegment) :
  cursor_at (data c) i seg state →
  ColumnSegment.type seg = type c →
  (ColumnScanState.initialized state = true →
   ColumnScanState.internal_index state ≤ ColumnScanState.row_index state) →
  remaining < IDX_MODULUS →
  let ahead := rows_ahead (data c) i seg state in
  ∃ state' result' n,
    ScanVector debug c state result remaining has_updates = Ok (state', result', n)
    ∧ n = N.min remaining (N.of_nat (length ahead))
    ∧ take (N.to_nat n) result' = take (N.to_nat n) ahead
    ∧ ColumnScanState.row_index state' = ColumnScanState.row_index state + n
    ∧ (remaining ≤ N.of_nat (length ahead) → n = remaining)
    ∧ (n < remaining →
         N.of_nat (length ahead) < remaining
         ∧ ∃ last, ColumnScanState.current state' = Some (length (data c) - 1)%nat
                   ∧ data c !! (length (data c) - 1)%nat = Some last
                   ∧ ColumnScanState.row_index state'
                     = ColumnSegment.start last + ColumnSegment.count last).
Proof.
  intros Hcur Htype Hinternal Hrem ahead.
  destruct (ScanVector_correct debug c state result remaining has_updates i seg
              Hcur Htype Hinternal Hrem)
    as (state' & result' & j & seg' & Hrun & Hcur' & Hex & Hri & _ & _ & Hres & _).
  pose proof (rows_ahead_length _ _ _ _ Hcur) as Hlen. fold ahead in Hlen.
  pose proof Hcur as (_ & _ & _ & _ & _ & Hrow).
  set (avail := ColumnSegment.start seg + sum_counts (drop i (data c))
                - ColumnScanState.row_index state) in *.
  assert (N.of_nat (length ahead) = avail) as Hav by lia.
  exists state', result', (N.min remaining avail). rewrite Hav.
  split; [done|]. split; [done|]. split; [done|]. split; [done|].
  split; [lia|]. intros Hless. split; [lia|].
  specialize (Hex Hless).
  destruct Hcur' as (Hcurrent' & Hj & Hcont' & _ & _ & Hrow').
  replace (length (data c) - 1)%nat with j by lia.
  exists seg'. split; [done|]. split; [done|].
  pose proof (rows_ahead_length _ _ _ _ Hcur) as Hal.
  assert (drop j (data c) = [seg']) as Hd.
  { rewrite (drop_S _ _ _ Hj). rewrite drop_ge by lia. done. }
  (* the rows decoded are all the rows there were *)
  assert (ColumnSegment.start seg + sum_counts (drop i (data c))
          = ColumnSegment.start seg' + ColumnSegment.count seg') as Hend.
  { destruct Hcur as (_ & Hi & Hcont & _).
    destruct (decide (i ≤ j)%nat) as [Hij|Hij].
    - pose proof (contiguous_lookup _ _ (j - i) seg' Hcont) as Hs.
      rewrite lookup_drop in Hs. replace (i + (j - i))%nat with j in Hs by lia.
      specialize (Hs Hj). rewrite Hs.
      rewrite <- (take_drop (j - i) (drop i (data c))) at 1.
      rewrite sum_counts_app, drop_drop.
      replace (i + (j - i))%nat with j by lia. rewrite Hd. simpl. lia.
    - apply lookup_lt_Some in Hi. lia. }
  lia.
Qed.

(** ** A well-formed column *)

Lemma contiguous_drop first t i seg :
  contiguous first t → t !! i = Some seg → contiguous (ColumnSegment.start seg) (drop i t).
Proof.
  revert first i. induction t as [|s t IH]; intros first i Hc Hi; [done|].
  destruct Hc as [Hs Hc]. destruct i as [|i]; simpl in *.
  - simplify_eq. done.
  - by eapply IH.
Qed.

Lemma sum_counts_split i t : sum_counts t = sum_counts (take i t) + sum_counts (drop i t).
Proof. by rewrite <- sum_counts_app, take_drop. Qed.

Lemma all_rows_app t1 t2 : all_rows (t1 ++ t2) = all_rows t1 ++ all_rows t2.
Proof.
  induction t1 as [|s t1 IH]; [done|].
  simpl. by rewrite !all_rows_cons, IH, app_assoc.
Qed.

Lemma cursor_at_of_column c i seg state :
  column_ok c →
  ColumnScanState.current state = Some i → data c !! i = Some seg →
  ColumnSegment.start seg ≤ ColumnScanState.row_index state
    ≤ ColumnSegment.start seg + ColumnSegment.count seg →
  cursor_at (data c) i seg state
  ∧ ColumnSegment.type seg = type c
  ∧ ColumnSegment.start seg + sum_counts (drop i (data c)) = start c + count c
  ∧ rows_ahead (data c) i seg state
    = drop (N.to_nat (ColumnScanState.row_index state - start c)) (all_rows (data c)).
Proof.
  intros (Hcont & Hrows & Hsum & Hend & Htypes) Hcur Hi Hrow.
  pose proof (contiguous_lookup _ _ _ _ Hcont Hi) as Hstart.
  pose proof (sum_counts_split i (data c)) as Hsplit.
  assert (ColumnSegment.start seg + sum_counts (drop i (data c)) = start c + count c)
    as Hend' by lia.
  split; [|split; [|split; [done|]]].
  - split; [done|]. split; [done|]. split; [by eapply contiguous_drop|].
    split; [by apply Forall_drop|]. split; [lia|done].
  - by eapply (Forall_lookup_1 _ _ _ _ Htypes).
  - unfold rows_ahead.
    rewrite <- (take_drop i (data c)) at 2. rewrite all_rows_app.
    assert (length (all_rows (take i (data c)))
            = N.to_nat (ColumnSegment.start seg - start c)) as Hlen.
    { rewrite all_rows_length by (by apply Forall_take). lia. }
    rewrite drop_app_ge by lia. f_equal. lia.
Qed.

Lemma overlay_take p block result n :
  take n (overlay p block result) = overlay p block (take n result).
Proof.
  apply list_eq. intros i. rewrite overlay_lookup.
  destruct (decide (i < n)%nat).
  - by rewrite !lookup_take_lt, overlay_lookup by done.
  - by rewrite !lookup_take_ge by lia.
Qed.

(** ** [Scan] *)

(** C4 (amended). With the cursor standing at row [start +
    vector_index * 1024] of a well-formed column and that row below the
    count, [Scan] decodes exactly [min 1024 (count - vector_index * 1024)]
    rows, the stored rows from that row on across whatever segments hold
    them, and returns them overlaid with the entries of vector block
    [vector_index] that the transaction sees. *)
Theorem Scan_decodes_block_at_cursor
    (debug : bool) (c : ColumnData) (transaction : TransactionData)
    (vector_index : idx_t) (state : ColumnScanState) (result : Vector)
    (i : nat) (seg : ColumnSegment) :
  column_ok c →
  vector_index * STANDARD_VECTOR_SIZE < count c →
  ColumnScanState.current state = Some i → data c !! i = Some seg →
  ColumnScanState.row_index state = start c + vector_index * STANDARD_VECTOR_SIZE →
  ColumnSegment.start seg ≤ ColumnScanState.row_index state
    ≤ ColumnSegment.start seg + ColumnSegment.count seg →
  (ColumnScanState.initialized state = true →
   ColumnScanState.internal_index state ≤ ColumnScanState.row_index state) →
  let n := N.min STANDARD_VECTOR_SIZE (count c - vector_index * STANDARD_VECTOR_SIZE) in
  let stored := take (N.to_nat n)
                  (drop (N.to_nat (vector_index * STANDARD_VECTOR_SIZE))
                     (all_rows (data c))) in
  ∃ state' result',
    Scan debug c transaction vector_index state result = Ok (state', result', n)
    ∧ length stored = N.to_nat n
    ∧ ColumnScanState.row_index state' = ColumnScanState.row_index state + n
    ∧ take (N.to_nat n) result'
      = match updates c with
        | None => stored
        | Some u => overlay (visible_to transaction) (block_of u vector_index) stored
        end.
Proof.
  intros Hok Hvi Hcurrent Hi Hri Hrow Hinternal n stored.
  destruct (cursor_at_of_column c i seg state Hok Hcurrent Hi Hrow)
    as (Hcur & Htype & Hend & Hahead).
  pose proof Hok as (_ & Hrows & Hsum & Hmod & _).
  assert (idx_mul vector_index STANDARD_VECTOR_SIZE = vector_index * STANDARD_VECTOR_SIZE)
    as Hmul by (apply wrap_small; lia).
  assert (idx_sub (count c) (vector_index * STANDARD_VECTOR_SIZE)
          = count c - vector_index * STANDARD_VECTOR_SIZE) as Hsub
    by (apply idx_sub_small; lia).
  assert (n < IDX_MODULUS) as Hn by (unfold n, STANDARD_VECTOR_SIZE, IDX_MODULUS; lia).
  destruct (ScanVector_correct debug c state result n (HasUpdates c) i seg
              Hcur Htype Hinternal Hn)
    as (state' & decoded & j & seg' & Hrun & _ & _ & Hri' & _ & _ & Hres & Hlen).
  assert (N.min n (ColumnSegment.start seg + sum_counts (drop i (data c))
                   - ColumnScanState.row_index state) = n) as Htaken
    by (rewrite Hend, Hri; unfold n; lia).
  rewrite Htaken in Hrun, Hri', Hres, Hlen.
  rewrite Hahead, Hri in Hres.
  replace (N.to_nat (start c + vector_index * STANDARD_VECTOR_SIZE - start c))
    with (N.to_nat (vector_index * STANDARD_VECTOR_SIZE)) in Hres by lia.
  fold stored in Hres.
  assert (length stored = N.to_nat n) as Hstored.
  { unfold stored. rewrite length_take, length_drop, all_rows_length by done.
    rewrite Hsum. unfold n. lia. }
  unfold Scan, ScanVector_updates. rewrite Hmul, Hsub. fold n. rewrite Hrun, Ok_bind.
  unfold FetchUpdates. destruct (updates c) as [u|].
  - simpl. eexists _, _. split; [done|]. split; [done|]. split; [done|].
    unfold UpdateSegment_FetchUpdates, Flatten. by rewrite overlay_take, Hres.
  - simpl. eexists _, _. split; [done|]. done.
Qed.

(** ** [Fetch] *)

Lemma idx_of_row_small (r : row_t) :
  (0 ≤ r)%Z → Z.to_N r < IDX_MODULUS → idx_of_row r = Z.to_N r.
Proof.
  intros Hr Hlt. unfold idx_of_row. f_equal. apply Z.mod_small.
  unfold IDX_MODULUS in *. lia.
Qed.

(** C6 (amended). For a row of a well-formed column, [Fetch] puts the
    cursor at the start of the aligned 1024-row block holding the row, finds
    the segment of that position and asks for 1024 rows; it decodes the
    stored rows of the block, all 1024 when the column reaches that far and
    otherwise the rows up to the end of the column, the fetched row always
    among them, and it applies no update. *)
Theorem Fetch_decodes_block_of_row
    (debug : bool) (c : ColumnData) (state : ColumnScanState) (row_id : row_t)
    (result : Vector) :
  column_ok c →
  (0 ≤ row_id)%Z →
  start c ≤ Z.to_N row_id < start c + count c →
  let block_start :=
    start c + (Z.to_N row_id - start c) / STANDARD_VECTOR_SIZE * STANDARD_VECTOR_SIZE in
  let n := N.min STANDARD_VECTOR_SIZE (start c + count c - block_start) in
  ∃ state' result',
    Fetch debug c state row_id result = Ok (state', result', n)
    ∧ ColumnScanState.row_index state' = block_start + n
    ∧ take (N.to_nat n) result'
      = take (N.to_nat n) (drop (N.to_nat (block_start - start c)) (all_rows (data c)))
    ∧ Z.to_N row_id - block_start < n
    ∧ (n = STANDARD_VECTOR_SIZE ↔ block_start + STANDARD_VECTOR_SIZE ≤ start c + count c).
Proof.
  intros Hok Hnonneg Hrow block_start n.
  pose proof Hok as (Hcont & Hrows & Hsum & Hmod & _).
  assert (idx_of_row row_id = Z.to_N row_id) as Hcast
    by (apply idx_of_row_small; [done|lia]).
  set (r := Z.to_N row_id) in *.
  assert (block_start ≤ r ∧ r - block_start < STANDARD_VECTOR_SIZE) as [Hb1 Hb2].
  { unfold block_start, STANDARD_VECTOR_SIZE. lia. }
  assert (idx_add (start c)
            (idx_mul (idx_sub r (start c) / STANDARD_VECTOR_SIZE) STANDARD_VECTOR_SIZE)
          = block_start) as Hblock.
  { rewrite idx_sub_small by lia.
    unfold idx_mul. rewrite wrap_small; [apply idx_add_small|];
      unfold block_start, STANDARD_VECTOR_SIZE in *; lia. }
  destruct (find_segment_contiguous (start c) (data c) block_start 0 Hcont)
    as (i & seg & Hfind & Hi & Hseg).
  { unfold block_start, STANDARD_VECTOR_SIZE in *. lia. }
  rewrite Nat.add_0_l in Hfind.
  unfold Fetch. rewrite Hcast.
  rewrite (bool_decide_true (0 ≤ row_id)%Z) by lia.
  rewrite (bool_decide_true (start c ≤ r)) by lia.
  rewrite !D_ASSERT_holds, !Ok_bind.
  cbn [ColumnScanState.row_index ColumnScanState.set_row_index].
  rewrite Hblock. unfold GetSegment, GetSegmentIndex. rewrite Hfind, Ok_bind, Hi.
  cbn [deref]. rewrite Ok_bind.
  set (state0 := ColumnScanState.set_internal_index _ _).
  assert (ColumnScanState.row_index state0 = block_start) as Hri0 by done.
  destruct (cursor_at_of_column c i seg state0 Hok) as (Hcur & Htype & Hend & Hahead);
    [done|done|rewrite Hri0; lia|].
  destruct (ScanVector_correct debug c state0 result STANDARD_VECTOR_SIZE false i seg
              Hcur Htype)
    as (state' & decoded & j & seg' & Hrun & _ & _ & Hri' & _ & _ & Hres & _).
  { intros _. simpl. lia. }
  { done. }
  rewrite Hend, Hri0 in Hrun, Hri', Hres. fold n in Hrun, Hri', Hres.
  rewrite Hahead, Hri0 in Hres.
  exists state', decoded. split; [done|]. split; [done|]. split; [done|].
  unfold n, STANDARD_VECTOR_SIZE in *. lia.
Qed.

(** ** [AppendData] *)

Lemma slice_lookup l off n j :
  slice l off n !! j
  = if decide (j < n)%nat then Some (default Null (l !! (off + j)%nat)) else None.
Proof.
  unfold slice. destruct (decide (j < n)%nat) as [Hj|Hj].
  - rewrite lookup_take_lt by done.
    destruct (decide (j < length (drop off l))%nat) as [Hin|Hout].
    + rewrite lookup_app_l by done. rewrite lookup_drop.
      destruct (lookup_lt_is_Some_2 (drop off l) j Hin) as [x Hx].
      rewrite lookup_drop in Hx. by rewrite Hx.
    + rewrite lookup_app_r by lia. rewrite lookup_replicate_2.
      * rewrite length_drop in Hout. rewrite lookup_ge_None_2 by lia. done.
      * rewrite length_drop in *. lia.
  - by rewrite lookup_take_ge by lia.
Qed.

Lemma slice_app l off a b :
  slice l off (a + b) = slice l off a ++ slice l (off + a) b.
Proof.
  apply list_eq. intros j. rewrite slice_lookup.
  destruct (decide (j < a)%nat) as [Ha|Ha].
  - rewrite lookup_app_l by (rewrite slice_length; lia).
    rewrite slice_lookup. rewrite !decide_True by lia. done.
  - rewrite lookup_app_r by (rewrite slice_length; lia).
    rewrite slice_length, slice_lookup.
    destruct (decide (j < a + b)%nat); [rewrite decide_True by lia|rewrite decide_False by lia];
      [|done].
    do 3 f_equal. lia.
Qed.

Lemma slice_nil l off : slice l off 0 = [].
Proof. done. Qed.

Lemma contiguous_app first t1 t2 :
  contiguous first (t1 ++ t2)
  ↔ contiguous first t1 ∧ contiguous (first + sum_counts t1) t2.
Proof.
  revert first. induction t1 as [|s t1 IH]; intros first; simpl.
  - rewrite N.add_0_r. tauto.
  - rewrite IH. rewrite N.add_assoc. tauto.
Qed.

Lemma transient_size_bounds ty start_row :
  type_size_ok ty →
  GetTypeIdSize ty ≤ transient_size ty start_row < IDX_MODULUS.
Proof.
  intros (Hpos & Hle & Hblock & Hvec). unfold transient_size.
  destruct (start_row =? MAX_ROW_ID).
  - unfold idx_mul. rewrite wrap_small by done.
    destruct (N.ltb_spec BLOCK_SIZE (STANDARD_VECTOR_SIZE * GetTypeIdSize ty));
      unfold STANDARD_VECTOR_SIZE in *; lia.
  - destruct (N.ltb_spec BLOCK_SIZE BLOCK_SIZE); lia.
Qed.

Lemma AppendTransientSegment_data c start_row :
  data (AppendTransientSegment c start_row)
  = data c ++ [CreateTransientSegment (type c) start_row (transient_size (type c) start_row)].
Proof. done. Qed.

Lemma fresh_segment_room ty start_row :
  type_size_ok ty →
  0 < room (CreateTransientSegment ty start_row (transient_size ty start_row)).
Proof.
  intros Hok. pose proof (transient_size_bounds ty start_row Hok) as [Hlo Hhi].
  destruct Hok as (Hpos & _). unfold room. simpl. rewrite N.sub_0_r.
  apply N.div_str_pos. lia.
Qed.

Lemma fresh_segment_fits ty start_row :
  type_size_ok ty →
  segment_fits (CreateTransientSegment ty start_row (transient_size ty start_row)).
Proof.
  intros Hok. pose proof (transient_size_bounds ty start_row Hok) as [Hlo Hhi].
  split; simpl; [done|lia].
Qed.

(** One call of the segment's append, on a segment whose fields fit. *)
Lemma ColumnSegment_Append_correct seg vdata offset n :
  segment_fits seg →
  let copied := N.min n (room seg) in
  ColumnSegment_Append seg vdata offset n
  = (ColumnSegment.set_content seg (ColumnSegment.count seg + copied)
       (stats_update (ColumnSegment.stats seg)
          (slice vdata (N.to_nat offset) (N.to_nat copied)))
       (ColumnSegment.rows seg ++ slice vdata (N.to_nat offset) (N.to_nat copied)),
     copied)
  ∧ ColumnSegment.count seg + copied < IDX_MODULUS.
Proof.
  intros [Hcount Hsize] copied. unfold ColumnSegment_Append. fold (room seg). fold copied.
  assert (ColumnSegment.count seg + copied < IDX_MODULUS) as Hfit.
  { unfold copied, room.
    pose proof (N.Div0.div_le_upper_bound (ColumnSegment.segment_size seg)
                  (GetTypeIdSize (ColumnSegment.type seg))
                  (ColumnSegment.segment_size seg)) as Hdiv.
    assert (ColumnSegment.segment_size seg / GetTypeIdSize (ColumnSegment.type seg)
            ≤ ColumnSegment.segment_size seg) as Hle.
    { destruct (decide (GetTypeIdSize (ColumnSegment.type seg) = 0)) as [->|Hnz].
      - rewrite N.div_0_r. lia.
      - apply N.Div0.div_le_upper_bound. nia. }
    lia. }
  split; [|done]. by rewrite idx_add_small.
Qed.

Lemma sum_counts_singleton s : sum_counts [s] = ColumnSegment.count s.
Proof. simpl. lia. Qed.

Lemma all_rows_singleton s : all_rows [s] = ColumnSegment.rows s.
Proof. unfold all_rows. simpl. by rewrite app_nil_r. Qed.

Lemma covers_Merge_l a b v : covers a v → covers (Merge a b) v.
Proof.
  destruct v as [|z]; simpl.
  - intros ->. done.
  - intros (lo & hi & Ha & Hz). rewrite Ha.
    destruct (min_max b) as [[lo' hi']|]; eexists _, _; (split; [done|lia]).
Qed.

Lemma covers_Merge_r a b v : covers b v → covers (Merge a b) v.
Proof.
  destruct v as [|z]; simpl.
  - intros ->. by rewrite orb_true_r.
  - intros (lo & hi & Hb & Hz). rewrite Hb.
    destruct (min_max a) as [[lo' hi']|]; eexists _, _; (split; [done|lia]).
Qed.

Lemma covers_foldl_Merge s l v : covers s v → covers (foldl Merge s l) v.
Proof.
  revert s. induction l as [|x l IH]; intros s Hs; [done|].
  simpl. by apply IH, covers_Merge_l.
Qed.

Lemma covers_stats_update_old s vals v : covers s v → covers (stats_update s vals) v.
Proof.
  unfold stats_update. revert s. induction vals as [|x vals IH]; intros s Hs; [done|].
  simpl. by apply IH, covers_Merge_l.
Qed.

Lemma covers_stats_update s vals v : v ∈ vals → covers (stats_update s vals) v.
Proof.
  unfold stats_update. revert s. induction vals as [|x vals IH]; intros s Hv.
  - by apply elem_of_nil in Hv.
  - apply elem_of_cons in Hv as [->|Hv]; simpl.
    + apply (covers_stats_update_old _ vals), covers_Merge_r.
      destruct x as [|z]; simpl; [done|]. exists z, z. split; [done|lia].
    + by apply IH.
Qed.

(** The loop of [AppendData] from the tail segment on: it ends, and the
    tail is replaced by the run of segments the rows went into. *)
Lemma AppendData_loop_correct ty vdata :
  type_size_ok ty →
  ∀ fuel c append_stats state offset remaining front seg,
    type c = ty →
    data c = front ++ [seg] →
    ColumnAppendState.current state = Some (length front) →
    segment_fits seg →
    offset + remaining < IDX_MODULUS →
    ColumnSegment.start seg + ColumnSegment.count seg + remaining < IDX_MODULUS →
    ((N.to_nat remaining < fuel)%nat
     ∨ (0 < room seg ∧ (N.to_nat remaining ≤ fuel)%nat ∧ (0 < fuel)%nat)) →
    ∃ c' state' seg' fresh,
      AppendData_loop fuel c append_stats state vdata offset remaining
        = Ok (c', foldl Merge append_stats (ColumnSegment.stats <$> seg' :: fresh), state')
      ∧ data c' = front ++ seg' :: fresh
      ∧ count c' = count c ∧ start c' = start c ∧ type c' = type c
      ∧ parent c' = parent c ∧ stats c' = stats c ∧ updates c' = updates c
      ∧ ColumnSegment.start seg' = ColumnSegment.start seg
      ∧ ColumnSegment.segment_type seg' = ColumnSegment.segment_type seg
      ∧ Forall (fun s => ColumnSegment.segment_type s = TRANSIENT) fresh
      ∧ sum_counts (seg' :: fresh) = ColumnSegment.count seg + remaining
      ∧ all_rows (seg' :: fresh)
        = ColumnSegment.rows seg ++ slice vdata (N.to_nat offset) (N.to_nat remaining)
      ∧ contiguous (ColumnSegment.start seg) (seg' :: fresh)
      ∧ ColumnAppendState.current state' = Some (length front + length fresh)%nat
      ∧ (∀ v, v ∈ slice vdata (N.to_nat offset) (N.to_nat remaining) →
              covers (foldl Merge append_stats (ColumnSegment.stats <$> seg' :: fresh)) v).
Proof.
  intros Hty fuel. induction fuel as [|fuel IH];
    intros c append_stats state offset remaining front seg Htype Hdata Hcur Hfits Hoff Hend Hfuel;
    [lia|].
  cbn [AppendData_loop]. rewrite Hcur. cbn [deref]. rewrite Ok_bind.
  rewrite Hdata, list_lookup_middle by done. cbn [deref]. rewrite Ok_bind.
  destruct (ColumnSegment_Append_correct seg vdata offset remaining Hfits) as [-> Hcount].
  set (copied := N.min remaining (room seg)) in *.
  set (seg1 := ColumnSegment.set_content _ _ _ _).
  assert (<[length front := seg1]> (front ++ [seg]) = front ++ [seg1]) as ->.
  { replace (length front) with (length front + 0)%nat at 1 by lia.
    by rewrite insert_app_r. }
  destruct (N.eqb_spec copied remaining) as [Heq|Hne].
  - (* everything fitted *)
    exists (set_data c (front ++ [seg1])), state, seg1, [].
    simpl. rewrite Nat.add_0_r.
    repeat split; try done.
    + lia.
    + rewrite all_rows_singleton. unfold seg1. simpl. by rewrite Heq.
    + intros v Hv. apply covers_Merge_r, covers_stats_update. by rewrite Heq.
  - (* the segment is full: a new transient segment takes over *)
    assert (copied = room seg ∧ copied < remaining) as [Hcopied Hless] by (unfold copied in *; lia).
    set (c1 := set_data c (front ++ [seg1])).
    set (new_start := idx_add (ColumnSegment.start seg1) (ColumnSegment.count seg1)).
    assert (new_start = ColumnSegment.start seg + ColumnSegment.count seg + copied)
      as Hnew by (unfold new_start; rewrite idx_add_small; simpl; lia).
    rewrite AppendTransientSegment_data.
    change (type c1) with (type c). rewrite Htype.
    set (nseg := CreateTransientSegment ty new_start (transient_size ty new_start)).
    change (data c1) with (front ++ [seg1]).
    assert (GetLastSegment ((front ++ [seg1]) ++ [nseg]) = Some (length (front ++ [seg1])))
      as Hlast.
    { unfold GetLastSegment. destruct ((front ++ [seg1]) ++ [nseg]) eqn:Hl.
      - by destruct front.
      - rewrite <- Hl. rewrite length_app. simpl. f_equal. lia. }
    cbn [ColumnAppendState.current]. rewrite Hlast. cbn [deref]. rewrite Ok_bind.
    set (c2 := AppendTransientSegment c1 new_start).
    set (state2 := ColumnSegment_InitializeAppend _ _).
    rewrite (idx_add_small offset), (idx_sub_small remaining) by lia.
    destruct (IH c2 (Merge append_stats (ColumnSegment.stats seg1)) state2
                (offset + copied) (remaining - copied) (front ++ [seg1]) nseg)
      as (c' & state' & nseg' & fresh & Hrun & Hdata' & Hcnt & Hst & Hty' & Hpar & Hstats
          & Hupd & Hstart' & Hkind' & Hfresh & Hsum & Hrows & Hcont & Hcur' & Hcov).
    { done. }
    { unfold c2. rewrite AppendTransientSegment_data. change (type c1) with (type c).
      by rewrite Htype. }
    { done. }
    { by apply fresh_segment_fits. }
    { lia. }
    { simpl. lia. }
    { right. split; [by apply fresh_segment_room|].
      destruct Hfuel as [Hfuel|(Hroom & Hfuel & _)]; lia. }
    change (count c2) with (count c) in Hcnt. change (start c2) with (start c) in Hst.
    change (type c2) with (type c) in Hty'. change (parent c2) with (parent c) in Hpar.
    change (stats c2) with (stats c) in Hstats. change (updates c2) with (updates c) in Hupd.
    exists c', state', seg1, (nseg' :: fresh). rewrite Hrun.
    split; [done|]. split; [by rewrite Hdata', <- app_assoc|].
    split; [done|]. split; [done|]. split; [congruence|]. split; [done|].
    split; [done|]. split; [done|]. split; [done|]. split; [done|].
    split.
    { apply Forall_cons. split; [by rewrite Hkind'|done]. }
    split.
    { change (seg1 :: nseg' :: fresh) with ([seg1] ++ nseg' :: fresh).
      rewrite sum_counts_app, sum_counts_singleton, Hsum. simpl. lia. }
    split.
    { change (seg1 :: nseg' :: fresh) with ([seg1] ++ nseg' :: fresh).
      rewrite all_rows_app, all_rows_singleton, Hrows. simpl.
      rewrite <- app_assoc. f_equal.
      replace (N.to_nat remaining) with (N.to_nat copied + N.to_nat (remaining - copied))%nat
        by lia.
      rewrite slice_app. f_equal. f_equal. lia. }
    split.
    { change (seg1 :: nseg' :: fresh) with ([seg1] ++ nseg' :: fresh).
      apply contiguous_app. split; [done|].
      rewrite sum_counts_singleton. simpl.
      replace (ColumnSegment.start seg + (ColumnSegment.count seg + copied))
        with (ColumnSegment.start nseg) by (simpl; lia).
      done. }
    split; [rewrite Hcur', length_app; simpl; f_equal; lia|].
    intros v Hv.
    replace (N.to_nat remaining) with (N.to_nat copied + N.to_nat (remaining - copied))%nat
      in Hv by lia.
    rewrite slice_app in Hv. apply elem_of_app in Hv as [Hv|Hv].
    + change (foldl Merge append_stats (ColumnSegment.stats <$> seg1 :: nseg' :: fresh))
        with (foldl Merge (Merge append_stats (ColumnSegment.stats seg1))
                (ColumnSegment.stats <$> nseg' :: fresh)).
      apply covers_foldl_Merge, covers_Merge_r. by apply covers_stats_update.
    + apply Hcov. by replace (N.to_nat (offset + copied))
        with (N.to_nat offset + N.to_nat copied)%nat by lia.
Qed.

Lemma GetLastSegment_snoc (front : SegmentTree) seg :
  GetLastSegment (front ++ [seg]) = Some (length front).
Proof.
  unfold GetLastSegment. destruct (front ++ [seg]) eqn:Hl.
  - by destruct front.
  - rewrite <- Hl, length_app. simpl. f_equal. lia.
Qed.

Lemma snoc_cases {A} (l : list A) : l = [] ∨ ∃ front x, l = front ++ [x].
Proof.
  induction l as [|x l _] using rev_ind; [by left|]. right. by exists l, x.
Qed.

(** [InitializeAppend] leaves the cursor on a transient tail segment, adding
    an empty one when the tree has none to write to. *)
Lemma InitializeAppend_correct debug c state :
  contiguous (start c) (data c) →
  start c + sum_counts (data c) < IDX_MODULUS →
  Forall appendable_ok (data c) →
  ∃ c1 state1 front seg,
    InitializeAppend debug c state = Ok (c1, state1)
    ∧ data c1 = front ++ [seg]
    ∧ ColumnAppendState.current state1 = Some (length front)
    ∧ ColumnSegment.segment_type seg = TRANSIENT
    ∧ (data c1 = data c
       ∨ ∃ s, data c1
              = data c ++ [CreateTransientSegment (type c) s (transient_size (type c) s)])
    ∧ contiguous (start c) (data c1)
    ∧ count c1 = count c ∧ start c1 = start c ∧ type c1 = type c
    ∧ parent c1 = parent c ∧ stats c1 = stats c ∧ updates c1 = updates c.
Proof.
  intros Hcont Hend Happ. unfold InitializeAppend.
  destruct (snoc_cases (data c)) as [Hnil|(front & seg & Hdata)].
  - (* no segment yet *)
    destruct c as [st cnt bm ci ty par dat upd sts alloc]. simpl in *. subst dat. simpl.
    rewrite !D_ASSERT_holds. simpl.
    eexists _, _, [], _. split; [done|]. simpl.
    repeat split; try done. right. by exists st.
  - assert (match data c with [] => AppendTransientSegment c (start c) | _ :: _ => c end
            = c) as ->.
    { rewrite Hdata. by destruct front. }
    rewrite Hdata, GetLastSegment_snoc. cbn [deref].
    rewrite Ok_bind, list_lookup_middle by done. cbn [deref]. rewrite Ok_bind.
    rewrite Hdata in Hcont, Hend, Happ.
    apply contiguous_app in Hcont as [Hfront Hseg]. destruct Hseg as [Hstart _].
    rewrite sum_counts_app, sum_counts_singleton in Hend.
    apply Forall_app in Happ as [_ Happ]. rewrite Forall_singleton in Happ.
    destruct (bool_decide (ColumnSegment.segment_type seg = PERSISTENT)
              || negb (init_append (ColumnSegment.function seg))) eqn:Hsealed.
    + (* the tail cannot be written to *)
      rewrite !AppendTransientSegment_data, !Hdata.
      set (total_rows := idx_add (ColumnSegment.start seg) (ColumnSegment.count seg)).
      assert (total_rows = ColumnSegment.start seg + ColumnSegment.count seg) as Htotal
        by (apply idx_add_small; lia).
      set (nseg := CreateTransientSegment _ _ _).
      rewrite GetLastSegment_snoc. cbn [deref ColumnAppendState.current]. rewrite Ok_bind.
      rewrite list_lookup_middle by done. cbn [deref]. rewrite Ok_bind.
      change (bool_decide (ColumnSegment.segment_type nseg = TRANSIENT)) with true.
      change (append (ColumnSegment.function nseg)) with true.
      rewrite !D_ASSERT_holds, !Ok_bind.
      eexists _, _, (front ++ [seg]), nseg. split; [done|].
      rewrite AppendTransientSegment_data, Hdata. fold nseg.
      split; [done|]. split; [done|]. split; [done|].
      split; [right; by exists total_rows|].
      split; [|done].
      apply contiguous_app. split; [apply contiguous_app; by split|].
      rewrite sum_counts_app, sum_counts_singleton. simpl. split; [|done]. lia.
    + (* the tail is a writable transient segment *)
      apply orb_false_elim in Hsealed as [Hkind Hinit].
      apply bool_decide_eq_false in Hkind. apply negb_false_iff in Hinit.
      assert (ColumnSegment.segment_type seg = TRANSIENT) as Htransient
        by (by destruct (ColumnSegment.segment_type seg)).
      cbn [deref ColumnAppendState.current]. rewrite Ok_bind.
      rewrite Hdata, list_lookup_middle by done. cbn [deref]. rewrite Ok_bind.
      rewrite bool_decide_true by done. rewrite (Happ Hinit).
      rewrite !D_ASSERT_holds, !Ok_bind.
      eexists _, _, front, seg. split; [done|]. rewrite Hdata.
      split; [done|]. split; [done|]. split; [done|]. split; [by left|].
      split; [|done]. apply contiguous_app. by split.
Qed.

(** C1. After [InitializeAppend], [AppendData] with enough fuel for its
    loop returns.  The count is raised by the number of rows before the loop
    starts and is what the loop ends with.  The tail segment and then newly
    allocated transient segments take the rows in order, the tree staying
    contiguous, so that the segment counts add up to the count again; the
    statistics returned are the caller's merged with those of every segment
    that was written to, in order, and cover every row appended. *)
Theorem AppendData_absorbs_all_rows
    (debug : bool) (fuel : nat) (c : ColumnData) (state : ColumnAppendState)
    (append_stats : BaseStatistics) (vdata : Vector) (append_count : idx_t) :
  type_size_ok (type c) →
  contiguous (start c) (data c) →
  sum_counts (data c) = count c →
  Forall segment_fits (data c) →
  Forall appendable_ok (data c) →
  start c + count c + append_count < IDX_MODULUS →
  (N.to_nat append_count < fuel)%nat →
  ∃ c1 state1 c' state' front seg' fresh,
    InitializeAppend debug c state = Ok (c1, state1)
    ∧ AppendData fuel c1 append_stats state1 vdata append_count
      = AppendData_loop fuel (set_count c1 (count c + append_count))
          append_stats state1 vdata 0 append_count
    ∧ AppendData fuel c1 append_stats state1 vdata append_count
      = Ok (c', foldl Merge append_stats (ColumnSegment.stats <$> seg' :: fresh), state')
    ∧ count c' = count c + append_count
    ∧ sum_counts (data c') = count c'
    ∧ data c' = front ++ seg' :: fresh
    ∧ take (length front) (data c1) = front
    ∧ length (data c1) = S (length front)
    ∧ Forall (fun s => ColumnSegment.segment_type s = TRANSIENT) (seg' :: fresh)
    ∧ all_rows (data c') = all_rows (data c) ++ slice vdata 0 (N.to_nat append_count)
    ∧ contiguous (start c') (data c')
    ∧ start c' = start c
    ∧ ColumnAppendState.current state' = GetLastSegment (data c')
    ∧ (∀ v, v ∈ slice vdata 0 (N.to_nat append_count) →
            covers (foldl Merge append_stats (ColumnSegment.stats <$> seg' :: fresh)) v).
Proof.
  intros Hty Hcont Hsum Hfits Happ Hend Hfuel.
  destruct (InitializeAppend_correct debug c state Hcont) as
    (c1 & state1 & front & seg & Hinit & Hdata1 & Hcur1 & Htransient & Hgrow & Hcont1
     & Hcount1 & Hstart1 & Htype1 & _); [lia|done|].
  assert (sum_counts (data c1) = count c ∧ all_rows (data c1) = all_rows (data c)
          ∧ Forall segment_fits (data c1)) as (Hsum1 & Hrows1 & Hfits1).
  { destruct Hgrow as [->|(s & ->)]; [done|].
    rewrite sum_counts_app, all_rows_app, sum_counts_singleton, all_rows_singleton. simpl.
    rewrite N.add_0_r, app_nil_r. split; [done|]. split; [done|].
    apply Forall_app. split; [done|]. apply Forall_singleton. by apply fresh_segment_fits. }
  rewrite Hdata1 in Hcont1, Hsum1, Hrows1, Hfits1.
  apply contiguous_app in Hcont1 as [Hcfront [Hsegstart _]].
  rewrite sum_counts_app, sum_counts_singleton in Hsum1.
  rewrite all_rows_app, all_rows_singleton in Hrows1.
  apply Forall_app in Hfits1 as [_ Hsegfits]. rewrite Forall_singleton in Hsegfits.
  assert (∀ st, AppendData fuel c1 append_stats st vdata append_count
                = AppendData_loop fuel (set_count c1 (count c + append_count))
                    append_stats st vdata 0 append_count) as Hbump.
  { intros st. unfold AppendData. by rewrite Hcount1, idx_add_small by lia. }
  destruct (AppendData_loop_correct (type c) vdata Hty fuel
              (set_count c1 (count c + append_count)) append_stats state1 0 append_count
              front seg)
    as (c' & state' & seg' & fresh & Hrun & Hdata' & Hcnt & Hst & _ & _ & _ & _
        & Hstart' & Hkind' & Hfresh & Hsum' & Hrows' & Hcont' & Hcur' & Hcov);
    [done|done|done|done|lia|lia|by left|].
  exists c1, state1, c', state', front, seg', fresh.
  split; [done|]. split; [done|]. split; [by rewrite Hbump|]. split; [done|].
  split; [rewrite Hdata', sum_counts_app, Hsum', Hcnt; simpl; lia|].
  split; [done|]. split; [by rewrite Hdata1, take_app_length|].
  split; [rewrite Hdata1, length_app; simpl; lia|].
  split; [apply Forall_cons; split; [congruence|done]|].
  split; [by rewrite Hdata', all_rows_app, Hrows', <- Hrows1, app_assoc|].
  split.
  { rewrite Hdata'. apply contiguous_app. rewrite Hst. simpl. rewrite Hstart1.
    split; [done|]. by rewrite <- Hsegstart. }
  split; [by rewrite Hst|]. split; [|done].
  rewrite Hcur', Hdata'.
  change (seg' :: fresh) with ([seg'] ++ fresh). rewrite app_assoc.
  destruct (snoc_cases fresh) as [->|(f & x & ->)].
  - rewrite app_nil_r, GetLastSegment_snoc. simpl. f_equal. lia.
  - rewrite app_assoc, GetLastSegment_snoc. rewrite !length_app. simpl. f_equal. lia.
Qed.

(** * Further properties *)

Context {collaborator : UpdateCollaborator}.

(** ** Scanning a well-formed column *)

Lemma cursor_at_in_column c i seg state :
  cursor_at (data c) i seg state →
  (ColumnScanState.initialized state = true →
   ColumnScanState.internal_index state ≤ ColumnScanState.row_index state) →
  cursor_in_column c state.
Proof.
  intros (Hcur & Hi & _ & _ & _ & Hrow) Hint. by exists i, seg.
Qed.

(** [ScanVector] on a well-formed column, in terms of the column alone. *)
Lemma ScanVector_in_column debug c state result remaining hu :
  column_ok c → cursor_in_column c state → remaining < IDX_MODULUS →
  let n := N.min remaining (start c + count c - ColumnScanState.row_index state) in
  ∃ state' result',
    ScanVector debug c state result remaining hu = Ok (state', result', n)
    ∧ cursor_in_column c state'
    ∧ ColumnScanState.row_index state' = ColumnScanState.row_index state + n
    ∧ take (N.to_nat n) result'
      = take (N.to_nat n) (rows_from c (ColumnScanState.row_index state))
    ∧ (N.to_nat n ≤ length result')%nat
    ∧ ColumnScanState.initialized state' = true.
Proof.
  intros Hok (i & seg & Hcurrent & Hi & Hrow & Hint) Hrem n.
  destruct (cursor_at_of_column c i seg state Hok Hcurrent Hi Hrow)
    as (Hcur & Htype & Hend & Hahead).
  destruct (ScanVector_correct debug c state result remaining hu i seg Hcur Htype Hint Hrem)
    as (state' & result' & j & seg' & Hrun & Hcur' & _ & Hri & Hii & Hini & Hres & Hlen).
  rewrite Hend in Hrun, Hri, Hres, Hlen. fold n in Hrun, Hri, Hres, Hlen.
  exists state', result'. split; [done|]. split.
  { eapply cursor_at_in_column; [done|]. intros _. lia. }
  split; [done|]. split; [by rewrite Hres, Hahead|]. done.
Qed.

Lemma rows_from_length c row :
  column_ok c → length (rows_from c row) = N.to_nat (start c + count c - row - (start c - row)).
Proof.
  intros (_ & Hrows & Hsum & _). unfold rows_from.
  rewrite length_drop, all_rows_length by done. lia.
Qed.

Lemma rows_from_add c row n :
  start c ≤ row → rows_from c (row + n) = drop (N.to_nat n) (rows_from c row).
Proof.
  intros Hrow. unfold rows_from. rewrite drop_drop. f_equal. lia.
Qed.

Lemma contiguous_head first t s :
  contiguous first t → t !! 0%nat = Some s → ColumnSegment.start s = first.
Proof. destruct t; [done|]. intros [Hs _] [= <-]. done. Qed.

(** X1. On a well-formed column that has a segment, [InitializeScan] puts
    the cursor where [Scan] of block 0 expects it, and [Scan] of a block
    from a cursor standing there returns that block and, when the block is
    a full one, leaves the cursor where [Scan] of the next block expects
    it. *)
Theorem InitializeScan_then_Scan_walks_the_blocks (c : ColumnData) :
  column_ok c → data c ≠ [] →
  (∀ state, scan_ready c 0 (InitializeScan c state))
  ∧ (∀ debug transaction vector_index state result,
       scan_ready c vector_index state →
       vector_index * STANDARD_VECTOR_SIZE < count c →
       ∃ state' result',
         Scan debug c transaction vector_index state result
         = Ok (state', result',
               N.min STANDARD_VECTOR_SIZE (count c - vector_index * STANDARD_VECTOR_SIZE))
         ∧ ((vector_index + 1) * STANDARD_VECTOR_SIZE ≤ count c →
            scan_ready c (vector_index + 1) state')).
Proof.
  intros Hok Hne. split.
  - intros state. destruct (data c) as [|s t] eqn:Hdata; [done|].
    pose proof Hok as (Hcont & _). rewrite Hdata in Hcont. destruct Hcont as [Hs _].
    unfold scan_ready, cursor_in_column, InitializeScan. rewrite Hdata. simpl.
    split; [|lia]. exists 0%nat, s. simpl. split; [done|]. split; [done|].
    split; [lia|done].
  - intros debug transaction vector_index state result [Hcur Hri] Hvi.
    pose proof Hok as (_ & _ & _ & Hmod & _).
    set (n := N.min STANDARD_VECTOR_SIZE (count c - vector_index * STANDARD_VECTOR_SIZE)).
    assert (n < IDX_MODULUS) as Hn by (unfold n, STANDARD_VECTOR_SIZE, IDX_MODULUS; lia).
    destruct (ScanVector_in_column debug c state result n (HasUpdates c) Hok Hcur Hn)
      as (state' & decoded & Hrun & Hcur' & Hri' & _ & _ & _).
    assert (N.min n (start c + count c - ColumnScanState.row_index state) = n) as Hmin
      by (rewrite Hri; unfold n; lia).
    rewrite Hmin in Hrun, Hri'.
    unfold Scan, ScanVector_updates, idx_mul.
    rewrite (wrap_small (vector_index * STANDARD_VECTOR_SIZE)) by lia.
    rewrite idx_sub_small by lia. fold n. rewrite Hrun, Ok_bind.
    unfold FetchUpdates. simpl.
    destruct (updates c); simpl; eexists _, _; (split; [done|]);
      intros Hfull; (split; [done|]); rewrite Hri', Hri;
      unfold n, STANDARD_VECTOR_SIZE in *; lia.
Qed.

(** X2. On a well-formed column without updates, counting off [a] rows and
    then [b] rows with [ScanCount] decodes the rows that one [ScanCount] of
    [a + b] decodes and leaves the cursor at the same row; a count of zero
    does nothing at all. *)
Theorem ScanCount_in_two_steps
    (debug : bool) (c : ColumnData) (state : ColumnScanState)
    (result_a result_b result_ab : Vector) (a b : idx_t) :
  column_ok c → updates c = None → cursor_in_column c state →
  a + b < IDX_MODULUS →
  ∃ state_a decoded_a n_a state_b decoded_b n_b state_ab decoded_ab,
    ScanCount debug c state result_a a = Ok (state_a, decoded_a, n_a)
    ∧ ScanCount debug c state_a result_b b = Ok (state_b, decoded_b, n_b)
    ∧ ScanCount debug c state result_ab (a + b) = Ok (state_ab, decoded_ab, n_a + n_b)
    ∧ take (N.to_nat (n_a + n_b)) decoded_ab
      = take (N.to_nat n_a) decoded_a ++ take (N.to_nat n_b) decoded_b
    ∧ ColumnScanState.row_index state_ab = ColumnScanState.row_index state_b
    ∧ (a = 0 → state_a = state ∧ decoded_a = result_a).
Proof.
  intros Hok Hnone Hcur Hab.
  assert (HasUpdates c = false) as Hno by (unfold HasUpdates; by rewrite Hnone).
  assert (∀ st res k, cursor_in_column c st → k < IDX_MODULUS →
            let n := N.min k (start c + count c - ColumnScanState.row_index st) in
            ∃ st' res',
              ScanCount debug c st res k = Ok (st', res', n)
              ∧ cursor_in_column c st'
              ∧ ColumnScanState.row_index st' = ColumnScanState.row_index st + n
              ∧ take (N.to_nat n) res'
                = take (N.to_nat n) (rows_from c (ColumnScanState.row_index st))
              ∧ (k = 0 → st' = st ∧ res' = res)) as Hstep.
  { intros st res k Hst Hk n. unfold ScanCount.
    destruct (N.eqb_spec k 0) as [->|Hpos].
    - exists st, res. subst n. rewrite N.min_0_l, N.add_0_r. by rewrite !take_0.
    - rewrite Hno. simpl. rewrite D_ASSERT_holds, Ok_bind.
      destruct (ScanVector_in_column debug c st res k false Hok Hst Hk)
        as (st' & res' & Hrun & Hst' & Hri & Hres & _).
      exists st', res'. repeat split; try done. }
  destruct (Hstep state result_a a Hcur) as (sa & ra & Hra & Hca & Hria & Hresa & Hzero);
    [lia|].
  destruct (Hstep sa result_b b Hca) as (sb & rb & Hrb & Hcb & Hrib & Hresb & _); [lia|].
  destruct (Hstep state result_ab (a + b) Hcur) as (sab & rab & Hrab & _ & Hriab & Hresab & _);
    [lia|].
  destruct Hcur as (i & seg & _ & Hi & Hrow & _).
  pose proof Hok as (Hcont & _ & Hsum & _).
  pose proof (contiguous_lookup _ _ _ _ Hcont Hi) as Hstart.
  pose proof (sum_counts_split i (data c)) as Hsplit.
  rewrite (drop_S _ _ _ Hi) in Hsplit. simpl in Hsplit.
  set (ri := ColumnScanState.row_index state) in *.
  set (na := N.min a (start c + count c - ri)) in *.
  set (nb := N.min b (start c + count c - ColumnScanState.row_index sa)) in *.
  assert (N.min (a + b) (start c + count c - ri) = na + nb) as Hsumn
    by (unfold na, nb; rewrite Hria; unfold na; lia).
  rewrite Hsumn in Hrab, Hriab, Hresab.
  exists sa, ra, na, sb, rb, nb, sab, rab.
  split; [done|]. split; [done|]. split; [done|]. split.
  - rewrite Hresab, Hresa, Hresb, Hria. rewrite rows_from_add by lia.
    replace (N.to_nat (na + nb)) with (N.to_nat na + N.to_nat nb)%nat by lia.
    by rewrite take_take_drop.
  - split; [lia|done].
Qed.

(** X3. The row-at-a-time path of [ScanVector], taken when
    [force_fetch_row] is set, decodes the same rows and moves the cursor as
    far as the bulk path does. *)
Theorem ScanVector_force_fetch_row_decodes_the_same
    (debug : bool) (c : ColumnData) (state : ColumnScanState) (result : Vector)
    (remaining : idx_t) (has_updates : bool) :
  column_ok c → cursor_in_column c state → remaining < IDX_MODULUS →
  ∃ state_rows decoded_rows state_bulk decoded_bulk n,
    ScanVector debug c (with_force_fetch_row state true) result remaining has_updates
    = Ok (state_rows, decoded_rows, n)
    ∧ ScanVector debug c (with_force_fetch_row state false) result remaining has_updates
      = Ok (state_bulk, decoded_bulk, n)
    ∧ take (N.to_nat n) decoded_rows = take (N.to_nat n) decoded_bulk
    ∧ ColumnScanState.row_index state_rows = ColumnScanState.row_index state_bulk.
Proof.
  intros Hok Hcur Hrem.
  assert (∀ flag, cursor_in_column c (with_force_fetch_row state flag)) as Hflag.
  { intros flag. destruct Hcur as (i & seg & H). by exists i, seg. }
  destruct (ScanVector_in_column debug c _ result remaining has_updates Hok (Hflag true) Hrem)
    as (s1 & r1 & Hrun1 & _ & Hri1 & Hres1 & _).
  destruct (ScanVector_in_column debug c _ result remaining has_updates Hok (Hflag false) Hrem)
    as (s2 & r2 & Hrun2 & _ & Hri2 & Hres2 & _).
  simpl in *.
  exists s1, r1, s2, r2. eexists. split; [exact Hrun1|]. split; [exact Hrun2|].
  split; [by rewrite Hres1, Hres2|]. lia.
Qed.

(** ** Single rows *)

Lemma find_segment_None_above first t row k :
  contiguous first t → first + sum_counts t ≤ row → find_segment t row k = None.
Proof.
  revert first k. induction t as [|s t IH]; intros first k Hc Hge; simpl in *; [done|].
  destruct Hc as [Hs Hc].
  destruct (in_segment row s) eqn:Hin.
  - apply in_segment_true in Hin. lia.
  - eapply IH; [done|]. lia.
Qed.

Lemma GetSegment_outside c row :
  contiguous (start c) (data c) → sum_counts (data c) = count c →
  ¬ (start c ≤ row < start c + count c) →
  GetSegment (data c) row = Throw InternalException.
Proof.
  intros Hcont Hsum Hout. unfold GetSegment, GetSegmentIndex.
  destruct (decide (row < start c)) as [Hlt|Hge].
  - by rewrite (find_segment_None_below _ _ _ _ Hcont Hlt).
  - rewrite (find_segment_None_above (start c)); [done|done|lia].
Qed.

Lemma GetSegment_inside c row :
  column_ok c → start c ≤ row < start c + count c →
  ∃ i seg, GetSegment (data c) row = Ok i ∧ data c !! i = Some seg
           ∧ ColumnSegment.start seg ≤ row < ColumnSegment.start seg + ColumnSegment.count seg.
Proof.
  intros (Hcont & _ & Hsum & _) Hrow.
  destruct (find_segment_contiguous (start c) (data c) row 0 Hcont)
    as (i & seg & Hfind & Hi & Hseg); [lia|].
  exists i, seg. unfold GetSegment, GetSegmentIndex. by rewrite Hfind.
Qed.

Lemma all_rows_lookup_segment first t i seg row :
  contiguous first t → rows_ok t → t !! i = Some seg →
  ColumnSegment.start seg ≤ row < ColumnSegment.start seg + ColumnSegment.count seg →
  all_rows t !! N.to_nat (row - first)
  = ColumnSegment.rows seg !! N.to_nat (row - ColumnSegment.start seg).
Proof.
  intros Hcont Hrows Hi Hrow.
  pose proof (contiguous_lookup _ _ _ _ Hcont Hi) as Hstart.
  rewrite <- (take_drop_middle _ _ _ Hi) at 1.
  rewrite all_rows_app, all_rows_cons.
  assert (length (all_rows (take i t)) = N.to_nat (sum_counts (take i t))) as Hlen.
  { apply all_rows_length. by apply Forall_take. }
  assert (length (ColumnSegment.rows seg) = N.to_nat (ColumnSegment.count seg)) as Hseg.
  { unfold rows_ok in Hrows. rewrite Forall_lookup in Hrows. by eapply Hrows. }
  rewrite lookup_app_r by lia. rewrite lookup_app_l by lia. f_equal. lia.
Qed.

Lemma vector_write_lookup v off vals j :
  (j < length vals)%nat → vector_write v off vals !! (off + j)%nat = vals !! j.
Proof.
  intros Hj. unfold vector_write.
  assert (length (take off (v ++ replicate (off - length v) Null)) = off) as Hlen.
  { rewrite length_take, length_app, length_replicate. lia. }
  rewrite lookup_app_r by lia. rewrite Hlen.
  replace (off + j - off)%nat with j by lia. by rewrite lookup_app_l.
Qed.

Lemma vector_write_lookup_other v off vals j :
  (j < off ∨ off + length vals ≤ j)%nat → (j < length v)%nat →
  vector_write v off vals !! j = v !! j.
Proof.
  intros Hj Hlt. unfold vector_write.
  assert (length (take off (v ++ replicate (off - length v) Null)) = off) as Hlen.
  { rewrite length_take, length_app, length_replicate. lia. }
  destruct (decide (j < off)%nat) as [Hlow|Hhigh].
  - rewrite lookup_app_l by lia. rewrite lookup_take_lt by done.
    by rewrite lookup_app_l.
  - rewrite lookup_app_r by lia. rewrite lookup_app_r by lia.
    rewrite lookup_drop, Hlen. f_equal. lia.
Qed.

(** The segment part of [FetchRow]: the stored value of the row goes into
    the result at [result_idx] and the row's updates are merged into that. *)
Lemma FetchRow_in_segment
    (c : ColumnData) (transaction : TransactionData) (row_id : row_t)
    (result : Vector) (result_idx : idx_t) :
  column_ok c →
  (0 ≤ row_id)%Z →
  start c ≤ Z.to_N row_id < start c + count c →
  ∃ stored written,
    all_rows (data c) !! N.to_nat (Z.to_N row_id - start c) = Some stored
    ∧ FetchRow c transaction row_id result result_idx
      = FetchUpdateRow c transaction row_id written result_idx
    ∧ written !! N.to_nat result_idx = Some stored
    ∧ (∀ j, j ≠ N.to_nat result_idx → (j < length result)%nat →
            written !! j = result !! j).
Proof.
  intros Hok Hnonneg Hrow.
  pose proof Hok as (Hcont & Hrows & Hsum & Hmod & _).
  assert (idx_of_row row_id = Z.to_N row_id) as Hcast
    by (apply idx_of_row_small; [done|lia]).
  set (r := Z.to_N row_id) in *.
  destruct (GetSegment_inside c r Hok Hrow) as (i & seg & Hget & Hi & Hseg).
  pose proof (all_rows_lookup_segment _ _ _ _ r Hcont Hrows Hi Hseg) as Hlook.
  assert (length (ColumnSegment.rows seg) = N.to_nat (ColumnSegment.count seg)) as Hlen.
  { unfold rows_ok in Hrows. rewrite Forall_lookup in Hrows. by eapply Hrows. }
  destruct (lookup_lt_is_Some_2 (ColumnSegment.rows seg)
              (N.to_nat (r - ColumnSegment.start seg))) as [stored Hstored]; [lia|].
  exists stored. unfold FetchRow. rewrite Hcast, Hget, Ok_bind, Hi. cbn [deref].
  rewrite Ok_bind. unfold ColumnSegment_FetchRow.
  rewrite idx_sub_small by lia.
  eexists. split; [by rewrite Hlook|]. split; [done|]. split.
  - pose proof (vector_write_lookup result (N.to_nat result_idx)
                  (slice (ColumnSegment.rows seg) (N.to_nat (r - ColumnSegment.start seg)) 1)
                  0) as Hw.
    rewrite Nat.add_0_r in Hw. rewrite Hw by (rewrite slice_length; lia).
    rewrite slice_lookup. rewrite decide_True by lia.
    by rewrite Nat.add_0_r, Hstored.
  - intros j Hj Hlt. apply vector_write_lookup_other; [|done].
    rewrite slice_length. lia.
Qed.

(** X4. [FetchRow] of a row of a well-formed column writes at
    [result_idx] the value stored for that row, or the value of the latest
    update of the row the transaction can see, and leaves the other entries
    of the result as they were. *)
Theorem FetchRow_reads_the_row
    (c : ColumnData) (transaction : TransactionData) (row_id : row_t)
    (result : Vector) (result_idx : idx_t) :
  column_ok c →
  (0 ≤ row_id)%Z →
  start c ≤ Z.to_N row_id < start c + count c →
  ∃ stored result',
    all_rows (data c) !! N.to_nat (Z.to_N row_id - start c) = Some stored
    ∧ FetchRow c transaction row_id result result_idx = Ok result'
    ∧ result' !! N.to_nat result_idx
      = Some (visible_value c transaction (Z.to_N row_id) stored)
    ∧ (∀ j, j ≠ N.to_nat result_idx → (j < length result)%nat →
            result' !! j = result !! j).
Proof.
  intros Hok Hnonneg Hrow.
  destruct (FetchRow_in_segment c transaction row_id result result_idx Hok Hnonneg Hrow)
    as (stored & written & Hstored & -> & Hat & Hother).
  exists stored.
  unfold FetchUpdateRow, visible_value, NumericCast_idx.
  destruct (updates c) as [u|].
  - rewrite (proj2 (Z.ltb_ge _ _)) by lia. rewrite Ok_bind.
    eexists. split; [done|]. split; [done|].
    unfold UpdateSegment_FetchRow.
    destruct (latest _ _) as [v|]; simpl.
    + split.
      * apply list_lookup_insert_eq. by eapply lookup_lt_Some.
      * intros j Hj Hlt. rewrite list_lookup_insert_ne by done. by apply Hother.
    + done.
  - by exists written.
Qed.

(** [FetchRow] on a column without updates. *)
Lemma FetchRow_stored
    (c : ColumnData) (transaction : TransactionData) (row_id : row_t)
    (result : Vector) (result_idx : idx_t) :
  column_ok c → updates c = None →
  (0 ≤ row_id)%Z →
  start c ≤ Z.to_N row_id < start c + count c →
  ∃ stored result',
    all_rows (data c) !! N.to_nat (Z.to_N row_id - start c) = Some stored
    ∧ FetchRow c transaction row_id result result_idx = Ok result'
    ∧ result' !! N.to_nat result_idx = Some stored.
Proof.
  intros Hok Hnone Hnonneg Hrow.
  destruct (FetchRow_in_segment c transaction row_id result result_idx Hok Hnonneg Hrow)
    as (stored & written & Hstored & -> & Hat & _).
  exists stored, written. unfold FetchUpdateRow. by rewrite Hnone.
Qed.

(** X5. A row outside [start, start + count) of a column whose segments are
    contiguous is refused with an internal error by [FetchRow], by
    [InitializeScanWithOffset] and by [ScanCommittedRange] alike, a negative
    row id being read as the row id plus [2^64]. *)
Theorem row_outside_the_column_is_an_internal_error
    (debug : bool) (c : ColumnData) (transaction : TransactionData)
    (state : ColumnScanState) (result : Vector) :
  contiguous (start c) (data c) → sum_counts (data c) = count c →
  (∀ row_id result_idx,
     ¬ (start c ≤ idx_of_row row_id < start c + count c) →
     FetchRow c transaction row_id result result_idx = Throw InternalException)
  ∧ (∀ row_idx,
       ¬ (start c ≤ row_idx < start c + count c) →
       InitializeScanWithOffset c state row_idx = Throw InternalException)
  ∧ (∀ row_group_start offset_in_row_group s_count,
       ¬ (start c ≤ idx_add row_group_start offset_in_row_group < start c + count c) →
       ScanCommittedRange debug c row_group_start offset_in_row_group s_count result
       = Throw InternalException).
Proof.
  intros Hcont Hsum. split; [|split].
  - intros row_id result_idx Hout. unfold FetchRow.
    by rewrite (GetSegment_outside c _ Hcont Hsum Hout).
  - intros row_idx Hout. unfold InitializeScanWithOffset.
    by rewrite (GetSegment_outside c _ Hcont Hsum Hout).
  - intros row_group_start offset_in_row_group s_count Hout.
    unfold ScanCommittedRange, InitializeScanWithOffset.
    by rewrite (GetSegment_outside c _ Hcont Hsum Hout).
Qed.

(** [Fetch] for a row at or after the column start: the segment of the
    block start is looked up and 1024 rows are asked of [ScanVector]. *)
Lemma Fetch_at_block (debug : bool) (c : ColumnData) (state : ColumnScanState)
    (row_id : row_t) (result : Vector) :
  (0 ≤ row_id)%Z →
  start c ≤ Z.to_N row_id < IDX_MODULUS →
  let block_start :=
    start c + (Z.to_N row_id - start c) / STANDARD_VECTOR_SIZE * STANDARD_VECTOR_SIZE in
  start c ≤ block_start
  ∧ Fetch debug c state row_id result
    = (i ← GetSegment (data c) block_start;
       seg ← deref (data c !! i);
       ScanVector debug c
         (ColumnScanState.set_internal_index
            (ColumnScanState.set_current
               (ColumnScanState.set_row_index state block_start) (Some i))
            (ColumnSegment.start seg))
         result STANDARD_VECTOR_SIZE false).
Proof.
  intros Hnonneg Hrow block_start.
  assert (idx_of_row row_id = Z.to_N row_id) as Hcast
    by (apply idx_of_row_small; [done|lia]).
  set (r := Z.to_N row_id) in *.
  assert (block_start ≤ r ∧ start c ≤ block_start) as [Hb1 Hb2].
  { unfold block_start, STANDARD_VECTOR_SIZE. lia. }
  assert (idx_add (start c)
            (idx_mul (idx_sub r (start c) / STANDARD_VECTOR_SIZE) STANDARD_VECTOR_SIZE)
          = block_start) as Hblock.
  { rewrite idx_sub_small by lia.
    unfold idx_mul. rewrite wrap_small; [apply idx_add_small|];
      unfold block_start, STANDARD_VECTOR_SIZE in *; lia. }
  split; [done|].
  unfold Fetch. rewrite Hcast.
  rewrite (bool_decide_true (0 ≤ row_id)%Z) by lia.
  rewrite (bool_decide_true (start c ≤ r)) by lia.
  rewrite !D_ASSERT_holds, !Ok_bind.
  cbn [ColumnScanState.row_index ColumnScanState.set_row_index].
  by rewrite Hblock.
Qed.

(** [Fetch] on a well-formed column, by where the block of the row
    starts. *)
Lemma Fetch_in_column (debug : bool) (c : ColumnData) (state : ColumnScanState)
    (row_id : row_t) (result : Vector) :
  column_ok c →
  (0 ≤ row_id)%Z →
  start c ≤ Z.to_N row_id < IDX_MODULUS →
  let block_start :=
    start c + (Z.to_N row_id - start c) / STANDARD_VECTOR_SIZE * STANDARD_VECTOR_SIZE in
  block_start < start c + count c →
  ∃ i seg,
    data c !! i = Some seg
    ∧ ColumnSegment.start seg ≤ block_start
        < ColumnSegment.start seg + ColumnSegment.count seg
    ∧ Fetch debug c state row_id result
      = ScanVector debug c
          (ColumnScanState.set_internal_index
             (ColumnScanState.set_current
                (ColumnScanState.set_row_index state block_start) (Some i))
             (ColumnSegment.start seg))
          result STANDARD_VECTOR_SIZE false.
Proof.
  intros Hok Hnonneg Hrow block_start Hin.
  destruct (Fetch_at_block debug c state row_id result Hnonneg Hrow) as [Hlow Hfetch].
  fold block_start in Hlow, Hfetch.
  destruct (GetSegment_inside c block_start Hok) as (i & seg & Hget & Hi & Hseg); [lia|].
  exists i, seg. split; [done|]. split; [done|].
  rewrite Hfetch, Hget, Ok_bind, Hi. cbn [deref]. by rewrite Ok_bind.
Qed.

(** X6. [Fetch] looks at the row only through its 1024-row block: for any
    row at or after the column start, it returns the stored rows of the
    block when the block starts inside the column, also for a row that lies
    past the end of the column, and it fails with an internal error when the
    block starts at or after the end. *)
Theorem Fetch_depends_on_the_block_only
    (debug : bool) (c : ColumnData) (state : ColumnScanState) (row_id : row_t)
    (result : Vector) :
  column_ok c →
  (0 ≤ row_id)%Z →
  start c ≤ Z.to_N row_id < IDX_MODULUS →
  let block_start :=
    start c + (Z.to_N row_id - start c) / STANDARD_VECTOR_SIZE * STANDARD_VECTOR_SIZE in
  let n := N.min STANDARD_VECTOR_SIZE (start c + count c - block_start) in
  (block_start < start c + count c →
   ∃ state' result',
     Fetch debug c state row_id result = Ok (state', result', n)
     ∧ take (N.to_nat n) result' = take (N.to_nat n) (rows_from c block_start))
  ∧ (start c + count c ≤ block_start →
     Fetch debug c state row_id result = Throw InternalException).
Proof.
  intros Hok Hnonneg Hrow block_start n.
  pose proof Hok as (Hcont & _ & Hsum & _).
  split.
  - intros Hin.
    destruct (Fetch_in_column debug c state row_id result Hok Hnonneg Hrow Hin)
      as (i & seg & Hi & Hseg & ->).
    fold block_start in Hseg |- *.
    set (state0 := ColumnScanState.set_internal_index _ _).
    assert (cursor_in_column c state0) as Hcur.
    { exists i, seg. split; [done|]. split; [done|]. split; [simpl; lia|]. simpl. lia. }
    destruct (ScanVector_in_column debug c state0 result STANDARD_VECTOR_SIZE false Hok Hcur)
      as (state' & decoded & Hrun & _ & _ & Hres & _); [done|].
    exists state', decoded. split; [exact Hrun|exact Hres].
  - intros Hout.
    destruct (Fetch_at_block debug c state row_id result Hnonneg Hrow) as [_ ->].
    fold block_start.
    rewrite (GetSegment_outside c block_start Hcont Hsum); [done|lia].
Qed.

(** ** Committed ranges *)

(** X7. [ScanCommittedRange] from a row of a well-formed column decodes the
    stored rows from that row on, as many as asked for or as the column has
    left; a column without updates returns them as decoded, and a column
    with updates hands them to the overlay's [FetchCommittedRange] with the
    offset inside the row group and the count asked for. *)
Theorem ScanCommittedRange_reads_committed_rows
    (debug : bool) (c : ColumnData) (row_group_start offset_in_row_group s_count : idx_t)
    (result : Vector) :
  column_ok c →
  start c ≤ row_group_start + offset_in_row_group < start c + count c →
  s_count < IDX_MODULUS →
  let row := row_group_start + offset_in_row_group in
  let n := N.min s_count (start c + count c - row) in
  ∃ decoded,
    take (N.to_nat n) decoded = take (N.to_nat n) (rows_from c row)
    ∧ ScanCommittedRange debug c row_group_start offset_in_row_group s_count result
      = Ok (match updates c with
            | None => decoded
            | Some u => UpdateSegment_FetchCommittedRange u offset_in_row_group s_count decoded
            end).
Proof.
  intros Hok Hrow Hcount row n.
  pose proof Hok as (Hcont & Hrows & Hsum & Hmod & _).
  destruct (GetSegment_inside c row Hok Hrow) as (i & seg & Hget & Hi & Hseg).
  unfold ScanCommittedRange, InitializeScanWithOffset.
  rewrite idx_add_small by (fold row; lia). fold row.
  rewrite Hget, Ok_bind, Hi. cbn [deref]. rewrite !Ok_bind.
  set (state0 := ColumnScanState.set_last_offset _ _).
  assert (cursor_in_column c state0) as Hcur.
  { exists i, seg. split; [done|]. split; [done|]. split; [simpl; lia|]. done. }
  destruct (ScanVector_in_column debug c state0 result s_count (HasUpdates c) Hok Hcur Hcount)
    as (state' & decoded & Hrun & _ & _ & Hres & _).
  change (ColumnScanState.row_index state0) with row in Hrun, Hres. fold n in Hrun, Hres.
  exists decoded. split; [done|].
  rewrite Hrun, Ok_bind. unfold HasUpdates.
  by destruct (updates c) as [u|].
Qed.

(** ** Appending to a well-formed column *)

Lemma appendable_column_ok c : appendable_column c → column_ok c.
Proof.
  intros (Hcont & Hsum & Hmod & Hsegs & _).
  split; [done|]. split; [|split; [done|split; [done|]]].
  - eapply Forall_impl; [exact Hsegs|]. by intros s (? & _).
  - eapply Forall_impl; [exact Hsegs|]. by intros s (_ & ? & _).
Qed.

Lemma fresh_segment_ok ty start_row :
  type_size_ok ty →
  segment_ok ty (CreateTransientSegment ty start_row (transient_size ty start_row)).
Proof.
  intros Hty. split; [done|]. split; [done|]. split; [by apply fresh_segment_fits|done].
Qed.

Lemma ColumnSegment_Append_ok ty seg vdata offset n :
  segment_ok ty seg → segment_ok ty (ColumnSegment_Append seg vdata offset n).1.
Proof.
  intros (Hrows & Htype & Hfits & Happ).
  destruct (ColumnSegment_Append_correct seg vdata offset n Hfits) as [-> Hcount].
  simpl. split; [|split; [done|split; [|done]]].
  - simpl. rewrite length_app, slice_length, Hrows. lia.
  - destruct Hfits as [_ Hsize]. by split.
Qed.

(** The segments stay as the appends expect them through the loop of
    [AppendData]. *)
Lemma AppendData_loop_segments_ok ty vdata :
  type_size_ok ty →
  ∀ fuel c append_stats state offset n c' stats' state',
    type c = ty → Forall (segment_ok ty) (data c) →
    AppendData_loop fuel c append_stats state vdata offset n = Ok (c', stats', state') →
    Forall (segment_ok ty) (data c').
Proof.
  intros Hty fuel. induction fuel as [|fuel IH];
    intros c append_stats state offset n c' stats' state' Htype Hsegs H; [done|].
  cbn [AppendData_loop] in H.
  apply bind_Ok in H as (i & Hi & H). apply bind_Ok in H as (seg & Hseg & H).
  apply deref_Ok in Hseg.
  pose proof (ColumnSegment_Append_ok ty seg vdata offset n) as Hstep.
  destruct (ColumnSegment_Append seg vdata offset n) as [seg1 copied]. simpl in Hstep.
  assert (segment_ok ty seg1) as Hseg1.
  { apply Hstep. rewrite Forall_lookup in Hsegs. by eapply Hsegs. }
  assert (Forall (segment_ok ty) (<[i := seg1]> (data c))) as Hsegs1
    by (by apply Forall_insert).
  destruct (copied =? n).
  - apply mret_Ok in H. simplify_eq. done.
  - apply bind_Ok in H as (j & _ & H).
    eapply IH in H; [done|done|].
    rewrite AppendTransientSegment_data. apply Forall_app. split; [done|].
    apply Forall_singleton. simpl. rewrite Htype. by apply fresh_segment_ok.
Qed.

(** [InitializeAppend] and [AppendData] one after the other on a column
    that can be appended to. *)
Lemma append_run debug fuel c state append_stats vdata n :
  appendable_column c →
  start c + count c + n < IDX_MODULUS →
  (N.to_nat n < fuel)%nat →
  ∃ c1 state1 c' state' front seg seg' fresh,
    InitializeAppend debug c state = Ok (c1, state1)
    ∧ AppendData fuel c1 append_stats state1 vdata n
      = Ok (c', foldl Merge append_stats (ColumnSegment.stats <$> seg' :: fresh), state')
    ∧ data c1 = front ++ [seg]
    ∧ data c' = front ++ seg' :: fresh
    ∧ ColumnSegment.start seg = start c + sum_counts front
    ∧ sum_counts front ≤ count c
    ∧ Forall (fun s => ColumnSegment.segment_type s = TRANSIENT) (seg' :: fresh)
    ∧ appendable_column c'
    ∧ start c' = start c ∧ count c' = count c + n
    ∧ parent c1 = parent c ∧ stats c1 = stats c
    ∧ parent c' = parent c ∧ stats c' = stats c ∧ updates c' = updates c
    ∧ type c' = type c
    ∧ all_rows (data c') = all_rows (data c) ++ slice vdata 0 (N.to_nat n)
    ∧ (∀ v, v ∈ slice vdata 0 (N.to_nat n) →
            covers (foldl Merge append_stats (ColumnSegment.stats <$> seg' :: fresh)) v).
Proof.
  intros (Hcont & Hsum & Hmod & Hsegs & Hty) Hend Hfuel.
  assert (Forall appendable_ok (data c)) as Happ.
  { eapply Forall_impl; [exact Hsegs|]. by intros s (_ & _ & _ & ?). }
  destruct (InitializeAppend_correct debug c state Hcont) as
    (c1 & state1 & front & seg & Hinit & Hdata1 & Hcur1 & Htransient & Hgrow & Hcont1
     & Hcount1 & Hstart1 & Htype1 & Hpar1 & Hstats1 & Hupd1); [lia|done|].
  assert (sum_counts (data c1) = count c ∧ all_rows (data c1) = all_rows (data c)
          ∧ Forall (segment_ok (type c)) (data c1)) as (Hsum1 & Hrows1 & Hsegs1).
  { destruct Hgrow as [->|(s & ->)]; [done|].
    rewrite sum_counts_app, all_rows_app, sum_counts_singleton, all_rows_singleton. simpl.
    rewrite N.add_0_r, app_nil_r. split; [done|]. split; [done|].
    apply Forall_app. split; [done|]. apply Forall_singleton. by apply fresh_segment_ok. }
  pose proof Hsegs1 as Hsegs1'.
  rewrite Hdata1 in Hcont1, Hsum1, Hrows1, Hsegs1'.
  apply contiguous_app in Hcont1 as [Hcfront [Hsegstart _]].
  rewrite sum_counts_app, sum_counts_singleton in Hsum1.
  rewrite all_rows_app, all_rows_singleton in Hrows1.
  apply Forall_app in Hsegs1' as [_ Hsegok]. rewrite Forall_singleton in Hsegok.
  destruct Hsegok as (_ & _ & Hsegfits & _).
  assert (AppendData fuel c1 append_stats state1 vdata n
          = AppendData_loop fuel (set_count c1 (count c + n)) append_stats state1 vdata 0 n)
    as Hbump.
  { unfold AppendData. by rewrite Hcount1, idx_add_small by lia. }
  destruct (AppendData_loop_correct (type c) vdata Hty fuel
              (set_count c1 (count c + n)) append_stats state1 0 n front seg)
    as (c' & state' & seg' & fresh & Hrun & Hdata' & Hcnt & Hst & Htype' & Hpar' & Hstats'
        & Hupd' & Hstart' & Hkind' & Hfresh & Hsum' & Hrows' & Hcont' & Hcur' & Hcov);
    [done|done|done|done|lia|lia|by left|].
  pose proof (AppendData_loop_segments_ok (type c) vdata Hty fuel
                (set_count c1 (count c + n)) _ _ _ _ _ _ _ Htype1 Hsegs1 Hrun) as Hsegs'.
  simpl in Hcnt, Hst, Htype', Hpar', Hstats', Hupd'.
  exists c1, state1, c', state', front, seg, seg', fresh.
  split; [done|]. split; [by rewrite Hbump|]. split; [done|]. split; [done|].
  split; [lia|]. split; [lia|].
  split; [apply Forall_cons; split; [congruence|done]|].
  split.
  { split; [|split; [|split; [lia|split]]].
    - rewrite Hdata'. apply contiguous_app. rewrite Hst, Hstart1.
      split; [done|]. by rewrite <- Hsegstart.
    - rewrite Hdata', sum_counts_app, Hsum', Hcnt. lia.
    - by rewrite Htype', Htype1.
    - by rewrite Htype', Htype1. }
  split; [congruence|]. split; [done|]. split; [done|]. split; [done|].
  split; [congruence|]. split; [congruence|]. split; [congruence|]. split; [congruence|].
  split; [by rewrite Hdata', all_rows_app, Hrows', <- Hrows1, app_assoc|]. done.
Qed.

(** X8. Appending keeps a column appendable: after [InitializeAppend] and
    [AppendData] with enough fuel the segments are contiguous from the
    column start again, their counts add up to the new count, and every
    segment holds as many rows as it counts, has the column's type and
    fields within [idx_t]; the start is unchanged and the stored rows are
    the old rows followed by the appended ones. *)
Theorem Append_keeps_the_column_well_formed
    (debug : bool) (fuel : nat) (c : ColumnData) (state : ColumnAppendState)
    (append_stats : BaseStatistics) (vdata : Vector) (append_count : idx_t) :
  appendable_column c →
  start c + count c + append_count < IDX_MODULUS →
  (N.to_nat append_count < fuel)%nat →
  ∃ c1 state1 c' stats' state',
    InitializeAppend debug c state = Ok (c1, state1)
    ∧ AppendData fuel c1 append_stats state1 vdata append_count = Ok (c', stats', state')
    ∧ appendable_column c' ∧ column_ok c'
    ∧ start c' = start c ∧ count c' = count c + append_count
    ∧ all_rows (data c') = all_rows (data c) ++ slice vdata 0 (N.to_nat append_count).
Proof.
  intros Hc Hend Hfuel.
  destruct (append_run debug fuel c state append_stats vdata append_count Hc Hend Hfuel)
    as (c1 & state1 & c' & state' & front & seg & seg' & fresh & Hinit & Hrun & _ & _ & _ & _
        & _ & Hc' & Hstart & Hcount & _ & _ & _ & _ & _ & _ & Hrows & _).
  exists c1, state1, c'. eexists _, state'.
  split; [done|]. split; [exact Hrun|]. split; [done|].
  split; [by apply appendable_column_ok|]. done.
Qed.

(** X9. What is appended is what is fetched: after [InitializeAppend] and
    [AppendData] on an appendable column without updates, [FetchRow] of the
    [k]-th appended row, at row id [start + count + k] of the column as it
    was, returns the [k]-th value of the appended vector. *)
Theorem FetchRow_after_Append_returns_the_appended_value
    (debug : bool) (fuel : nat) (c : ColumnData) (state : ColumnAppendState)
    (append_stats : BaseStatistics) (vdata : Vector) (append_count : idx_t)
    (transaction : TransactionData) (result : Vector) (result_idx : idx_t) :
  appendable_column c → updates c = None →
  start c + count c + append_count < IDX_MODULUS →
  (N.to_nat append_count < fuel)%nat →
  ∃ c1 state1 c' stats' state',
    InitializeAppend debug c state = Ok (c1, state1)
    ∧ AppendData fuel c1 append_stats state1 vdata append_count = Ok (c', stats', state')
    ∧ ∀ k v, k < append_count → vdata !! N.to_nat k = Some v →
        ∃ result',
          FetchRow c' transaction (Z.of_N (start c + count c + k)) result result_idx
          = Ok result'
          ∧ result' !! N.to_nat result_idx = Some v.
Proof.
  intros Hc Hnone Hend Hfuel.
  destruct (append_run debug fuel c state append_stats vdata append_count Hc Hend Hfuel)
    as (c1 & state1 & c' & state' & front & seg & seg' & fresh & Hinit & Hrun & _ & _ & _ & _
        & _ & Hc' & Hstart & Hcount & _ & _ & _ & _ & Hupd & _ & Hrows & _).
  exists c1, state1, c'. eexists _, state'.
  split; [done|]. split; [exact Hrun|]. intros k v Hk Hv.
  pose proof (appendable_column_ok c Hc) as (_ & Hrok & Hsum & _).
  pose proof (all_rows_length _ Hrok) as Hlen. rewrite Hsum in Hlen.
  set (row := start c + count c + k).
  destruct (FetchRow_stored c' transaction (Z.of_N row) result result_idx)
    as (stored & result' & Hstored & Hfetch & Hat).
  { by apply appendable_column_ok. }
  { by rewrite Hupd. }
  { lia. }
  { rewrite N2Z.id, Hstart, Hcount. unfold row. lia. }
  exists result'. split; [done|]. rewrite Hat. f_equal.
  rewrite N2Z.id, Hstart, Hrows in Hstored.
  rewrite lookup_app_r in Hstored by (unfold row; lia).
  rewrite slice_lookup in Hstored. rewrite decide_True in Hstored by (unfold row; lia).
  replace (0 + (N.to_nat (row - start c) - length (all_rows (data c))))%nat
    with (N.to_nat k) in Hstored by (unfold row; lia).
  rewrite Hv in Hstored. simpl in Hstored. congruence.
Qed.

(** X10. The zone map stays sound under [Append]: when the statistics of a
    root column cover every stored row, so do the statistics after
    [InitializeAppend] and [Append], for the old rows and the appended
    ones. *)
Theorem Append_keeps_the_zone_map_sound
    (debug : bool) (fuel : nat) (c : ColumnData) (state : ColumnAppendState)
    (vector : Vector) (append_count : idx_t) (statistics : BaseStatistics) :
  appendable_column c →
  parent c = None → stats c = Some statistics →
  (∀ v, v ∈ all_rows (data c) → covers statistics v) →
  start c + count c + append_count < IDX_MODULUS →
  (N.to_nat append_count < fuel)%nat →
  ∃ c1 state1 c' state' statistics',
    InitializeAppend debug c state = Ok (c1, state1)
    ∧ Append fuel c1 state1 vector append_count = Ok (c', state')
    ∧ stats c' = Some statistics'
    ∧ (∀ v, v ∈ all_rows (data c') → covers statistics' v).
Proof.
  intros Hc Hroot Hstats Hsound Hend Hfuel.
  destruct (append_run debug fuel c state statistics vector append_count Hc Hend Hfuel)
    as (c1 & state1 & c' & state' & front & seg & seg' & fresh & Hinit & Hrun & _ & _ & _ & _
        & _ & _ & _ & _ & Hpar1 & Hstats1 & _ & _ & _ & _ & Hrows & Hcov).
  exists c1, state1. eexists _, state', _.
  split; [done|]. split.
  { unfold Append, Append_stats. rewrite Hpar1, Hroot, Hstats1, Hstats.
    rewrite Hrun, Ok_bind. done. }
  split; [done|]. intros v Hv.
  change (v ∈ all_rows (data c')) in Hv. rewrite Hrows in Hv.
  apply elem_of_app in Hv as [Hv|Hv].
  - by apply (covers_foldl_Merge statistics), Hsound.
  - by apply Hcov.
Qed.

(** ** Reverting *)

Lemma RevertAppend_at_boundary debug c start_row :
  data c ≠ [] → contiguous (start c) (data c) →
  start c + sum_counts (data c) < IDX_MODULUS →
  idx_of_row start_row = start c + sum_counts (data c) →
  RevertAppend debug c start_row = Ok c.
Proof.
  intros Hne Hc Hend Hr.
  destruct (GetLastSegment_lookup _ Hne) as (last & Hlast & Hl).
  assert (ColumnSegment.start last + ColumnSegment.count last
          = start c + sum_counts (data c)) as Hb.
  { eapply contiguous_last; [done..|]. destruct (data c); [done|simpl; lia]. }
  unfold RevertAppend. rewrite Hlast. simpl. rewrite Hl. simpl.
  rewrite idx_add_small by lia. rewrite Hb, Hr, N.leb_refl, N.eqb_refl.
  by rewrite D_ASSERT_holds.
Qed.

(** [RevertAppend] at a row inside a well-formed column. *)
Lemma RevertAppend_truncates debug c start_row :
  column_ok c →
  start c ≤ idx_of_row start_row < start c + count c →
  (debug = true → ∀ i seg, data c !! i = Some seg →
     ColumnSegment.start seg ≤ idx_of_row start_row
       < ColumnSegment.start seg + ColumnSegment.count seg →
     ColumnSegment.segment_type seg = TRANSIENT) →
  ∃ c',
    RevertAppend debug c start_row = Ok c'
    ∧ column_ok c'
    ∧ start c' = start c
    ∧ count c' = idx_of_row start_row - start c
    ∧ all_rows (data c')
      = take (N.to_nat (idx_of_row start_row - start c)) (all_rows (data c))
    ∧ type c' = type c ∧ updates c' = updates c ∧ stats c' = stats c.
Proof.
  intros (Hcont & Hrows & Hsum & Hmod & Htypes) Hrange Htransient.
  set (r := idx_of_row start_row) in *.
  assert (data c ≠ []) as Hne.
  { intros Hnil. rewrite Hnil in Hsum. simpl in Hsum. lia. }
  destruct (GetLastSegment_lookup _ Hne) as (last & Hlast & Hl).
  assert (ColumnSegment.start last + ColumnSegment.count last
          = start c + sum_counts (data c)) as Hb.
  { eapply contiguous_last; [done..|]. destruct (data c); [done|simpl; lia]. }
  destruct (find_segment_contiguous (start c) (data c) r 0 Hcont) as (i & seg & Hf & Hi & Hr);
    [lia|].
  pose proof (contiguous_lookup _ _ _ _ Hcont Hi) as Hstart.
  assert (length (ColumnSegment.rows seg) = N.to_nat (ColumnSegment.count seg)) as Hlen.
  { unfold rows_ok in Hrows. rewrite Forall_lookup in Hrows. by eapply Hrows. }
  assert (ColumnSegment.type seg = type c) as Hty.
  { rewrite Forall_lookup in Htypes. by eapply Htypes. }
  assert (length (all_rows (take i (data c))) = N.to_nat (sum_counts (take i (data c))))
    as Hlen_front by (apply all_rows_length; by apply Forall_take).
  eexists. split.
  { unfold RevertAppend. rewrite Hlast. simpl. rewrite Hl. simpl.
    rewrite idx_add_small by lia. rewrite Hb. fold r.
    destruct (N.leb_spec (start c + sum_counts (data c)) r); [lia|].
    unfold GetSegmentIndex. rewrite Hf. simpl. rewrite Hi. simpl.
    assert (D_ASSERT debug (bool_decide (ColumnSegment.segment_type seg = TRANSIENT)) = Ok ())
      as ->.
    { destruct debug; [|done]. rewrite bool_decide_true; [done|]. by eapply Htransient. }
    rewrite Ok_bind. unfold EraseSegments. simpl.
    rewrite (insert_take_S _ _ _ seg) by done.
    unfold ColumnSegment_RevertAppend. rewrite !idx_sub_small by lia. done. }
  simpl. split; [|split; [done|split; [done|split; [|done]]]].
  - split; [|split; [|split; [|split]]]; simpl.
    + apply contiguous_app. split.
      * rewrite <- (take_drop i (data c)) in Hcont. by apply contiguous_app in Hcont as [? _].
      * simpl. split; [lia|done].
    + apply Forall_app. split; [by apply Forall_take|].
      apply Forall_singleton. simpl. rewrite length_take. lia.
    + rewrite sum_counts_app, sum_counts_singleton. simpl. lia.
    + lia.
    + apply Forall_app. split; [by apply Forall_take|]. by apply Forall_singleton.
  - rewrite all_rows_app, all_rows_singleton. simpl.
    rewrite <- (take_drop_middle _ _ _ Hi) at 2.
    rewrite all_rows_app, all_rows_cons.
    rewrite take_app_ge by lia. f_equal.
    rewrite take_app_le by lia. f_equal. lia.
Qed.

(** X11. [RevertAppend] at a row inside a well-formed column (the owning
    segment transient where a debug build checks it) cuts the column back to
    the rows before that row: the count becomes the row minus the column
    start, the stored rows are the first that many of the old ones, and the
    column is well formed again, with the same start. *)
Theorem RevertAppend_cuts_back_to_the_row
    (debug : bool) (c : ColumnData) (start_row : row_t) :
  column_ok c →
  start c ≤ idx_of_row start_row < start c + count c →
  (debug = true → ∀ i seg, data c !! i = Some seg →
     ColumnSegment.start seg ≤ idx_of_row start_row
       < ColumnSegment.start seg + ColumnSegment.count seg →
     ColumnSegment.segment_type seg = TRANSIENT) →
  ∃ c',
    RevertAppend debug c start_row = Ok c'
    ∧ column_ok c'
    ∧ start c' = start c
    ∧ count c' = idx_of_row start_row - start c
    ∧ all_rows (data c')
      = take (N.to_nat (idx_of_row start_row - start c)) (all_rows (data c)).
Proof.
  intros Hok Hrange Htransient.
  destruct (RevertAppend_truncates debug c start_row Hok Hrange Htransient)
    as (c' & Hrun & Hok' & Hstart & Hcount & Hrows & _).
  by exists c'.
Qed.

(** X12. Reverting undoes an append: after [InitializeAppend] and
    [AppendData] on an appendable column, [RevertAppend] at the row the
    append started from gives a well-formed column with the count and the
    stored rows the column had before the append. *)
Theorem RevertAppend_undoes_AppendData
    (debug : bool) (fuel : nat) (c : ColumnData) (state : ColumnAppendState)
    (append_stats : BaseStatistics) (vdata : Vector) (append_count : idx_t) :
  appendable_column c →
  start c + count c + append_count < IDX_MODULUS →
  (N.to_nat append_count < fuel)%nat →
  ∃ c1 state1 c' stats' state' c'',
    InitializeAppend debug c state = Ok (c1, state1)
    ∧ AppendData fuel c1 append_stats state1 vdata append_count = Ok (c', stats', state')
    ∧ RevertAppend debug c' (Z.of_N (start c + count c)) = Ok c''
    ∧ column_ok c''
    ∧ start c'' = start c
    ∧ count c'' = count c
    ∧ all_rows (data c'') = all_rows (data c).
Proof.
  intros Hc Hend Hfuel.
  destruct (append_run debug fuel c state append_stats vdata append_count Hc Hend Hfuel)
    as (c1 & state1 & c' & state' & front & seg & seg' & fresh & Hinit & Hrun & Hdata1 & Hdata'
        & Hsegstart & Hfront & Hkinds & Hc' & Hstart & Hcount & _ & _ & _ & _ & _ & _
        & Hrows & _).
  pose proof (appendable_column_ok c Hc) as (_ & Hrok & Hsum & _).
  pose proof (all_rows_length _ Hrok) as Hlen. rewrite Hsum in Hlen.
  pose proof (appendable_column_ok c' Hc') as Hok'.
  pose proof Hok' as (Hcont' & Hrok' & Hsum' & Hmod' & _).
  assert (idx_of_row (Z.of_N (start c + count c)) = start c + count c) as Hcast.
  { rewrite idx_of_row_small; rewrite ?N2Z.id; lia. }
  exists c1, state1, c'. eexists _, state'.
  destruct (decide (append_count = 0)) as [->|Hpos].
  - exists c'. split; [done|]. split; [exact Hrun|]. split.
    { apply RevertAppend_at_boundary.
      - rewrite Hdata'. by destruct front.
      - done.
      - rewrite Hsum'. lia.
      - rewrite Hcast, Hsum', Hstart, Hcount. lia. }
    split; [done|]. split; [done|]. split; [lia|].
    by rewrite Hrows, app_nil_r.
  - destruct (RevertAppend_truncates debug c' (Z.of_N (start c + count c)) Hok')
      as (c'' & Hrev & Hok'' & Hstart'' & Hcount'' & Hrows'' & _).
    { rewrite Hcast, Hstart, Hcount. lia. }
    { intros _ i s Hi Hin. rewrite Hcast in Hin.
      rewrite Hdata' in Hi, Hcont'.
      destruct (decide (i < length front)%nat) as [Hlt|Hge].
      - rewrite lookup_app_l in Hi by done.
        apply contiguous_app in Hcont' as [Hcfront _].
        pose proof (contiguous_lookup _ _ _ _ Hcfront Hi) as Hs.
        pose proof (sum_counts_take_le (S i) front) as Hle.
        rewrite (take_S_r _ _ _ Hi), sum_counts_app, sum_counts_singleton in Hle.
        rewrite Hstart in Hs. lia.
      - rewrite lookup_app_r in Hi by lia.
        rewrite Forall_lookup in Hkinds. by eapply Hkinds. }
    exists c''. split; [done|]. split; [exact Hrun|]. split; [done|].
    split; [done|]. split; [congruence|].
    rewrite Hcast, Hstart in Hcount'', Hrows''.
    split; [lia|].
    rewrite Hrows'', Hrows. rewrite take_app_le by lia. apply take_ge. lia.
Qed.

(** ** Where an append starts *)

(** X13. [InitializeAppend] adds a segment only when it has to: on a
    contiguous tree it leaves the tree as it is when the tail is a transient
    segment that can start an append, and otherwise (no segment at all, or a
    persistent or sealed tail) adds one empty transient segment that starts
    at the end of the column; either way the append cursor ends on the last
    segment, which is transient. *)
Theorem InitializeAppend_adds_a_segment_only_when_needed
    (debug : bool) (c : ColumnData) (state : ColumnAppendState) :
  contiguous (start c) (data c) →
  start c + sum_counts (data c) < IDX_MODULUS →
  Forall appendable_ok (data c) →
  let column_end := start c + sum_counts (data c) in
  ∃ c1 state1 tail,
    InitializeAppend debug c state = Ok (c1, state1)
    ∧ data c1
      = (if tail_writable (data c) then data c
         else data c ++ [CreateTransientSegment (type c) column_end
                           (transient_size (type c) column_end)])
    ∧ ColumnAppendState.current state1 = GetLastSegment (data c1)
    ∧ last (data c1) = Some tail
    ∧ ColumnSegment.segment_type tail = TRANSIENT.
Proof.
  intros Hcont Hend Happ column_end. unfold InitializeAppend, tail_writable.
  destruct (snoc_cases (data c)) as [Hnil|(front & seg & Hdata)].
  - destruct c as [st cnt bm ci ty par dat upd sts alloc]. simpl in *. subst dat. simpl.
    rewrite !D_ASSERT_holds. simpl.
    eexists _, _, _. split; [done|]. simpl. unfold column_end. simpl.
    rewrite N.add_0_r. done.
  - assert (match data c with [] => AppendTransientSegment c (start c) | _ :: _ => c end
            = c) as ->.
    { rewrite Hdata. by destruct front. }
    rewrite Hdata, GetLastSegment_snoc. cbn [deref].
    rewrite Ok_bind, list_lookup_middle by done. cbn [deref]. rewrite Ok_bind.
    rewrite last_snoc.
    rewrite Hdata in Hcont, Happ. unfold column_end in *. rewrite Hdata in Hend |- *.
    apply contiguous_app in Hcont as [Hfront Hseg]. destruct Hseg as [Hstart _].
    rewrite sum_counts_app, sum_counts_singleton in Hend |- *.
    apply Forall_app in Happ as [_ Happ]. rewrite Forall_singleton in Happ.
    assert (bool_decide (ColumnSegment.segment_type seg = TRANSIENT)
            && init_append (ColumnSegment.function seg)
            = negb (bool_decide (ColumnSegment.segment_type seg = PERSISTENT)
                    || negb (init_append (ColumnSegment.function seg)))) as ->.
    { by destruct (ColumnSegment.segment_type seg),
           (init_append (ColumnSegment.function seg)). }
    destruct (bool_decide (ColumnSegment.segment_type seg = PERSISTENT)
              || negb (init_append (ColumnSegment.function seg))) eqn:Hsealed;
      cbn [negb].
    + rewrite !AppendTransientSegment_data, !Hdata.
      rewrite idx_add_small by lia.
      replace (ColumnSegment.start seg + ColumnSegment.count seg)
        with (start c + (sum_counts front + ColumnSegment.count seg)) by lia.
      set (nseg := CreateTransientSegment _ _ _).
      rewrite GetLastSegment_snoc. cbn [deref ColumnAppendState.current]. rewrite Ok_bind.
      rewrite list_lookup_middle by done. cbn [deref]. rewrite Ok_bind.
      change (bool_decide (ColumnSegment.segment_type nseg = TRANSIENT)) with true.
      change (append (ColumnSegment.function nseg)) with true.
      rewrite !D_ASSERT_holds, !Ok_bind.
      eexists _, _, nseg. split; [done|].
      rewrite AppendTransientSegment_data, Hdata.
      split; [done|]. split; [by rewrite GetLastSegment_snoc|].
      split; [by rewrite last_snoc|done].
    + apply orb_false_elim in Hsealed as [Hkind Hinit].
      apply bool_decide_eq_false in Hkind. apply negb_false_iff in Hinit.
      assert (ColumnSegment.segment_type seg = TRANSIENT) as Htransient
        by (by destruct (ColumnSegment.segment_type seg)).
      cbn [deref ColumnAppendState.current]. rewrite Ok_bind.
      rewrite Hdata, list_lookup_middle by done. cbn [deref]. rewrite Ok_bind.
      rewrite bool_decide_true by done. rewrite (Happ Hinit).
      rewrite !D_ASSERT_holds, !Ok_bind.
      eexists _, _, seg. split; [done|]. rewrite Hdata.
      split; [done|]. split; [by rewrite GetLastSegment_snoc|].
      split; [by rewrite last_snoc|done].
Qed.

(** X26. The segment [AppendTransientSegment] adds is an empty transient
    segment of the column's type that starts at the row asked for; its size
    is the block size, or a vector of the type if that is smaller and the
    start row is [MAX_ROW_ID]; it is never larger than a block, always has
    room for at least one row, and the allocation size of the column grows
    by it.  The segments the column had and its count are left alone. *)
Theorem AppendTransientSegment_adds_an_empty_segment_with_room
    (c : ColumnData) (start_row : idx_t) :
  type_size_ok (type c) →
  ∃ seg,
    data (AppendTransientSegment c start_row) = data c ++ [seg]
    ∧ ColumnSegment.start seg = start_row
    ∧ ColumnSegment.count seg = 0
    ∧ ColumnSegment.rows seg = []
    ∧ ColumnSegment.segment_type seg = TRANSIENT
    ∧ ColumnSegment.type seg = type c
    ∧ ColumnSegment.segment_size seg
      = (if start_row =? MAX_ROW_ID
         then N.min BLOCK_SIZE (STANDARD_VECTOR_SIZE * GetTypeIdSize (type c))
         else BLOCK_SIZE)
    ∧ ColumnSegment.segment_size seg ≤ BLOCK_SIZE
    ∧ 0 < room seg
    ∧ allocation_size (AppendTransientSegment c start_row)
      = idx_add (allocation_size c) (ColumnSegment.segment_size seg)
    ∧ count (AppendTransientSegment c start_row) = count c
    ∧ start (AppendTransientSegment c start_row) = start c.
Proof.
  intros Hty.
  exists (CreateTransientSegment (type c) start_row (transient_size (type c) start_row)).
  split; [apply AppendTransientSegment_data|].
  split; [done|]. split; [done|]. split; [done|]. split; [done|]. split; [done|].
  pose proof (fresh_segment_room (type c) start_row Hty) as Hroom.
  destruct Hty as (Hpos & Hle & Hblock & Hvec).
  assert (transient_size (type c) start_row
          = (if start_row =? MAX_ROW_ID
             then N.min BLOCK_SIZE (STANDARD_VECTOR_SIZE * GetTypeIdSize (type c))
             else BLOCK_SIZE)) as Hsize.
  { unfold transient_size. destruct (start_row =? MAX_ROW_ID).
    - unfold idx_mul. rewrite wrap_small by done.
      destruct (N.ltb_spec BLOCK_SIZE (STANDARD_VECTOR_SIZE * GetTypeIdSize (type c))); lia.
    - destruct (N.ltb_spec BLOCK_SIZE BLOCK_SIZE); lia. }
  split; [exact Hsize|]. split.
  { cbn [ColumnSegment.segment_size CreateTransientSegment]. rewrite Hsize.
    destruct (start_row =? MAX_ROW_ID); lia. }
  split; [exact Hroom|]. done.
Qed.

(** ** Verification *)

Lemma D_ASSERT_debug cond :
  D_ASSERT true cond = if cond then Ok () else Throw InternalException.
Proof. by destruct cond. Qed.

Lemma Verify_loop_spec t :
  ∀ current_start total_count,
    current_start + sum_counts t < IDX_MODULUS →
    total_count + sum_counts t < IDX_MODULUS →
    (contiguous current_start t
     ∧ Verify_loop true t current_start total_count = Ok (total_count + sum_counts t))
    ∨ (¬ contiguous current_start t
       ∧ Verify_loop true t current_start total_count = Throw InternalException).
Proof.
  induction t as [|s t IH]; intros current_start total_count Hstart Htotal; simpl in *.
  - left. by rewrite N.add_0_r.
  - rewrite D_ASSERT_debug.
    destruct (N.eqb_spec (ColumnSegment.start s) current_start) as [Heq|Hne].
    + rewrite Ok_bind, !idx_add_small by lia.
      destruct (IH (current_start + ColumnSegment.count s)
                  (total_count + ColumnSegment.count s)) as [[Hc Hrun]|[Hc Hrun]]; [lia..| |].
      * left. split; [done|]. rewrite Hrun. f_equal. lia.
      * right. split; [tauto|done].
    + right. split; [tauto|done].
Qed.

Lemma Verify_spec c parent_start :
  start c + sum_counts (data c) < IDX_MODULUS →
  (verified c parent_start ∧ Verify true c parent_start = Ok ())
  ∨ (¬ verified c parent_start ∧ Verify true c parent_start = Throw InternalException).
Proof.
  intros Hend. unfold Verify, verified. cbn [negb].
  destruct (N.eqb_spec (start c) parent_start) as [Heq|Hne]; [|right; tauto].
  rewrite D_ASSERT_holds, Ok_bind. destruct (is_struct_or_array (type c)).
  - rewrite D_ASSERT_debug. destruct (data c); simpl.
    + by left.
    + right. split; [|done]. by intros [_ ?].
  - destruct (Verify_loop_spec (data c) (start c) 0) as [[Hc Hrun]|[Hc Hrun]]; [lia..| |].
    + rewrite Hrun, Ok_bind, D_ASSERT_debug, N.add_0_l.
      destruct (N.eqb_spec (count c) (sum_counts (data c))) as [Hcount|Hcount].
      * by left.
      * right. split; [|done]. intros (_ & _ & ?). congruence.
    + rewrite Hrun. right. split; [tauto|done].
Qed.

(** X14. In a debug build [Verify] passes exactly when the column starts
    where its row group starts and, for a struct or array column, has no
    segment, and for any other column has segments that are contiguous from
    the column start with counts that add up to the column count; it fails
    with an internal error otherwise.  In a release build it does
    nothing. *)
Theorem Verify_checks_the_tree_invariant (c : ColumnData) (parent_start : idx_t) :
  start c + sum_counts (data c) < IDX_MODULUS →
  (Verify true c parent_start = Ok () ↔ verified c parent_start)
  ∧ (¬ verified c parent_start → Verify true c parent_start = Throw InternalException)
  ∧ Verify false c parent_start = Ok ().
Proof.
  intros Hend. destruct (Verify_spec c parent_start Hend) as [[Hv Hrun]|[Hv Hrun]].
  - rewrite Hrun. split; [tauto|]. split; [tauto|done].
  - rewrite Hrun. split; [|split; [done|done]]. split; [done|tauto].
Qed.

(** ** Reading the persisted layout *)

Lemma contiguous_persistent bm ty ps first :
  contiguous first (CreatePersistentSegment bm ty <$> ps) ↔ pointers_contiguous first ps.
Proof.
  revert first. induction ps as [|p ps IH]; intros first; simpl; [done|].
  by rewrite IH.
Qed.

Lemma sum_counts_persistent bm ty ps :
  sum_counts (CreatePersistentSegment bm ty <$> ps) = sum_tuple_counts ps.
Proof.
  induction ps as [|p ps IH]; [done|].
  change (sum_counts (CreatePersistentSegment bm ty <$> p :: ps))
    with (tuple_count p + sum_counts (CreatePersistentSegment bm ty <$> ps)).
  by rewrite IH.
Qed.

(** X15. [DeserializeColumn] into a column without segments gives a tree
    whose counts add up to the column count, and the tree is contiguous from
    the column start exactly when the data pointers tile the rows from
    there; so a debug build's [Verify] accepts the column (not a struct or
    array) exactly when they do. *)
Theorem DeserializeColumn_verifies_when_the_pointers_tile
    (c : ColumnData) (data_pointers : list DataPointer) (target_stats : BaseStatistics) :
  data c = [] →
  start c + sum_tuple_counts data_pointers < IDX_MODULUS →
  is_struct_or_array (type c) = false →
  let c' := (DeserializeColumn c data_pointers target_stats).1 in
  sum_counts (data c') = count c'
  ∧ start c' = start c
  ∧ (contiguous (start c') (data c') ↔ pointers_contiguous (start c) data_pointers)
  ∧ (Verify true c' (start c) = Ok () ↔ pointers_contiguous (start c) data_pointers).
Proof.
  intros Hempty Hend Hkind. unfold DeserializeColumn. rewrite DeserializeColumn_fold.
  cbn [fst]. set (c' := set_data _ _).
  assert (data c' = CreatePersistentSegment (block_manager c) (type c) <$> data_pointers)
    as Hdata by (unfold c'; simpl; by rewrite Hempty).
  assert (count c' = sum_tuple_counts data_pointers) as Hcount.
  { unfold c'. simpl. change 0 with (wrap 0) at 1. rewrite idx_add_fold_sum.
    apply wrap_small. lia. }
  assert (start c' = start c) as Hstart by done.
  assert (type c' = type c) as Htype by done.
  assert (sum_counts (data c') = count c') as Hsum
    by (by rewrite Hdata, sum_counts_persistent, Hcount).
  assert (contiguous (start c') (data c') ↔ pointers_contiguous (start c) data_pointers)
    as Hcont by (rewrite Hdata, Hstart; apply contiguous_persistent).
  split; [done|]. split; [done|]. split; [done|].
  destruct (Verify_spec c' (start c)) as [[Hv Hrun]|[Hv Hrun]].
  { rewrite Hsum, Hcount, Hstart. done. }
  - rewrite Hrun. unfold verified in Hv. rewrite Htype, Hkind in Hv. tauto.
  - rewrite Hrun. unfold verified in Hv. rewrite Htype, Hkind in Hv.
    split; [done|]. intros Hp. destruct Hv. tauto.
Qed.

(** ** Updates *)

(** X16. [Update] fetches the 1024-row block of the first row id, without
    any update applied, and hands it as the base vector to the overlay's
    [Update], on the column's overlay or on a new empty one when the column
    has none; the column then has that overlay.  When the block of the first
    row starts at or after the end of the column, [Update] fails with an
    internal error before the overlay is asked.  [UpdateColumn] at the end
    of its path is [Update] on the first entry of the path. *)
Theorem Update_hands_the_block_to_the_overlay
    (debug : bool) (c : ColumnData) (transaction : TransactionData) (column_index : idx_t)
    (update_vector : Vector) (row_ids : list row_t) (update_count : idx_t) (row : row_t) :
  column_ok c →
  row_ids !! 0%nat = Some row →
  (0 ≤ row)%Z →
  start c ≤ Z.to_N row < IDX_MODULUS →
  let block_start :=
    start c + (Z.to_N row - start c) / STANDARD_VECTOR_SIZE * STANDARD_VECTOR_SIZE in
  let n := N.min STANDARD_VECTOR_SIZE (start c + count c - block_start) in
  (block_start < start c + count c →
   ∃ base_vector,
     take (N.to_nat n) base_vector = take (N.to_nat n) (rows_from c block_start)
     ∧ Update debug c transaction column_index update_vector row_ids update_count
       = (u ← UpdateSegment_Update (default (UpdateSegment_new c) (updates c)) transaction
                column_index update_vector row_ids update_count base_vector;
          mret (set_updates c (Some u))))
  ∧ (start c + count c ≤ block_start →
     Update debug c transaction column_index update_vector row_ids update_count
     = Throw InternalException)
  ∧ (∀ c', Update debug c transaction column_index update_vector row_ids update_count
           = Ok c' →
           HasUpdates c' = true ∧ data c' = data c ∧ count c' = count c
           ∧ start c' = start c ∧ stats c' = stats c)
  ∧ (∀ column_path depth,
       column_path !! 0%nat = Some column_index →
       N.of_nat (length column_path) ≤ depth →
       UpdateColumn debug c transaction column_path update_vector row_ids update_count depth
       = Update debug c transaction column_index update_vector row_ids update_count).
Proof.
  intros Hok Hrow Hnonneg Hrange block_start n.
  pose proof Hok as (Hcont & _ & Hsum & _).
  split; [|split; [|split]].
  - intros Hblock.
    destruct (Fetch_in_column debug c ColumnScanState.fresh row [] Hok Hnonneg Hrange Hblock)
      as (i & seg & Hi & Hseg & Hfetch).
    fold block_start in Hseg, Hfetch.
    set (state0 := ColumnScanState.set_internal_index _ _) in Hfetch.
    assert (cursor_in_column c state0) as Hcur.
    { exists i, seg. split; [done|]. split; [done|]. split; [simpl; lia|]. simpl. lia. }
    destruct (ScanVector_in_column debug c state0 [] STANDARD_VECTOR_SIZE false Hok Hcur)
      as (state' & base & Hscan & _ & _ & Hbase & _); [done|].
    exists base. split; [exact Hbase|].
    unfold Update. rewrite Hrow. cbn [deref]. rewrite Ok_bind, Hfetch, Hscan, Ok_bind.
    unfold UpdateInternal, Flatten. by destruct (updates c).
  - intros Hblock. unfold Update. rewrite Hrow. cbn [deref]. rewrite Ok_bind.
    destruct (Fetch_at_block debug c ColumnScanState.fresh row [] Hnonneg Hrange) as [_ ->].
    fold block_start.
    rewrite (GetSegment_outside c block_start Hcont Hsum); [done|lia].
  - intros c' Hrun. unfold Update in Hrun. rewrite Hrow in Hrun. cbn [deref] in Hrun.
    rewrite Ok_bind in Hrun.
    apply bind_Ok in Hrun as ([[state' base] fetch_count] & _ & Hrun).
    unfold UpdateInternal in Hrun.
    apply bind_Ok in Hrun as (u & _ & Hrun). apply mret_Ok in Hrun. by subst c'.
  - intros column_path depth Hpath Hdepth. unfold UpdateColumn.
    rewrite bool_decide_true by done. rewrite D_ASSERT_holds, Ok_bind.
    unfold vector_at. rewrite Hpath. by rewrite Ok_bind.
Qed.

(** ** Moving a column *)

Lemma SetStart_loop_Forall (P : ColumnSegment → Prop) st off t :
  (∀ s v, P s → P (ColumnSegment.set_start s v)) →
  Forall P t → Forall P (SetStart_loop st off t).
Proof.
  intros HP. revert off. induction t as [|s t IH]; intros off Ht; simpl; [done|].
  inversion Ht; subst. apply Forall_cons. split; [by apply HP|by apply IH].
Qed.

Lemma SetStart_loop_rows st off t :
  ColumnSegment.rows <$> SetStart_loop st off t = ColumnSegment.rows <$> t.
Proof.
  revert off. induction t as [|s t IH]; intros off; simpl; [done|].
  by rewrite IH.
Qed.

Lemma sum_counts_fmap t t' :
  ColumnSegment.count <$> t = ColumnSegment.count <$> t' → sum_counts t = sum_counts t'.
Proof.
  revert t'. induction t as [|s t IH]; intros [|s' t'] H; try done.
  simpl in H. injection H as Hs Ht. simpl. rewrite Hs. f_equal. by apply IH.
Qed.

Lemma SetStart_column_ok c new_start :
  column_ok c → new_start + count c < IDX_MODULUS →
  column_ok (SetStart c new_start)
  ∧ all_rows (data (SetStart c new_start)) = all_rows (data c)
  ∧ start (SetStart c new_start) = new_start
  ∧ count (SetStart c new_start) = count c
  ∧ updates (SetStart c new_start) = updates c.
Proof.
  intros (Hcont & Hrows & Hsum & Hmod & Htypes) Hnew.
  unfold SetStart, Reinitialize. simpl.
  assert (sum_counts (SetStart_loop new_start 0 (data c)) = count c) as Hsum'.
  { rewrite <- Hsum. apply sum_counts_fmap, SetStart_loop_counts. }
  split; [|split; [|done]].
  - split; [|split; [|split; [|split]]]; simpl.
    + replace new_start with (new_start + 0) at 1 by lia.
      apply SetStart_loop_contiguous. lia.
    + by apply SetStart_loop_Forall.
    + done.
    + done.
    + by apply SetStart_loop_Forall.
  - unfold all_rows. by rewrite SetStart_loop_rows.
Qed.

(** X17. [SetStart] moves the row ids and nothing else: a well-formed
    column stays well formed with the same count and the same stored rows,
    and, the column having no updates, [FetchRow] finds at row id
    [new_start + k] of the moved column the value it finds at row id
    [start + k] of the column as it was. *)
Theorem SetStart_moves_the_row_ids_only
    (c : ColumnData) (new_start : idx_t) (transaction : TransactionData)
    (result : Vector) (result_idx : idx_t) :
  column_ok c → new_start + count c < IDX_MODULUS → updates c = None →
  column_ok (SetStart c new_start)
  ∧ count (SetStart c new_start) = count c
  ∧ all_rows (data (SetStart c new_start)) = all_rows (data c)
  ∧ ∀ k, k < count c →
      ∃ v before after,
        FetchRow c transaction (Z.of_N (start c + k)) result result_idx = Ok before
        ∧ FetchRow (SetStart c new_start) transaction (Z.of_N (new_start + k)) result
            result_idx = Ok after
        ∧ before !! N.to_nat result_idx = Some v
        ∧ after !! N.to_nat result_idx = Some v.
Proof.
  intros Hok Hnew Hnone.
  destruct (SetStart_column_ok c new_start Hok Hnew)
    as (Hok' & Hrows & Hstart & Hcount & Hupd).
  split; [done|]. split; [done|]. split; [done|]. intros k Hk.
  pose proof Hok as (_ & _ & _ & Hmod & _).
  destruct (FetchRow_stored c transaction (Z.of_N (start c + k)) result result_idx Hok Hnone)
    as (v & before & Hv & Hbefore & Hat); [lia|rewrite N2Z.id; lia|].
  destruct (FetchRow_stored (SetStart c new_start) transaction (Z.of_N (new_start + k))
              result result_idx Hok')
    as (v' & after & Hv' & Hafter & Hat');
    [by rewrite Hupd|lia|rewrite N2Z.id, Hstart, Hcount; lia|].
  rewrite N2Z.id in Hv, Hv'. rewrite Hstart, Hrows in Hv'.
  replace (new_start + k - new_start) with (start c + k - start c) in Hv' by lia.
  assert (v' = v) as -> by congruence.
  by exists v, before, after.
Qed.

(** X27. [SetStart] looks at the counts of the segments only: setting the
    start twice is setting it to the last value, and setting it to the
    start the column has leaves a column whose segments are contiguous from
    that start as it is. *)
Theorem SetStart_twice_is_the_last_SetStart (c : ColumnData) :
  (∀ first second, SetStart (SetStart c first) second = SetStart c second)
  ∧ (contiguous (start c) (data c) → start c + sum_counts (data c) < IDX_MODULUS →
     SetStart c (start c) = c).
Proof.
  split.
  - intros first second. unfold SetStart, Reinitialize. simpl. f_equal.
    assert (∀ t offset offset',
              SetStart_loop second offset' (SetStart_loop first offset t)
              = SetStart_loop second offset' t) as Hloop.
    { induction t as [|s t IH]; intros offset offset'; simpl; [done|]. by rewrite IH. }
    apply Hloop.
  - intros Hcont Hend. unfold SetStart, Reinitialize.
    assert (∀ t offset, contiguous (start c + offset) t →
              start c + offset + sum_counts t < IDX_MODULUS →
              SetStart_loop (start c) offset t = t) as Hloop.
    { induction t as [|s t IH]; intros offset Ht Hlt; simpl in *; [done|].
      destruct Ht as [Hs Ht]. rewrite idx_add_small by lia. f_equal.
      - destruct s. simpl in *. by subst.
      - rewrite idx_add_small by lia. apply IH; [by rewrite N.add_assoc|lia]. }
    simpl. rewrite (Hloop (data c) 0); [by destruct c| |]; rewrite N.add_0_r; done.
Qed.

(** ** Scanning one segment for a checkpoint *)

(** X18. [CheckpointScan] of rows that lie inside the segment decodes the
    segment's rows from the cursor's row on into the start of the vector,
    the same whether it goes row by row ([force_fetch_row]) or in one scan;
    a column with updates then hands the vector to the overlay's
    [FetchCommittedRange] with the cursor's row relative to the row group
    start. *)
Theorem CheckpointScan_decodes_the_segment_rows
    (c : ColumnData) (segment : ColumnSegment) (state : ColumnScanState)
    (row_group_start count : idx_t) (scan_vector : Vector) :
  length (ColumnSegment.rows segment) = N.to_nat (ColumnSegment.count segment) →
  ColumnSegment.start segment ≤ ColumnScanState.row_index state →
  ColumnScanState.row_index state + count
    ≤ ColumnSegment.start segment + ColumnSegment.count segment →
  ColumnSegment.start segment + ColumnSegment.count segment < IDX_MODULUS →
  let stored :=
    take (N.to_nat count)
      (drop (N.to_nat (ColumnScanState.row_index state - ColumnSegment.start segment))
         (ColumnSegment.rows segment)) in
  ∃ decoded,
    take (N.to_nat count) decoded = stored
    ∧ length stored = N.to_nat count
    ∧ ∀ flag,
        CheckpointScan c segment (with_force_fetch_row state flag) row_group_start count
          scan_vector
        = match updates c with
          | None => decoded
          | Some u =>
            UpdateSegment_FetchCommittedRange u
              (idx_sub (ColumnScanState.row_index state) row_group_start) count decoded
          end.
Proof.
  intros Hrows Hlo Hhi Hend stored.
  assert (length stored = N.to_nat count) as Hlen.
  { unfold stored. rewrite length_take, length_drop. lia. }
  exists (vector_write scan_vector 0 stored). split; [|split; [done|]].
  - rewrite <- Hlen at 1.
    pose proof (vector_write_take scan_vector 0 stored) as Hw. simpl in Hw.
    rewrite Hw by lia. done.
  - intros flag. unfold CheckpointScan.
    assert ((if ColumnScanState.force_fetch_row (with_force_fetch_row state flag)
             then fetch_rows segment
                    (ColumnScanState.row_index (with_force_fetch_row state flag)) count
                    scan_vector 0
             else ColumnSegment_Scan segment (with_force_fetch_row state flag) count
                    scan_vector 0 (negb (HasUpdates c)))
            = vector_write scan_vector 0 stored) as ->; [|done].
    destruct flag; simpl.
    + rewrite fetch_rows_as_scan; [done|done|done|done|done|lia|simpl; lia].
    + unfold ColumnSegment_Scan. simpl. rewrite idx_sub_small by lia.
      rewrite slice_exact by lia. done.
Qed.

(** ** Segment information *)

Lemma string_app_cons x (s1 s2 : string) : String x s1 +:+ s2 = String x (s1 +:+ s2).
Proof. reflexivity. Qed.

Lemma string_app_assoc (s1 s2 s3 : string) : (s1 +:+ s2) +:+ s3 = s1 +:+ s2 +:+ s3.
Proof.
  induction s1 as [|x s1 IH]; [reflexivity|]. by rewrite !string_app_cons, IH.
Qed.

Lemma string_app_empty_r (s : string) : s +:+ EmptyString = s.
Proof.
  induction s as [|x s IH]; [reflexivity|]. by rewrite string_app_cons, IH.
Qed.

Lemma col_path_loop_rest col_path i acc :
  (0 < i)%nat → col_path_loop col_path i acc = acc +:+ join_rest col_path.
Proof.
  revert i acc. induction col_path as [|x rest IH]; intros i acc Hi; simpl.
  - by rewrite string_app_empty_r.
  - destruct (Nat.ltb_spec 0 i); [|lia].
    rewrite IH by lia. by rewrite !string_app_assoc.
Qed.

Lemma col_path_loop_join col_path acc :
  col_path_loop col_path 0 acc = acc +:+ join_path col_path.
Proof.
  destruct col_path as [|x rest]; simpl.
  - by rewrite string_app_empty_r.
  - rewrite col_path_loop_rest by lia. by rewrite string_app_assoc.
Qed.

Section SegmentInfoProperties.
Context {printers : Printers}.

Lemma GetColumnSegmentInfo_loop_spec c row_group_index column_id rest col_path_str :
  N.of_nat (length (data c)) < IDX_MODULUS →
  ∀ remaining done fuel result,
    data c = done ++ remaining →
    (length remaining < fuel)%nat →
    GetColumnSegmentInfo_loop fuel c row_group_index (column_id :: rest) col_path_str
      (match remaining with [] => None | _ => Some (length done) end)
      (N.of_nat (length done)) result
    = Ok (result ++ imap (fun j seg =>
                            column_info_of c row_group_index column_id col_path_str
                              (N.of_nat (length done + j)) seg) remaining).
Proof.
  intros Hsize remaining.
  induction remaining as [|seg remaining IH]; intros done fuel result Hdata Hfuel;
    (destruct fuel as [|fuel]; [simpl in Hfuel; lia|]); cbn [GetColumnSegmentInfo_loop].
  - by rewrite app_nil_r.
  - change (vector_at (column_id :: rest) 0) with (Ok column_id).
    rewrite Hdata, list_lookup_middle by done. cbn [deref]. rewrite !Ok_bind.
    simpl in Hfuel.
    assert (length (data c) = (length done + S (length remaining))%nat) as Hlen
      by (rewrite Hdata, length_app; done).
    assert (idx_add (N.of_nat (length done)) 1 = N.of_nat (length (done ++ [seg]))) as ->.
    { rewrite idx_add_small by lia. rewrite length_app. simpl. lia. }
    assert (GetNextSegment (done ++ seg :: remaining) (length done)
            = match remaining with [] => None | _ => Some (length (done ++ [seg])) end) as ->.
    { unfold GetNextSegment. rewrite <- Hdata, Hlen, length_app. simpl.
      destruct remaining; simpl.
      - rewrite decide_False by lia. done.
      - rewrite decide_True by lia. f_equal. lia. }
    rewrite (IH (done ++ [seg])); [|by rewrite <- app_assoc|lia].
    rewrite <- app_assoc. f_equal. simpl. rewrite Nat.add_0_r. f_equal. f_equal.
    apply imap_ext. intros j s _. simpl. rewrite length_app. simpl.
    f_equal. lia.
Qed.

(** X19. [GetColumnSegmentInfo] appends to the result one entry per segment
    of the column, in the order of the segments and numbered from 0, each
    with the first entry of the column path as column id and the whole path
    printed as its entries in decimal, separated by a comma and a space, in
    square brackets.  With an empty path a debug build fails on the
    assertion. *)
Theorem GetColumnSegmentInfo_one_entry_per_segment
    (debug : bool) (c : ColumnData) (row_group_index : idx_t)
    (result : list ColumnSegmentInfo) :
  N.of_nat (length (data c)) < IDX_MODULUS →
  (∀ column_id rest,
     GetColumnSegmentInfo debug c row_group_index (column_id :: rest) result
     = Ok (result ++
           imap (fun i seg =>
                   column_info_of c row_group_index column_id
                     ("[" +:+ join_path (column_id :: rest) +:+ "]") (N.of_nat i) seg)
             (data c)))
  ∧ GetColumnSegmentInfo true c row_group_index [] result = Throw InternalException.
Proof.
  intros Hsize. split.
  - intros column_id rest. unfold GetColumnSegmentInfo.
    rewrite bool_decide_false by done. cbn [negb]. rewrite D_ASSERT_holds, Ok_bind.
    rewrite col_path_loop_join, string_app_assoc.
    pose proof (GetColumnSegmentInfo_loop_spec c row_group_index column_id rest
                  ("[" +:+ join_path (column_id :: rest) +:+ "]") Hsize (data c) []
                  (S (length (data c))) result) as Hloop.
    unfold GetRootSegment. apply (Hloop eq_refl). lia.
  - done.
Qed.

End SegmentInfoProperties.

(** ** The bindings and types of [LogicalGet] *)

Section PlannerProperties.
Context {planner : PlannerConstants}.

Lemma GetColumnBindings_length g :
  length (GetColumnBindings g) = Nat.max 1 (length (LogicalGet.column_ids g)).
Proof.
  unfold GetColumnBindings. case_bool_decide as Hids.
  - by rewrite Hids.
  - rewrite length_fmap, length_seq. destruct (LogicalGet.column_ids g); [done|simpl; lia].
Qed.

Lemma ResolveTypes_loop_spec g :
  ∀ column_ids types,
    (∀ index, index ∈ column_ids → is_Some (resolved_type g index)) →
    ∃ resolved,
      ResolveTypes_loop (LogicalGet.returned_types g) column_ids types = Ok (types ++ resolved)
      ∧ Forall2 (fun index type => resolved_type g index = Some type) column_ids resolved.
Proof.
  induction column_ids as [|index column_ids IH]; intros types Hin; simpl.
  - exists []. by rewrite app_nil_r.
  - destruct (Hin index) as [type Htype]; [by left|].
    unfold resolved_type in Htype.
    destruct (IH (types ++ [type])) as (resolved & Hrun & Hall).
    { intros i Hi. apply Hin. by right. }
    exists (type :: resolved). rewrite <- app_assoc in Hrun. simpl in Hrun.
    split.
    + destruct (index =? COLUMN_IDENTIFIER_ROW_ID) eqn:Hrow.
      * by injection Htype as <-.
      * rewrite Htype. cbn [deref]. by rewrite Ok_bind.
    + apply Forall2_cons. split; [|done]. unfold resolved_type.
      by destruct (index =? COLUMN_IDENTIFIER_ROW_ID).
Qed.

Lemma ResolveTypes_loop_out_of_range g :
  ∀ column_ids types,
    (∃ index, index ∈ column_ids ∧ resolved_type g index = None) →
    ResolveTypes_loop (LogicalGet.returned_types g) column_ids types = Undefined.
Proof.
  induction column_ids as [|index column_ids IH]; intros types (bad & Hbad & Hnone).
  - by apply elem_of_nil in Hbad.
  - simpl. unfold resolved_type in Hnone.
    destruct (index =? COLUMN_IDENTIFIER_ROW_ID) eqn:Hrow.
    + apply IH. exists bad. split; [|done].
      apply elem_of_cons in Hbad as [->|Hbad]; [|done]. by rewrite Hrow in Hnone.
    + destruct (LogicalGet.returned_types g !! N.to_nat index) as [type|] eqn:Htype.
      * cbn [deref]. rewrite Ok_bind. apply IH. exists bad. split; [|done].
        apply elem_of_cons in Hbad as [->|Hbad]; [|done].
        rewrite Hrow in Hnone. congruence.
      * done.
Qed.

(** X20. [ResolveTypes] leaves the operator with at least one column id (the
    row id when it had none), appends one type per column id to the types it
    had, the row type for the row id and the returned type at that index for
    any other id, and leaves [GetColumnBindings] as it was, one binding per
    resolved type: the table index with positions 0, 1, ... *)
Theorem ResolveTypes_gives_one_type_per_binding (g : LogicalGet) :
  (∀ index, index ∈ LogicalGet.column_ids g → is_Some (resolved_type g index)) →
  ∃ g' resolved,
    ResolveTypes g = Ok g'
    ∧ LogicalGet.column_ids g'
      = (if bool_decide (LogicalGet.column_ids g = []) then [COLUMN_IDENTIFIER_ROW_ID]
         else LogicalGet.column_ids g)
    ∧ LogicalGet.types g' = LogicalGet.types g ++ resolved
    ∧ Forall2 (fun index type => resolved_type g index = Some type)
        (LogicalGet.column_ids g') resolved
    ∧ GetColumnBindings g' = GetColumnBindings g
    ∧ length resolved = length (GetColumnBindings g)
    ∧ (∀ i binding, GetColumnBindings g !! i = Some binding →
         binding = mkBinding (LogicalGet.table_index g) (N.of_nat i)).
Proof.
  intros Hin. unfold ResolveTypes.
  set (g1 := if bool_decide (LogicalGet.column_ids g = []) then _ else g).
  assert (LogicalGet.returned_types g1 = LogicalGet.returned_types g
          ∧ LogicalGet.types g1 = LogicalGet.types g
          ∧ LogicalGet.table_index g1 = LogicalGet.table_index g
          ∧ LogicalGet.column_ids g1
            = (if bool_decide (LogicalGet.column_ids g = []) then [COLUMN_IDENTIFIER_ROW_ID]
               else LogicalGet.column_ids g)) as (Hret & Htypes & Htable & Hids).
  { unfold g1. by case_bool_decide. }
  destruct (ResolveTypes_loop_spec g (LogicalGet.column_ids g1) (LogicalGet.types g))
    as (resolved & Hrun & Hall).
  { intros index Hindex. rewrite Hids in Hindex. case_bool_decide as Hempty.
    - apply list_elem_of_singleton in Hindex as ->. unfold resolved_type.
      by rewrite N.eqb_refl.
    - by apply Hin. }
  rewrite Hret, Htypes, Hrun, Ok_bind.
  assert (GetColumnBindings (LogicalGet.set_types g1 (LogicalGet.types g ++ resolved))
          = GetColumnBindings g) as Hbind.
  { unfold GetColumnBindings. simpl. rewrite Hids, Htable.
    destruct (decide (LogicalGet.column_ids g = [])) as [Hempty|Hempty].
    - rewrite !(bool_decide_true _ Hempty). by rewrite bool_decide_false.
    - by rewrite !(bool_decide_false _ Hempty). }
  exists (LogicalGet.set_types g1 (LogicalGet.types g ++ resolved)), resolved.
  split; [done|]. split; [done|]. split; [done|]. split; [done|]. split; [done|].
  split.
  - rewrite <- (Forall2_length _ _ _ Hall). simpl. rewrite GetColumnBindings_length, Hids.
    case_bool_decide as Hempty; [by rewrite Hempty|].
    destruct (LogicalGet.column_ids g); [done|simpl; lia].
  - intros i binding. unfold GetColumnBindings. case_bool_decide as Hempty.
    + destruct i; [by intros [= <-]|done].
    + rewrite list_lookup_fmap. intros Hi.
      destruct (seq 0 (length (LogicalGet.column_ids g)) !! i) as [j|] eqn:Hj; [|done].
      apply lookup_seq in Hj as [-> _]. simpl in Hi. by injection Hi as <-.
Qed.

(** X21. [ResolveTypes] does not check the column ids: an id that is neither
    the row id nor an index into the returned types makes it read past the
    end of the returned types.  It appends to the types and does not replace
    them: run again on its own result, it appends the same types once
    more. *)
Theorem ResolveTypes_appends_and_does_not_check (g : LogicalGet) :
  ((∃ index, index ∈ LogicalGet.column_ids g ∧ resolved_type g index = None) →
   ResolveTypes g = Undefined)
  ∧ (∀ g', ResolveTypes g = Ok g' →
       ∃ resolved g'',
         LogicalGet.types g' = LogicalGet.types g ++ resolved
         ∧ ResolveTypes g' = Ok g''
         ∧ LogicalGet.types g'' = (LogicalGet.types g ++ resolved) ++ resolved
         ∧ LogicalGet.column_ids g'' = LogicalGet.column_ids g').
Proof.
  split.
  - intros (bad & Hbad & Hnone). unfold ResolveTypes.
    rewrite bool_decide_false by (intros Hnil; rewrite Hnil in Hbad; by apply elem_of_nil in Hbad).
    by rewrite (ResolveTypes_loop_out_of_range g _ _ (ex_intro _ bad (conj Hbad Hnone))).
  - intros g' Hrun.
    assert (∀ index, index ∈ LogicalGet.column_ids g → is_Some (resolved_type g index))
      as Hin.
    { intros index Hindex. destruct (resolved_type g index) eqn:Hres; [done|].
      assert (ResolveTypes g = Undefined) as Hund.
      { unfold ResolveTypes.
        rewrite bool_decide_false
          by (intros Hnil; rewrite Hnil in Hindex; by apply elem_of_nil in Hindex).
        by rewrite (ResolveTypes_loop_out_of_range g _ _ (ex_intro _ index (conj Hindex Hres))). }
      congruence. }
    unfold ResolveTypes in Hrun |- *.
    set (g1 := if bool_decide (LogicalGet.column_ids g = []) then _ else g) in *.
    assert (LogicalGet.returned_types g1 = LogicalGet.returned_types g
            ∧ LogicalGet.types g1 = LogicalGet.types g
            ∧ LogicalGet.column_ids g1 ≠ []
            ∧ ∀ index, index ∈ LogicalGet.column_ids g1 → is_Some (resolved_type g index))
      as (Hret & Htypes & Hne & Hin1).
    { unfold g1. case_bool_decide as Hempty; simpl; [|done].
      split; [done|]. split; [done|]. split; [done|].
      intros index Hindex. apply list_elem_of_singleton in Hindex as ->.
      unfold resolved_type. by rewrite N.eqb_refl. }
    destruct (ResolveTypes_loop_spec g (LogicalGet.column_ids g1) (LogicalGet.types g) Hin1)
      as (resolved & Hloop & _).
    rewrite Hret, Htypes, Hloop, Ok_bind in Hrun. apply mret_Ok in Hrun. subst g'.
    destruct (ResolveTypes_loop_spec g (LogicalGet.column_ids g1)
                (LogicalGet.types g ++ resolved) Hin1) as (resolved' & Hloop' & Hall').
    destruct (ResolveTypes_loop_spec g (LogicalGet.column_ids g1) (LogicalGet.types g) Hin1)
      as (resolved0 & Hloop0 & Hall0).
    assert (resolved0 = resolved) as ->.
    { rewrite Hloop in Hloop0. injection Hloop0 as Heq. by apply app_inv_head in Heq. }
    assert (resolved' = resolved) as ->.
    { clear -Hall' Hall0. revert resolved' Hall'.
      induction Hall0 as [|index type ids types Hx _ IH]; intros resolved' Hall'.
      - by inversion Hall'.
      - inversion Hall' as [|? type' ? types' Hx' Hrest]; subst. f_equal; [congruence|].
        by apply IH. }
    exists resolved. eexists. split; [done|].
    cbn [LogicalGet.column_ids LogicalGet.set_types].
    rewrite (bool_decide_false _ Hne).
    cbn [LogicalGet.column_ids LogicalGet.returned_types LogicalGet.types
         LogicalGet.set_types].
    rewrite Hret, Hloop', Ok_bind. split; [done|]. done.
Qed.

End PlannerProperties.

(** ** List vector buffers *)

Section ListBufferProperties.
Context {ChildVector : Type} {operations : VectorOperations ChildVector}.

Lemma Reserve_spec debug (b : VectorListBuffer ChildVector) to_reserve :
  to_reserve ≤ IDX_MODULUS - STANDARD_VECTOR_SIZE →
  ∃ b',
    Reserve debug b to_reserve = Ok b'
    ∧ to_reserve ≤ VectorListBuffer.capacity b'
    ∧ VectorListBuffer.capacity b ≤ VectorListBuffer.capacity b'
    ∧ VectorListBuffer.capacity b' < N.max (VectorListBuffer.capacity b + 1)
                                       (to_reserve + STANDARD_VECTOR_SIZE)
    ∧ VectorListBuffer.size b' = VectorListBuffer.size b
    ∧ (VectorListBuffer.capacity b < to_reserve →
       VectorListBuffer.capacity b' mod STANDARD_VECTOR_SIZE = 0
       ∧ VectorListBuffer.capacity b' < to_reserve + STANDARD_VECTOR_SIZE)
    ∧ (to_reserve ≤ VectorListBuffer.capacity b → b' = b).
Proof.
  intros Hmax. unfold Reserve.
  destruct (N.ltb_spec (VectorListBuffer.capacity b) to_reserve) as [Hgrow|Hfits].
  - set (new_capacity := idx_mul _ _).
    assert (new_capacity
            = (to_reserve + STANDARD_VECTOR_SIZE - 1) / STANDARD_VECTOR_SIZE
              * STANDARD_VECTOR_SIZE) as Hnew.
    { unfold new_capacity, idx_mul, idx_sub, idx_add, wrap, IDX_MODULUS,
        STANDARD_VECTOR_SIZE in *. lia. }
    assert (to_reserve ≤ new_capacity ∧ new_capacity < to_reserve + STANDARD_VECTOR_SIZE
            ∧ new_capacity mod STANDARD_VECTOR_SIZE = 0) as (Hge & Hlt & Hmod).
    { rewrite Hnew. unfold STANDARD_VECTOR_SIZE. lia. }
    clearbody new_capacity.
    rewrite (proj2 (N.leb_le _ _) Hge), Hmod, N.eqb_refl, !D_ASSERT_holds, !Ok_bind.
    eexists. split; [done|]. simpl. repeat split; try lia.
  - exists b. repeat split; lia.
Qed.

(** X22. [Reserve] of at most [2^64 - 1024] entries gives a buffer with
    room for at least that many and never less room than before, with the
    same number of entries in use; a buffer that has the room is left as it
    is, and one that has not gets the request rounded up to the next
    multiple of 1024.  The assertions hold. *)
Theorem Reserve_rounds_up_to_the_vector_size
    (debug : bool) (b : VectorListBuffer ChildVector) (to_reserve : idx_t) :
  to_reserve ≤ IDX_MODULUS - STANDARD_VECTOR_SIZE →
  ∃ b',
    Reserve debug b to_reserve = Ok b'
    ∧ to_reserve ≤ VectorListBuffer.capacity b'
    ∧ VectorListBuffer.capacity b ≤ VectorListBuffer.capacity b'
    ∧ VectorListBuffer.size b' = VectorListBuffer.size b
    ∧ (VectorListBuffer.capacity b < to_reserve →
       VectorListBuffer.capacity b' mod STANDARD_VECTOR_SIZE = 0
       ∧ VectorListBuffer.capacity b' < to_reserve + STANDARD_VECTOR_SIZE)
    ∧ (to_reserve ≤ VectorListBuffer.capacity b → b' = b).
Proof.
  intros Hmax.
  destruct (Reserve_spec debug b to_reserve Hmax)
    as (b' & Hrun & Hge & Hmono & _ & Hsize & Hgrow & Hsame).
  by exists b'.
Qed.

(** X23. A request of more than [2^64 - 1024] entries that the buffer has
    no room for overflows the rounding: a debug build fails on the first
    assertion, and a release build sets the capacity to zero. *)
Theorem Reserve_overflows_near_the_top
    (b : VectorListBuffer ChildVector) (to_reserve : idx_t) :
  IDX_MODULUS - STANDARD_VECTOR_SIZE < to_reserve < IDX_MODULUS →
  VectorListBuffer.capacity b < to_reserve →
  Reserve true b to_reserve = Throw InternalException
  ∧ ∃ b', Reserve false b to_reserve = Ok b'
          ∧ VectorListBuffer.capacity b' = 0
          ∧ VectorListBuffer.size b' = VectorListBuffer.size b.
Proof.
  intros Hhigh Hgrow. unfold Reserve.
  destruct (N.ltb_spec (VectorListBuffer.capacity b) to_reserve) as [_|Hfits]; [|lia].
  set (new_capacity := idx_mul _ _).
  assert (new_capacity = 0) as Hnew.
  { unfold new_capacity, idx_mul, idx_sub, idx_add, wrap, IDX_MODULUS,
      STANDARD_VECTOR_SIZE in *. lia. }
  clearbody new_capacity. subst new_capacity. split.
  - destruct (N.leb_spec to_reserve 0) as [Hle|_]; [unfold IDX_MODULUS, STANDARD_VECTOR_SIZE in *; lia|].
    done.
  - rewrite !D_ASSERT_release, !Ok_bind. eexists. by split.
Qed.

Lemma Append_size_spec debug (b : VectorListBuffer ChildVector) to_append_size source_offset :
  buffer_ok b →
  source_offset ≤ to_append_size →
  VectorListBuffer.size b + (to_append_size - source_offset)
    ≤ IDX_MODULUS - STANDARD_VECTOR_SIZE →
  to_append_size < IDX_MODULUS →
  ∃ b',
    Reserve debug b
      (idx_sub (idx_add (VectorListBuffer.size b) to_append_size) source_offset) = Ok b'
    ∧ VectorListBuffer.size b' = VectorListBuffer.size b
    ∧ VectorListBuffer.capacity b ≤ VectorListBuffer.capacity b'
    ∧ VectorListBuffer.capacity b' < IDX_MODULUS
    ∧ idx_add (VectorListBuffer.size b') (idx_sub to_append_size source_offset)
      = VectorListBuffer.size b + (to_append_size - source_offset)
    ∧ VectorListBuffer.size b + (to_append_size - source_offset)
      ≤ VectorListBuffer.capacity b'.
Proof.
  intros [Hsize Hcap] Hoff Hroom Hn.
  assert (idx_sub (idx_add (VectorListBuffer.size b) to_append_size) source_offset
          = VectorListBuffer.size b + (to_append_size - source_offset)) as Hreq.
  { unfold idx_sub, idx_add, wrap, IDX_MODULUS, STANDARD_VECTOR_SIZE in *. lia. }
  rewrite Hreq.
  destruct (Reserve_spec debug b _ Hroom) as (b' & Hrun & Hge & Hmono & Hlt & Hsz & _).
  exists b'. split; [done|]. split; [done|]. split; [done|].
  split; [unfold IDX_MODULUS, STANDARD_VECTOR_SIZE in *; lia|]. split; [|done].
  rewrite Hsz. unfold idx_sub, idx_add, wrap, IDX_MODULUS, STANDARD_VECTOR_SIZE in *. lia.
Qed.

(** X24. [Append], in either form, keeps the entries in use within the room
    of the buffer: on a buffer whose size is at most its capacity, appending
    the entries from [source_offset] up to [to_append_size] raises the size
    by their number and leaves it at most the capacity, which does not
    shrink. *)
Theorem Append_keeps_the_size_within_the_capacity
    (debug : bool) (b : VectorListBuffer ChildVector) (to_append : Vector)
    (sel : list idx_t) (to_append_size source_offset : idx_t) :
  buffer_ok b →
  source_offset ≤ to_append_size →
  VectorListBuffer.size b + (to_append_size - source_offset)
    ≤ IDX_MODULUS - STANDARD_VECTOR_SIZE →
  to_append_size < IDX_MODULUS →
  (∃ b', VectorListBuffer_Append debug b to_append to_append_size source_offset = Ok b'
         ∧ VectorListBuffer.size b'
           = VectorListBuffer.size b + (to_append_size - source_offset)
         ∧ VectorListBuffer.capacity b ≤ VectorListBuffer.capacity b'
         ∧ buffer_ok b')
  ∧ (∃ b', VectorListBuffer_Append_sel debug b to_append sel to_append_size source_offset
           = Ok b'
           ∧ VectorListBuffer.size b'
             = VectorListBuffer.size b + (to_append_size - source_offset)
           ∧ VectorListBuffer.capacity b ≤ VectorListBuffer.capacity b'
           ∧ buffer_ok b').
Proof.
  intros Hok Hoff Hroom Hn.
  destruct (Append_size_spec debug b to_append_size source_offset Hok Hoff Hroom Hn)
    as (b1 & Hrun & Hsz & Hmono & Hcap & Hadd & Hfit).
  split.
  - unfold VectorListBuffer_Append. rewrite Hrun, Ok_bind. eexists. split; [done|].
    simpl. rewrite Hadd. split; [done|]. split; [done|]. by split.
  - unfold VectorListBuffer_Append_sel. rewrite Hrun, Ok_bind. eexists. split; [done|].
    simpl. rewrite Hadd. split; [done|]. split; [done|]. by split.
Qed.

(** X25. [PushBack] on a buffer with room for at least one entry keeps the
    size within the capacity: the size goes up by one and the capacity
    doubles exactly when the buffer was full.  A buffer of capacity zero
    never grows: its capacity stays zero while the size goes up. *)
Theorem PushBack_doubles_a_full_buffer
    (b : VectorListBuffer ChildVector) (insert : Value) :
  VectorListBuffer.size b + 1 < IDX_MODULUS →
  VectorListBuffer.size (PushBack b insert) = VectorListBuffer.size b + 1
  ∧ (buffer_ok b → 0 < VectorListBuffer.capacity b →
     2 * VectorListBuffer.capacity b < IDX_MODULUS →
     buffer_ok (PushBack b insert)
     ∧ VectorListBuffer.capacity (PushBack b insert)
       = if decide (VectorListBuffer.size b = VectorListBuffer.capacity b)
         then 2 * VectorListBuffer.capacity b
         else VectorListBuffer.capacity b)
  ∧ (VectorListBuffer.capacity b = 0 →
     VectorListBuffer.capacity (PushBack b insert) = 0
     ∧ ¬ buffer_ok (PushBack b insert)).
Proof.
  intros Hsize. unfold PushBack, buffer_ok.
  rewrite (idx_add_small (VectorListBuffer.size b) 1) by done.
  destruct (N.ltb_spec (VectorListBuffer.capacity b) (VectorListBuffer.size b + 1))
    as [Hfull|Hroom]; simpl; rewrite ?idx_add_small by done.
  - split; [done|]. split.
    + intros [Hle Hcap] Hpos Hdouble. unfold idx_mul. rewrite wrap_small by lia.
      rewrite decide_True by lia. lia.
    + intros Hzero. rewrite Hzero. change (idx_mul 0 2) with 0. split; [done|]. lia.
  - split; [done|]. split.
    + intros [Hle Hcap] Hpos Hdouble. rewrite decide_False by lia. lia.
    + intros Hzero. lia.
Qed.

End ListBufferProperties.
End Properties.

(** * The properties on the worked examples *)

Section Examples.
#[local] Existing Instance example_constants.
#[local] Existing Instance example_checkpointer.

(** Ten rows appended to a fresh column, four to a segment. *)
Lemma AppendData_absorbs_all_rows_witness :
  ∃ c1 state1 c' stats' state',
    InitializeAppend true empty_column no_append_state = Ok (c1, state1)
    ∧ AppendData 11 c1 (CreateEmpty INTEGER) state1 (int_rows 0 10) 10
      = Ok (c', stats', state')
    ∧ count c' = 10
    ∧ sum_counts (data c') = count c'
    ∧ all_rows (data c') = int_rows 0 10.
Proof.
  destruct (AppendData_absorbs_all_rows true 11 empty_column no_append_state
              (CreateEmpty INTEGER) (int_rows 0 10) 10)
    as (c1 & state1 & c' & state' & front & seg' & fresh & Hinit & _ & Hrun & Hcount
        & Hsum & _ & _ & _ & _ & Hrows & _).
  - unfold type_size_ok. vm_compute. repeat split; discriminate.
  - exact I.
  - reflexivity.
  - constructor.
  - constructor.
  - vm_compute. reflexivity.
  - vm_compute. lia.
  - eexists c1, state1, c', _, state'.
    split; [exact Hinit|]. split; [exact Hrun|]. split; [exact Hcount|].
    split; [exact Hsum|]. exact Hrows.
Defined.

(** Reverting [five_rows] from row 4 on, in the middle of its second
    segment. *)
Lemma RevertAppend_by_position_witness :
  ∃ i seg,
    data five_rows !! i = Some seg
    ∧ ColumnSegment.start seg ≤ 4 < ColumnSegment.start seg + ColumnSegment.count seg
    ∧ RevertAppend true five_rows 4%Z
      = if true && negb (bool_decide (ColumnSegment.segment_type seg = TRANSIENT))
        then Throw InternalException
        else Ok (set_data (set_count five_rows (4 - start five_rows))
                   (take i (data five_rows) ++
                    [ColumnSegment.set_content seg (4 - ColumnSegment.start seg)
                       (ColumnSegment.stats seg)
                       (take (N.to_nat (4 - ColumnSegment.start seg))
                          (ColumnSegment.rows seg))])).
Proof.
  assert (data five_rows ≠ []) as H1 by discriminate.
  assert (contiguous (start five_rows) (data five_rows)) as H2
    by (repeat split; reflexivity).
  assert (start five_rows + sum_counts (data five_rows) < IDX_MODULUS) as H3
    by (vm_compute; reflexivity).
  destruct (RevertAppend_by_position true five_rows 4%Z H1 H2 H3) as (_ & _ & _ & H).
  apply H. vm_compute. split; [discriminate|reflexivity].
Defined.

(** A never-populated column, and one with three rows and a committed
    update. *)
Lemma Checkpoint_replaces_tree_and_clears_updates_witness :
  Checkpoint empty_column
  = Ok (empty_column, mkCheckpoint (CreateEmpty (type empty_column)) [])
  ∧ ∃ checkpoint_state c',
      Checkpoint three_rows_committed = Ok (c', checkpoint_state)
      ∧ data c' = new_tree checkpoint_state
      ∧ updates c' = None
      ∧ HasUpdates c' = false.
Proof.
  split.
  - apply (Checkpoint_replaces_tree_and_clears_updates empty_column). reflexivity.
  - destruct (Checkpoint_replaces_tree_and_clears_updates three_rows_committed) as [_ H].
    edestruct H as (c' & Hrun & Hdata & Hupdates & Hhas & _).
    + discriminate.
    + reflexivity.
    + eexists _, c'. split; [exact Hrun|]. split; [exact Hdata|].
      split; [exact Hupdates|exact Hhas].
Defined.

(** The second vector block of [two_blocks], which runs over the end of
    its first segment. *)
Lemma Scan_decodes_block_at_cursor_witness :
  let n := N.min STANDARD_VECTOR_SIZE (count two_blocks - 1 * STANDARD_VECTOR_SIZE) in
  let stored := take (N.to_nat n)
                  (drop (N.to_nat (1 * STANDARD_VECTOR_SIZE)) (all_rows (data two_blocks))) in
  ∃ state' result',
    Scan true two_blocks example_transaction 1 cursor_block_1 [] = Ok (state', result', n)
    ∧ length stored = N.to_nat n
    ∧ ColumnScanState.row_index state' = ColumnScanState.row_index cursor_block_1 + n
    ∧ take (N.to_nat n) result'
      = match updates two_blocks with
        | None => stored
        | Some u => overlay (visible_to example_transaction) (block_of u 1) stored
        end.
Proof.
  apply (Scan_decodes_block_at_cursor true two_blocks example_transaction 1
           cursor_block_1 [] 0 (example_segment PERSISTENT 0 0 1500)).
  - split; [repeat split; reflexivity|].
    split; [repeat constructor; vm_compute; reflexivity|].
    split; [reflexivity|]. split; [vm_compute; reflexivity|].
    repeat constructor.
  - vm_compute. reflexivity.
  - reflexivity.
  - reflexivity.
  - reflexivity.
  - vm_compute. split; discriminate.
  - discriminate.
Defined.

(** A committed-only scan that allows no pending update, over a block
    whose one update is committed. *)
Lemma transaction_conflict_only_from_FetchUpdates_witness :
  ∃ state' decoded,
    ScanCommitted true three_rows_committed 0
      (InitializeScan three_rows_committed ColumnScanState.fresh) [] false
    = Ok (state', FetchCommitted committed_updates 0 decoded, 3)
    ∧ decoded = [Int 10; Int 11; Int 12]
    ∧ FetchCommitted committed_updates 0 decoded = [Int 10; Int 99; Int 12].
Proof.
  destruct (transaction_conflict_only_from_FetchUpdates three_rows_committed
              (mkTransaction 0 0) 0 [] 3 false true) as (_ & _ & H).
  assert (∃ state',
            ScanVector true three_rows_committed
              (InitializeScan three_rows_committed ColumnScanState.fresh) []
              (N.min STANDARD_VECTOR_SIZE
                 (idx_sub (count three_rows_committed) (idx_mul 0 STANDARD_VECTOR_SIZE)))
              (HasUpdates three_rows_committed)
            = Ok (state', [Int 10; Int 11; Int 12], 3)) as [state' Hscan]
    by (eexists; vm_compute; reflexivity).
  pose proof (H true _ state' _ committed_updates Hscan eq_refl) as Hc.
  assert (HasUncommittedUpdates committed_updates 0 = false) as Hno
    by (vm_compute; reflexivity).
  rewrite Hno in Hc. destruct Hc as [Hrun _].
  eexists _, _. split; [exact Hrun|]. split; reflexivity.
Defined.

(** Fetching row 4 of [five_rows]: the block starts at row 0 and the column
    ends after five rows. *)
Lemma Fetch_decodes_block_of_row_witness :
  let block_start :=
    start five_rows
    + (Z.to_N 4 - start five_rows) / STANDARD_VECTOR_SIZE * STANDARD_VECTOR_SIZE in
  let n := N.min STANDARD_VECTOR_SIZE (start five_rows + count five_rows - block_start) in
  ∃ state' result',
    Fetch true five_rows ColumnScanState.fresh 4%Z [] = Ok (state', result', n)
    ∧ ColumnScanState.row_index state' = block_start + n
    ∧ take (N.to_nat n) result'
      = take (N.to_nat n)
          (drop (N.to_nat (block_start - start five_rows)) (all_rows (data five_rows)))
    ∧ Z.to_N 4 - block_start < n
    ∧ (n = STANDARD_VECTOR_SIZE
       ↔ block_start + STANDARD_VECTOR_SIZE ≤ start five_rows + count five_rows).
Proof.
  apply (Fetch_decodes_block_of_row true five_rows ColumnScanState.fresh 4%Z []).
  - split; [repeat split; reflexivity|].
    split; [repeat constructor|].
    split; [reflexivity|]. split; [vm_compute; reflexivity|].
    repeat constructor.
  - lia.
  - vm_compute. split; [discriminate|reflexivity].
Defined.

(** Two data pointers read into a fresh column. *)
Lemma DeserializeColumn_one_segment_per_pointer_witness :
  let c' := (DeserializeColumn empty_column example_pointers (CreateEmpty INTEGER)).1 in
  let target_stats' :=
    (DeserializeColumn empty_column example_pointers (CreateEmpty INTEGER)).2 in
  data c' = data empty_column
            ++ (CreatePersistentSegment (block_manager empty_column) (type empty_column)
                  <$> example_pointers)
  ∧ Forall2 (fun seg p =>
       ColumnSegment.segment_type seg = PERSISTENT
       ∧ ColumnSegment.start seg = row_start p
       ∧ ColumnSegment.count seg = tuple_count p
       ∧ ColumnSegment.stats seg = statistics p
       ∧ ColumnSegment.block_id seg = dp_block_id p
       ∧ ColumnSegment.offset seg = dp_offset p)
      (drop (length (data empty_column)) (data c')) example_pointers
  ∧ count c' = sum_tuple_counts example_pointers
  ∧ target_stats' = foldl Merge (CreateEmpty INTEGER) (statistics <$> example_pointers).
Proof.
  apply (DeserializeColumn_one_segment_per_pointer empty_column example_pointers
           (CreateEmpty INTEGER)).
  vm_compute. reflexivity.
Defined.

(** A column constructed with a parent. *)
Lemma statistics_operations_need_a_root_witness :
  (∀ fuel state vector n, Append fuel child_column state vector n = Throw InternalException)
  ∧ (∀ filter, CheckZonemap child_column filter = Throw InternalException)
  ∧ GetStatistics child_column = Throw InternalException
  ∧ (∀ other, MergeStatistics child_column other = Throw InternalException)
  ∧ (∀ other, MergeIntoStatistics child_column other = Throw InternalException).
Proof.
  apply (statistics_operations_need_a_root example_block_manager 1 0 INTEGER (Some 0)
           child_column).
  apply life_constructed.
Defined.

(** Moving [five_rows] to start at row 100. *)
Lemma SetStart_rebases_witness :
  start (SetStart five_rows 100) = 100
  ∧ ColumnSegment.count <$> data (SetStart five_rows 100)
    = ColumnSegment.count <$> data five_rows
  ∧ (∀ i s, data (SetStart five_rows 100) !! i = Some s →
       ColumnSegment.start s = 100 + sum_counts (take i (data five_rows)))
  ∧ contiguous 100 (data (SetStart five_rows 100)).
Proof.
  apply (SetStart_rebases five_rows 100). vm_compute. reflexivity.
Defined.

(** Asking for ten rows from row 1 of [five_rows], which has four left. *)
Lemma ScanVector_returns_rows_decoded_witness :
  let ahead := rows_ahead (data five_rows) 0 (example_segment TRANSIENT 0 10 3) cursor_row_1 in
  ∃ state' result' n,
    ScanVector true five_rows cursor_row_1 [] 10 false = Ok (state', result', n)
    ∧ n = N.min 10 (N.of_nat (length ahead))
    ∧ take (N.to_nat n) result' = take (N.to_nat n) ahead
    ∧ ColumnScanState.row_index state' = ColumnScanState.row_index cursor_row_1 + n
    ∧ (10 ≤ N.of_nat (length ahead) → n = 10)
    ∧ (n < 10 →
         N.of_nat (length ahead) < 10
         ∧ ∃ last, ColumnScanState.current state' = Some (length (data five_rows) - 1)%nat
                   ∧ data five_rows !! (length (data five_rows) - 1)%nat = Some last
                   ∧ ColumnScanState.row_index state'
                     = ColumnSegment.start last + ColumnSegment.count last).
Proof.
  apply (ScanVector_returns_rows_decoded true five_rows cursor_row_1 [] 10 false 0
           (example_segment TRANSIENT 0 10 3)).
  - split; [reflexivity|]. split; [reflexivity|].
    split; [repeat split; reflexivity|]. split; [repeat constructor|].
    split; [vm_compute; reflexivity|]. vm_compute. split; discriminate.
  - reflexivity.
  - discriminate.
  - vm_compute. reflexivity.
Defined.

(** * Where the code departs from the text *)

(** C2. [RevertAppend] is to fail with an internal error for a row that is
    in no segment and is not the tail boundary.  Row 10 of [three_rows] is
    such a row, and so is row -1.  The only check the code makes on a row
    at or past the boundary is its assertion that the row is the boundary:
    a build with assertions fails on it, as the claim says, and a build
    without them returns without an error and without a change. *)
Lemma RevertAppend_beyond_tail_is_silent :
  GetSegmentIndex (data three_rows) (idx_of_row 10%Z) = Throw InternalException
  ∧ idx_of_row 10%Z ≠ start three_rows + count three_rows
  ∧ RevertAppend true three_rows 10%Z = Throw InternalException
  ∧ RevertAppend false three_rows 10%Z = Ok three_rows
  ∧ GetSegmentIndex (data three_rows) (idx_of_row (-1)%Z) = Throw InternalException
  ∧ RevertAppend true three_rows (-1)%Z = Throw InternalException
  ∧ RevertAppend false three_rows (-1)%Z = Ok three_rows.
Proof.
  vm_compute. split; [reflexivity|]. split; [discriminate|]. repeat split; reflexivity.
Qed.

(** With a cursor just initialized, [Scan] for vector block 1 returns the
    rows the cursor stands at, rows 0 to 1023, not those from row 1024. *)
Lemma Scan_reads_from_the_cursor :
  ∃ state' result',
    Scan false two_blocks example_transaction 1
      (InitializeScan two_blocks ColumnScanState.fresh) [] = Ok (state', result', 1024)
    ∧ take 3 result' = [Int 0; Int 1; Int 2]
    ∧ take 3 (drop 1024 (all_rows (data two_blocks))) = [Int 1024; Int 1025; Int 1026].
Proof. eexists _, _. vm_compute. split; [reflexivity|]. split; reflexivity. Qed.

(** Row 1 of [three_rows_pending] has an uncommitted update of another
    transaction; [FetchUpdateRow] returns all the same, and has no way to
    be told otherwise. *)
Lemma FetchUpdateRow_ignores_pending_updates :
  HasUncommittedUpdates pending_updates 0 = true
  ∧ FetchUpdateRow three_rows_pending example_transaction 1%Z [Int 11] 0 = Ok [Int 11]
  ∧ ∀ transaction result result_idx,
      FetchUpdateRow three_rows_pending transaction 1%Z result result_idx
      ≠ Throw TransactionException.
Proof.
  split; [vm_compute; reflexivity|]. split; [vm_compute; reflexivity|].
  intros transaction result result_idx. apply FetchUpdateRow_no_conflict.
Qed.

(** [Fetch] on a column of three rows decodes three rows, not 1024. *)
Lemma Fetch_decodes_a_partial_block :
  ∃ state', Fetch false three_rows ColumnScanState.fresh 1%Z []
            = Ok (state', [Int 10; Int 11; Int 12], 3).
Proof. eexists. vm_compute. reflexivity. Qed.

(** ** The further properties on the worked examples *)

#[local] Existing Instance example_collaborator.
#[local] Existing Instance example_printers.
#[local] Existing Instance example_planner.
#[local] Existing Instance example_operations.

Ltac example_fact :=
  lazymatch goal with
  | |- Forall _ _ => fail
  | |- _ =>
    first [ exact eq_refl
          | discriminate
          | (vm_compute; exact eq_refl)
          | (vm_compute; intros; discriminate)
          | (intros; discriminate) ]
  end.

Ltac example_column_ok :=
  unfold column_ok; repeat split; try example_fact; repeat constructor.

Lemma five_rows_ok : column_ok five_rows.
Proof. example_column_ok. Qed.

Lemma three_rows_ok : column_ok three_rows.
Proof. example_column_ok. Qed.

Lemma three_rows_committed_ok : column_ok three_rows_committed.
Proof. example_column_ok. Qed.

Lemma example_type_size_ok : type_size_ok INTEGER.
Proof. unfold type_size_ok. repeat split; example_fact. Qed.

Lemma empty_column_appendable : appendable_column empty_column.
Proof.
  unfold appendable_column. split; [exact I|]. split; [reflexivity|].
  split; [example_fact|]. split; [constructor|apply example_type_size_ok].
Qed.

Lemma three_rows_appendable : appendable_column three_rows.
Proof.
  unfold appendable_column. split; [repeat split; example_fact|].
  split; [reflexivity|]. split; [example_fact|]. split; [|apply example_type_size_ok].
  apply Forall_singleton. split; [reflexivity|]. split; [reflexivity|].
  split; [split; example_fact|]. intros _. reflexivity.
Qed.

Lemma cursor_row_1_in_five_rows : cursor_in_column five_rows cursor_row_1.
Proof.
  exists 0%nat, (example_segment TRANSIENT 0 10 3). repeat split; example_fact.
Qed.

(** A fresh cursor on [five_rows], and the scan of its only block. *)
Lemma InitializeScan_then_Scan_walks_the_blocks_witness :
  scan_ready five_rows 0 (InitializeScan five_rows ColumnScanState.fresh)
  ∧ ∃ state' result',
      Scan true five_rows example_transaction 0
        (InitializeScan five_rows ColumnScanState.fresh) []
      = Ok (state', result', 5).
Proof.
  destruct (InitializeScan_then_Scan_walks_the_blocks five_rows five_rows_ok)
    as [Hinit Hscan]; [discriminate|].
  split; [apply Hinit|].
  destruct (Hscan true example_transaction 0
              (InitializeScan five_rows ColumnScanState.fresh) [] (Hinit _))
    as (state' & result' & Hrun & _); [example_fact|].
  exists state', result'. exact Hrun.
Defined.

(** Three rows and then four from row 1 of [five_rows], which has four
    left. *)
Lemma ScanCount_in_two_steps_witness :
  ∃ state_a decoded_a n_a state_b decoded_b n_b state_ab decoded_ab,
    ScanCount true five_rows cursor_row_1 [] 3 = Ok (state_a, decoded_a, n_a)
    ∧ ScanCount true five_rows state_a [] 4 = Ok (state_b, decoded_b, n_b)
    ∧ ScanCount true five_rows cursor_row_1 [] (3 + 4) = Ok (state_ab, decoded_ab, n_a + n_b)
    ∧ take (N.to_nat (n_a + n_b)) decoded_ab
      = take (N.to_nat n_a) decoded_a ++ take (N.to_nat n_b) decoded_b
    ∧ ColumnScanState.row_index state_ab = ColumnScanState.row_index state_b
    ∧ (3 = 0 → state_a = cursor_row_1 ∧ decoded_a = []).
Proof.
  apply (ScanCount_in_two_steps true five_rows cursor_row_1 [] [] [] 3 4).
  - apply five_rows_ok.
  - reflexivity.
  - apply cursor_row_1_in_five_rows.
  - example_fact.
Defined.

Lemma ScanVector_force_fetch_row_decodes_the_same_witness :
  ∃ state_rows decoded_rows state_bulk decoded_bulk n,
    ScanVector true five_rows (with_force_fetch_row cursor_row_1 true) [] 3 false
    = Ok (state_rows, decoded_rows, n)
    ∧ ScanVector true five_rows (with_force_fetch_row cursor_row_1 false) [] 3 false
      = Ok (state_bulk, decoded_bulk, n)
    ∧ take (N.to_nat n) decoded_rows = take (N.to_nat n) decoded_bulk
    ∧ ColumnScanState.row_index state_rows = ColumnScanState.row_index state_bulk.
Proof.
  apply (ScanVector_force_fetch_row_decodes_the_same true five_rows cursor_row_1 [] 3 false).
  - apply five_rows_ok.
  - apply cursor_row_1_in_five_rows.
  - example_fact.
Defined.

(** Row 1 of [three_rows_committed] holds 11 and has a committed update to
    99 that the transaction sees. *)
Lemma FetchRow_reads_the_row_witness :
  ∃ result',
    FetchRow three_rows_committed example_transaction 1%Z [] 0 = Ok result'
    ∧ result' !! 0%nat = Some (Int 99).
Proof.
  destruct (FetchRow_reads_the_row three_rows_committed example_transaction 1%Z [] 0
              three_rows_committed_ok)
    as (stored & result' & Hstored & Hrun & Hat & _); [example_fact|split; example_fact|].
  exists result'. split; [exact Hrun|].
  assert (stored = Int 11) as -> by (vm_compute in Hstored; congruence).
  exact Hat.
Defined.

(** Row 7 and row -1 of a column of three rows. *)
Lemma row_outside_the_column_is_an_internal_error_witness :
  FetchRow three_rows example_transaction 7%Z [] 0 = Throw InternalException
  ∧ FetchRow three_rows example_transaction (-1)%Z [] 0 = Throw InternalException
  ∧ InitializeScanWithOffset three_rows ColumnScanState.fresh 3 = Throw InternalException.
Proof.
  destruct (row_outside_the_column_is_an_internal_error true three_rows example_transaction
              ColumnScanState.fresh [])
    as (Hfetch & Hscan & _); [repeat split; example_fact|reflexivity|].
  split; [|split].
  - apply Hfetch. vm_compute. intros [_ H]. discriminate H.
  - apply Hfetch. vm_compute. intros [_ H]. discriminate H.
  - apply Hscan. vm_compute. intros [_ H]. discriminate H.
Defined.

(** Row 5 of a column of three rows: past the end, in the block that
    starts at row 0. *)
Lemma Fetch_depends_on_the_block_only_witness :
  ∃ state' result',
    Fetch true three_rows ColumnScanState.fresh 5%Z [] = Ok (state', result', 3)
    ∧ take 3 result' = [Int 10; Int 11; Int 12].
Proof.
  destruct (Fetch_depends_on_the_block_only true three_rows ColumnScanState.fresh 5%Z []
              three_rows_ok)
    as [Hin _]; [example_fact|split; example_fact|].
  destruct Hin as (state' & result' & Hrun & Hrows); [example_fact|].
  exists state', result'. split; [exact Hrun|exact Hrows].
Defined.

Lemma ScanCommittedRange_reads_committed_rows_witness :
  ∃ decoded,
    take 2 decoded = [Int 11; Int 12]
    ∧ ScanCommittedRange true three_rows_committed 0 1 5 []
      = Ok (UpdateSegment_FetchCommittedRange committed_updates 1 5 decoded).
Proof.
  destruct (ScanCommittedRange_reads_committed_rows true three_rows_committed 0 1 5 []
              three_rows_committed_ok)
    as (decoded & Hrows & Hrun); [split; example_fact|example_fact|].
  exists decoded. split; [exact Hrows|exact Hrun].
Defined.

(** Ten rows appended to a fresh column. *)
Lemma Append_keeps_the_column_well_formed_witness :
  ∃ c1 state1 c' stats' state',
    InitializeAppend true empty_column no_append_state = Ok (c1, state1)
    ∧ AppendData 11 c1 (CreateEmpty INTEGER) state1 (int_rows 0 10) 10
      = Ok (c', stats', state')
    ∧ appendable_column c' ∧ column_ok c'
    ∧ start c' = start empty_column ∧ count c' = count empty_column + 10
    ∧ all_rows (data c')
      = all_rows (data empty_column) ++ slice (int_rows 0 10) 0 (N.to_nat 10).
Proof.
  apply (Append_keeps_the_column_well_formed true 11 empty_column no_append_state
           (CreateEmpty INTEGER) (int_rows 0 10) 10).
  - apply empty_column_appendable.
  - example_fact.
  - vm_compute. lia.
Defined.

Lemma FetchRow_after_Append_returns_the_appended_value_witness :
  ∃ c1 state1 c' stats' state',
    InitializeAppend true empty_column no_append_state = Ok (c1, state1)
    ∧ AppendData 11 c1 (CreateEmpty INTEGER) state1 (int_rows 0 10) 10
      = Ok (c', stats', state')
    ∧ ∃ result',
        FetchRow c' example_transaction 7%Z [] 0 = Ok result'
        ∧ result' !! 0%nat = Some (Int 7).
Proof.
  destruct (FetchRow_after_Append_returns_the_appended_value true 11 empty_column
              no_append_state (CreateEmpty INTEGER) (int_rows 0 10) 10 example_transaction
              [] 0 empty_column_appendable)
    as (c1 & state1 & c' & stats' & state' & Hinit & Hrun & Hfetch);
    [reflexivity|example_fact|vm_compute; lia|].
  exists c1, state1, c', stats', state'. split; [exact Hinit|]. split; [exact Hrun|].
  apply (Hfetch 7 (Int 7)); example_fact.
Defined.

(** Six rows appended to [three_rows], whose zone map is 10 to 12. *)
Lemma Append_keeps_the_zone_map_sound_witness :
  ∃ c1 state1 c' state' statistics',
    InitializeAppend true three_rows no_append_state = Ok (c1, state1)
    ∧ Append 11 c1 state1 (int_rows 0 6) 6 = Ok (c', state')
    ∧ stats c' = Some statistics'
    ∧ (∀ v, v ∈ all_rows (data c') → covers statistics' v).
Proof.
  apply (Append_keeps_the_zone_map_sound true 11 three_rows no_append_state (int_rows 0 6) 6
           (mkStats false (Some (10, 12)%Z))).
  - apply three_rows_appendable.
  - reflexivity.
  - reflexivity.
  - intros v Hv. change (v ∈ [Int 10; Int 11; Int 12]) in Hv.
    repeat (apply elem_of_cons in Hv as [->|Hv]);
      [exists 10%Z, 12%Z; split; [reflexivity|lia]..|].
    by apply elem_of_nil in Hv.
  - example_fact.
  - vm_compute. lia.
Defined.

(** [five_rows] cut back to its first four rows. *)
Lemma RevertAppend_cuts_back_to_the_row_witness :
  ∃ c',
    RevertAppend true five_rows 4%Z = Ok c'
    ∧ column_ok c'
    ∧ start c' = start five_rows
    ∧ count c' = idx_of_row 4%Z - start five_rows
    ∧ all_rows (data c')
      = take (N.to_nat (idx_of_row 4%Z - start five_rows)) (all_rows (data five_rows)).
Proof.
  apply (RevertAppend_cuts_back_to_the_row true five_rows 4%Z).
  - apply five_rows_ok.
  - split; example_fact.
  - intros _ i seg Hi _.
    destruct i as [|[|i]]; [by injection Hi as <-|by injection Hi as <-|discriminate Hi].
Defined.

Lemma RevertAppend_undoes_AppendData_witness :
  ∃ c1 state1 c' stats' state' c'',
    InitializeAppend true three_rows no_append_state = Ok (c1, state1)
    ∧ AppendData 11 c1 (CreateEmpty INTEGER) state1 (int_rows 0 6) 6 = Ok (c', stats', state')
    ∧ RevertAppend true c' (Z.of_N (start three_rows + count three_rows)) = Ok c''
    ∧ column_ok c''
    ∧ start c'' = start three_rows
    ∧ count c'' = count three_rows
    ∧ all_rows (data c'') = all_rows (data three_rows).
Proof.
  apply (RevertAppend_undoes_AppendData true 11 three_rows no_append_state
           (CreateEmpty INTEGER) (int_rows 0 6) 6).
  - apply three_rows_appendable.
  - example_fact.
  - vm_compute. lia.
Defined.

(** A column whose only segment is persistent gets a transient one at
    row 3. *)
Lemma InitializeAppend_adds_a_segment_only_when_needed_witness :
  ∃ c1 state1 tail,
    InitializeAppend true three_rows_sealed no_append_state = Ok (c1, state1)
    ∧ data c1 = data three_rows_sealed ++ [CreateTransientSegment INTEGER 3 16]
    ∧ ColumnAppendState.current state1 = GetLastSegment (data c1)
    ∧ last (data c1) = Some tail
    ∧ ColumnSegment.segment_type tail = TRANSIENT.
Proof.
  assert (contiguous (start three_rows_sealed) (data three_rows_sealed)) as Hcont
    by (repeat split; example_fact).
  assert (start three_rows_sealed + sum_counts (data three_rows_sealed) < IDX_MODULUS)
    as Hend by example_fact.
  assert (Forall appendable_ok (data three_rows_sealed)) as Happ by repeat constructor.
  exact (InitializeAppend_adds_a_segment_only_when_needed true three_rows_sealed
           no_append_state Hcont Hend Happ).
Defined.

Lemma Verify_checks_the_tree_invariant_witness : Verify true five_rows 0 = Ok ().
Proof.
  destruct (Verify_checks_the_tree_invariant five_rows 0) as [[_ Hpass] _]; [example_fact|].
  apply Hpass. repeat split; example_fact.
Defined.

(** The two pointers of [example_pointers] tile rows 0 to 4. *)
Lemma DeserializeColumn_verifies_when_the_pointers_tile_witness :
  Verify true (DeserializeColumn empty_column example_pointers (CreateEmpty INTEGER)).1 0
  = Ok ().
Proof.
  destruct (DeserializeColumn_verifies_when_the_pointers_tile empty_column example_pointers
              (CreateEmpty INTEGER))
    as (_ & _ & _ & [_ Hpass]); [reflexivity|example_fact|reflexivity|].
  apply Hpass. repeat split; example_fact.
Defined.

(** Row 1 of [three_rows] updated to 5: the column gets an overlay. *)
Lemma Update_hands_the_block_to_the_overlay_witness :
  ∃ c',
    Update true three_rows example_transaction 0 [Int 5] [1%Z] 1 = Ok c'
    ∧ HasUpdates c' = true
    ∧ data c' = data three_rows.
Proof.
  destruct (Update_hands_the_block_to_the_overlay true three_rows example_transaction 0
              [Int 5] [1%Z] 1 1%Z three_rows_ok)
    as (Hin & _ & Hkeeps & _); [reflexivity|example_fact|split; example_fact|].
  destruct Hin as (base_vector & _ & Hrun); [example_fact|].
  eexists. split; [rewrite Hrun; reflexivity|]. split; reflexivity.
Defined.

Lemma SetStart_moves_the_row_ids_only_witness :
  column_ok (SetStart three_rows 100)
  ∧ count (SetStart three_rows 100) = count three_rows
  ∧ all_rows (data (SetStart three_rows 100)) = all_rows (data three_rows)
  ∧ ∀ k, k < count three_rows →
      ∃ v before after,
        FetchRow three_rows example_transaction (Z.of_N (start three_rows + k)) [] 0
        = Ok before
        ∧ FetchRow (SetStart three_rows 100) example_transaction (Z.of_N (100 + k)) [] 0
          = Ok after
        ∧ before !! N.to_nat 0 = Some v
        ∧ after !! N.to_nat 0 = Some v.
Proof.
  apply (SetStart_moves_the_row_ids_only three_rows 100 example_transaction [] 0).
  - apply three_rows_ok.
  - example_fact.
  - reflexivity.
Defined.

(** Rows 1 and 2 of the segment of [three_rows_committed]. *)
Lemma CheckpointScan_decodes_the_segment_rows_witness :
  ∃ decoded,
    take 2 decoded = [Int 11; Int 12]
    ∧ ∀ flag,
        CheckpointScan three_rows_committed (example_segment TRANSIENT 0 10 3)
          (with_force_fetch_row cursor_row_1 flag) 0 2 []
        = UpdateSegment_FetchCommittedRange committed_updates 1 2 decoded.
Proof.
  destruct (CheckpointScan_decodes_the_segment_rows three_rows_committed
              (example_segment TRANSIENT 0 10 3) cursor_row_1 0 2 [])
    as (decoded & Hrows & _ & Hrun); [example_fact..|].
  exists decoded. split; [exact Hrows|exact Hrun].
Defined.

(** The two segments of [five_rows] under the column path 4, 2. *)
Lemma GetColumnSegmentInfo_one_entry_per_segment_witness :
  ∃ infos,
    GetColumnSegmentInfo true five_rows 0 [4; 2] [] = Ok infos
    ∧ info_column_path <$> infos = ["[4, 2]"; "[4, 2]"]
    ∧ info_segment_idx <$> infos = [0; 1]
    ∧ info_segment_start <$> infos = [0; 3].
Proof.
  destruct (GetColumnSegmentInfo_one_entry_per_segment true five_rows 0 [])
    as [Hinfo _]; [example_fact|].
  eexists. split; [apply Hinfo|]. repeat split; vm_compute; reflexivity.
Defined.

(** The second column and the row id of a table of two columns. *)
Lemma ResolveTypes_gives_one_type_per_binding_witness :
  ∃ g',
    ResolveTypes example_get = Ok g'
    ∧ LogicalGet.types g' = [VARCHAR; BIGINT]
    ∧ GetColumnBindings g' = [mkBinding 7 0; mkBinding 7 1].
Proof.
  destruct (ResolveTypes_gives_one_type_per_binding example_get)
    as (g' & resolved & Hrun & _).
  - intros index Hindex. change (index ∈ [1; 18446744073709551615]) in Hindex.
    repeat (apply elem_of_cons in Hindex as [->|Hindex]); [by eexists..|].
    by apply elem_of_nil in Hindex.
  - pose proof Hrun as Hg'. vm_compute in Hg'. injection Hg' as <-.
    eexists. split; [exact Hrun|]. split; reflexivity.
Defined.

Lemma Reserve_rounds_up_to_the_vector_size_witness :
  ∃ b',
    Reserve true fresh_buffer 1500 = Ok b'
    ∧ 1500 ≤ VectorListBuffer.capacity b'
    ∧ VectorListBuffer.capacity fresh_buffer ≤ VectorListBuffer.capacity b'
    ∧ VectorListBuffer.size b' = VectorListBuffer.size fresh_buffer
    ∧ (VectorListBuffer.capacity fresh_buffer < 1500 →
       VectorListBuffer.capacity b' mod STANDARD_VECTOR_SIZE = 0
       ∧ VectorListBuffer.capacity b' < 1500 + STANDARD_VECTOR_SIZE)
    ∧ (1500 ≤ VectorListBuffer.capacity fresh_buffer → b' = fresh_buffer).
Proof.
  apply (Reserve_rounds_up_to_the_vector_size true fresh_buffer 1500). example_fact.
Defined.

Lemma Reserve_overflows_near_the_top_witness :
  Reserve true fresh_buffer 18446744073709551615 = Throw InternalException
  ∧ ∃ b', Reserve false fresh_buffer 18446744073709551615 = Ok b'
          ∧ VectorListBuffer.capacity b' = 0
          ∧ VectorListBuffer.size b' = VectorListBuffer.size fresh_buffer.
Proof.
  apply (Reserve_overflows_near_the_top fresh_buffer 18446744073709551615).
  - split; example_fact.
  - example_fact.
Defined.

Lemma Append_keeps_the_size_within_the_capacity_witness :
  (∃ b', VectorListBuffer_Append true fresh_buffer (int_rows 0 100) 100 0 = Ok b'
         ∧ VectorListBuffer.size b' = VectorListBuffer.size fresh_buffer + (100 - 0)
         ∧ VectorListBuffer.capacity fresh_buffer ≤ VectorListBuffer.capacity b'
         ∧ buffer_ok b')
  ∧ (∃ b', VectorListBuffer_Append_sel true fresh_buffer (int_rows 0 100) [] 100 0 = Ok b'
           ∧ VectorListBuffer.size b' = VectorListBuffer.size fresh_buffer + (100 - 0)
           ∧ VectorListBuffer.capacity fresh_buffer ≤ VectorListBuffer.capacity b'
           ∧ buffer_ok b').
Proof.
  apply (Append_keeps_the_size_within_the_capacity true fresh_buffer (int_rows 0 100) []
           100 0).
  - split; example_fact.
  - example_fact.
  - example_fact.
  - example_fact.
Defined.

(** A full buffer of 1024 entries doubles. *)
Lemma PushBack_doubles_a_full_buffer_witness :
  VectorListBuffer.size (PushBack full_buffer (Int 1)) = 1025
  ∧ VectorListBuffer.capacity (PushBack full_buffer (Int 1)) = 2048
  ∧ buffer_ok (PushBack full_buffer (Int 1)).
Proof.
  destruct (PushBack_doubles_a_full_buffer full_buffer (Int 1)) as (Hsize & Hgrow & _);
    [example_fact|].
  destruct Hgrow as [Hok Hcap]; [split; example_fact|example_fact|example_fact|].
  split; [exact Hsize|]. split; [exact Hcap|exact Hok].
Defined.

(** The first segment of a fresh column: one block of 16 bytes, four
    rows. *)
Lemma AppendTransientSegment_adds_an_empty_segment_with_room_witness :
  ∃ seg,
    data (AppendTransientSegment empty_column 0) = data empty_column ++ [seg]
    ∧ ColumnSegment.segment_size seg = 16
    ∧ room seg = 4
    ∧ allocation_size (AppendTransientSegment empty_column 0) = 16.
Proof.
  destruct (AppendTransientSegment_adds_an_empty_segment_with_room empty_column 0
              example_type_size_ok)
    as (seg & Hdata & _ & _ & _ & _ & _ & Hsize & _ & _ & Halloc & _).
  exists seg. split; [exact Hdata|].
  apply app_inj_tail in Hdata as [_ <-].
  split; [reflexivity|]. split; reflexivity.
Defined.

End Examples.
